(** * PyWPMedia: the thumbnail classification and matching engine

  A shallow embedding of [PyWPMedia.py]: the detector [is_thumbnail],
  the extractor [get_base_name], the matcher [find_matching_main_files],
  the per-folder deletion loop [delete_thumbnails_in_folder] and the
  per-folder body of [MediaCleanerGUI.preview_cleanup].

  Python [str] values are sequences of characters, here [list ascii].
  The character operations ([str.lower], the class [\d], the flag
  [re.IGNORECASE]) are the ASCII ones: characters above 127 have no case
  and are not digits.  Python's behaviour on other Unicode characters is
  outside this model. *)

From Stdlib Require Import Ascii String List ZArith Bool Arith Lia.
Import ListNotations.

Set Implicit Arguments.

Definition str := list ascii.

(** String literals of the source are written [lit "photo.jpg"]. *)
Definition lit (x : string) : str := list_ascii_of_string x.

(** ** Python's [str] methods used by the program *)
Module PyStr.

Definition is_upper (c : ascii) : bool :=
  (65 <=? nat_of_ascii c)%nat && (nat_of_ascii c <=? 90)%nat.

Definition is_digit (c : ascii) : bool :=
  (48 <=? nat_of_ascii c)%nat && (nat_of_ascii c <=? 57)%nat.

Definition is_hyphen (c : ascii) : bool := Ascii.eqb c "-".

Definition lower_char (c : ascii) : ascii :=
  if is_upper c then ascii_of_nat (nat_of_ascii c + 32) else c.

(** [x.lower()] *)
Definition lower (x : str) : str := map lower_char x.

(** [x == y] *)
Fixpoint str_eqb (x y : str) : bool :=
  match x, y with
  | [], [] => true
  | a :: x', b :: y' => Ascii.eqb a b && str_eqb x' y'
  | _, _ => false
  end.

(** [x.startswith(p)] *)
Fixpoint startswith (x p : str) {struct p} : bool :=
  match p, x with
  | [], _ => true
  | b :: p', a :: x' => Ascii.eqb a b && startswith x' p'
  | _ :: _, [] => false
  end.

(** [x.endswith(p)] *)
Definition endswith (x p : str) : bool := startswith (rev x) (rev p).

(** [x.endswith(tuple)] *)
Definition endswith_any (x : str) (ps : list str) : bool :=
  existsb (endswith x) ps.

(** [p in x] *)
Fixpoint contains (x p : str) : bool :=
  startswith x p ||
  match x with
  | [] => false
  | _ :: x' => contains x' p
  end.

(** [x.replace(old, new)] for a one-character [old] *)
Definition replace (old : ascii) (new : str) (x : str) : str :=
  flat_map (fun c => if Ascii.eqb c old then new else [c]) x.

Fixpoint lstrip (c : ascii) (x : str) : str :=
  match x with
  | a :: x' => if Ascii.eqb a c then lstrip c x' else x
  | [] => []
  end.

(** [x.rstrip(c)] for a one-character set [c] *)
Definition rstrip (c : ascii) (x : str) : str := rev (lstrip c (rev x)).

(** [x.rfind(c)]: the highest index of [c] in [x], or [-1]. *)
Fixpoint rfind (c : ascii) (x : str) : Z :=
  match x with
  | [] => (-1)%Z
  | a :: x' =>
      let r := rfind c x' in
      if (0 <=? r)%Z then (r + 1)%Z
      else if Ascii.eqb a c then 0%Z else (-1)%Z
  end.

(** Slices [x[:i]], [x[i:]] and [x[i:j]] for indexes that are not
    negative (the only ones the program forms). *)
Definition slice_to (x : str) (i : Z) : str := firstn (Z.to_nat i) x.
Definition slice_from (x : str) (i : Z) : str := skipn (Z.to_nat i) x.
Definition slice (x : str) (i j : Z) : str :=
  firstn (Z.to_nat j - Z.to_nat i) (skipn (Z.to_nat i) x).

(** The longest prefix of [x] whose characters satisfy [ok], and the rest. *)
Fixpoint span (ok : ascii -> bool) (x : str) : str * str :=
  match x with
  | c :: x' =>
      if ok c then (c :: fst (span ok x'), snd (span ok x'))
      else ([], x)
  | [] => ([], [])
  end.

(** The value of a string of decimal digits, as [int(x)] computes it. *)
Definition digit_val (c : ascii) : Z := Z.of_nat (nat_of_ascii c - 48).

Definition int_digits (x : str) : Z :=
  fold_left (fun acc c => (10 * acc + digit_val c)%Z) x 0%Z.

End PyStr.

(** ** [os.path.splitext] *)
Module OsPath.
Import PyStr.

(** [genericpath._splitext(p, sep, None, extsep)]: the extension starts at
    the last [extsep] that comes after the last [sep], provided some
    character of the last path component before it is not [extsep]
    (leading dots do not start an extension). *)
Definition generic_splitext (sep extsep : ascii) (p : str) : str * str :=
  let sepIndex := rfind sep p in
  let dotIndex := rfind extsep p in
  if (sepIndex <? dotIndex)%Z
     && existsb (fun c => negb (Ascii.eqb c extsep))
                (slice p (sepIndex + 1) dotIndex)
  then (slice_to p dotIndex, slice_from p dotIndex)
  else (p, []).

(** [posixpath.splitext].  On Windows [ntpath.splitext] is the same
    function with the separators [\] and [/]. *)
Definition splitext (p : str) : str * str := generic_splitext "/" "." p.

End OsPath.

(** ** The fragment of [re] the program uses

    A backtracking matcher in continuation-passing style.  Repetition is
    only over one-character atoms ([\d+], [-+]), which is all the patterns
    of the program need and keeps the matcher structurally recursive.
    Every pattern of the program starts with a literal hyphen, so no match
    is empty; the scanning functions treat an empty match as no match. *)
Module Re.
Import PyStr.

Inductive atom : Type :=
| Chr (c : ascii)     (* a literal character *)
| Digit.              (* \d *)

Inductive regex : Type :=
| Eps
| Atom (a : atom)
| Plus (a : atom)     (* a+, greedy *)
| Seq (r1 r2 : regex)
| Alt (r1 r2 : regex)
| Group (r : regex)   (* a capturing group *)
| Eos.                (* $ *)

(** [ic] is the flag [re.IGNORECASE]. *)
Definition atom_ok (ic : bool) (a : atom) (c : ascii) : bool :=
  match a with
  | Chr b => if ic then Ascii.eqb (lower_char c) (lower_char b)
             else Ascii.eqb c b
  | Digit => is_digit c
  end.

(** Greedy [a+]: take one more character when possible, and give
    characters back, one at a time, when the continuation fails. *)
Fixpoint plus_match {R : Type} (ok : ascii -> bool) (x : str)
  (k : str -> option R) : option R :=
  match x with
  | c :: x' =>
      if ok c then
        match plus_match ok x' k with
        | Some r => Some r
        | None => k x'
        end
      else None
  | [] => None
  end.

(** Without [re.MULTILINE], [$] matches at the end of the string and just
    before a line feed that is the last character of the string. *)
Definition at_end (x : str) : bool :=
  match x with
  | [] => true
  | [c] => Ascii.eqb c "010"
  | _ => false
  end.

(** [rmatch ic r x gs k]: match [r] at the start of [x]; [gs] holds the
    groups captured so far, [k] receives the rest of the string and the
    groups.  A group is recorded when it closes; the groups of the
    program's patterns are not nested, so this is their order. *)
Fixpoint rmatch {R : Type} (ic : bool) (r : regex) (x : str) (gs : list str)
  (k : str -> list str -> option R) : option R :=
  match r with
  | Eps => k x gs
  | Atom a =>
      match x with
      | c :: x' => if atom_ok ic a c then k x' gs else None
      | [] => None
      end
  | Plus a => plus_match (atom_ok ic a) x (fun x' => k x' gs)
  | Seq r1 r2 => rmatch ic r1 x gs (fun x1 gs1 => rmatch ic r2 x1 gs1 k)
  | Alt r1 r2 =>
      match rmatch ic r1 x gs k with
      | Some res => Some res
      | None => rmatch ic r2 x gs k
      end
  | Group r1 =>
      rmatch ic r1 x gs
        (fun x1 gs1 => k x1 (gs1 ++ [firstn (length x - length x1) x]))
  | Eos => if at_end x then k x gs else None
  end.

(** A match at the start of [x]: the number of characters it spans and its
    groups. *)
Definition match_at (ic : bool) (r : regex) (x : str) : option (nat * list str) :=
  rmatch ic r x [] (fun x' gs => Some (length x - length x', gs)).

(** The left-to-right scan shared by [re.findall] and [re.sub]: [skip]
    counts the characters of the current match still to pass over. *)
Fixpoint scan (ic : bool) (r : regex) (skip : nat) (x : str) : list (list str) :=
  match x with
  | [] => []
  | _ :: x' =>
      match skip with
      | S n => scan ic r n x'
      | O =>
          match match_at ic r x with
          | Some (S n, gs) => gs :: scan ic r n x'
          | _ => scan ic r 0 x'
          end
      end
  end.

(** [re.findall(r, x)] for a pattern with two or more groups: the groups of
    each match, leftmost match first, matches not overlapping. *)
Definition findall (r : regex) (x : str) : list (list str) := scan false r 0 x.

Fixpoint sub_from (ic : bool) (r : regex) (repl : str) (skip : nat) (x : str) : str :=
  match x with
  | [] => []
  | c :: x' =>
      match skip with
      | S n => sub_from ic r repl n x'
      | O =>
          match match_at ic r x with
          | Some (S n, _) => repl ++ sub_from ic r repl n x'
          | _ => c :: sub_from ic r repl 0 x'
          end
      end
  end.

(** [re.sub(r, repl, x, flags)] for a replacement without group references. *)
Definition sub (ic : bool) (r : regex) (repl : str) (x : str) : str :=
  sub_from ic r repl 0 x.

(** A literal word. *)
Fixpoint word (w : str) : regex :=
  match w with
  | [] => Eps
  | c :: w' => Seq (Atom (Chr c)) (word w')
  end.

End Re.

(** ** The program *)

Import PyStr OsPath.

(** Line 9. *)
Definition MAIN_EXTENSIONS : list str :=
  [lit ".jpg"; lit ".jpeg"; lit ".png"; lit ".webp"; lit ".gif"; lit ".bmp";
   lit ".tiff"; lit ".tif"].

(** [r'-(\d+)x(\d+)'] (line 32) *)
Definition DIM_GROUPS : Re.regex :=
  Re.Seq (Re.Atom (Re.Chr "-"))
    (Re.Seq (Re.Group (Re.Plus Re.Digit))
       (Re.Seq (Re.Atom (Re.Chr "x")) (Re.Group (Re.Plus Re.Digit)))).

(** [r'-\d+x\d+'] (line 60) *)
Definition DIM : Re.regex :=
  Re.Seq (Re.Atom (Re.Chr "-"))
    (Re.Seq (Re.Plus Re.Digit)
       (Re.Seq (Re.Atom (Re.Chr "x")) (Re.Plus Re.Digit))).

(** [r'-(scaled|rotated)$'] (line 63) *)
Definition SUFFIX : Re.regex :=
  Re.Seq (Re.Atom (Re.Chr "-"))
    (Re.Seq (Re.Group (Re.Alt (Re.word (lit "scaled")) (Re.word (lit "rotated"))))
       Re.Eos).

(** [r'-+'] (line 67) *)
Definition HYPHENS : Re.regex := Re.Plus (Re.Chr "-").

(** Lines 21-25 and, word for word the same, lines 53-57: the name without
    its primary extension and, when what is left ends in [.jpg], [.jpeg] or
    [.png], without that extension too. *)
Definition strip_extensions (filename : str) : str :=
  let name := fst (splitext filename) in
  if endswith_any (lower name) [lit ".jpg"; lit ".jpeg"; lit ".png"]
  then fst (splitext name)
  else name.

(** Lines 27-43, on the name that lines 21-25 computed. *)
Definition is_thumbnail_name (name : str) : bool :=
  if contains (lower name) (lit "-scaled") || contains (lower name) (lit "-rotated")
  then true
  else
    let matches := Re.findall DIM_GROUPS name in
    match rev matches with
    | [] => false
    | m :: _ =>
        let last_width := nth 0 m [] in
        let last_height := nth 1 m [] in
        if (1000 <=? int_digits last_width)%Z && (1000 <=? int_digits last_height)%Z
        then false
        else true
    end.

(** [is_thumbnail] (lines 13-43). *)
Definition is_thumbnail (filename : str) : bool :=
  is_thumbnail_name (strip_extensions filename).

(** Lines 59-70, on the name that lines 53-57 computed. *)
Definition base_of_name (name : str) : str :=
  let base_name := Re.sub false DIM [] name in
  let base_name := Re.sub true SUFFIX [] base_name in
  let base_name := replace "_" (lit "-") base_name in
  let base_name := Re.sub false HYPHENS (lit "-") base_name in
  rstrip "-" base_name.

(** [get_base_name] (lines 46-70). *)
Definition get_base_name (filename : str) : str :=
  base_of_name (strip_extensions filename).

(** [find_matching_main_files] (lines 73-92): the loop over [all_files],
    appending to [matching_files]. *)
Fixpoint find_matching_loop (thumbnail_base : str) (all_files : list str) : list str :=
  match all_files with
  | [] => []
  | filename :: rest =>
      if is_thumbnail filename then find_matching_loop thumbnail_base rest
      else
        let file_base := lower (get_base_name filename) in
        if str_eqb file_base thumbnail_base
           || startswith thumbnail_base file_base
           || startswith file_base thumbnail_base
           || str_eqb (replace "-" [] file_base) (replace "-" [] thumbnail_base)
        then filename :: find_matching_loop thumbnail_base rest
        else find_matching_loop thumbnail_base rest
  end.

Definition find_matching_main_files (thumbnail_base : str) (all_files : list str) : list str :=
  find_matching_loop (lower thumbnail_base) all_files.

(** ** The detector with its partial operations

    [matches[-1]], the unpacking of a match into two names and [int] can
    raise.  This version of the detector keeps those exceptions. *)
Module Checked.

Inductive exn : Type := IndexError | ValueError.

Definition result (A : Type) : Type := (exn + A)%type.

Definition ret {A : Type} (a : A) : result A := inr a.

Definition raise {A : Type} (e : exn) : result A := inl e.

Definition bind {A B : Type} (m : result A) (k : A -> result B) : result B :=
  match m with
  | inl e => inl e
  | inr a => k a
  end.

Notation "x <- m ;; k" := (bind m (fun x => k))
  (at level 61, m at next level, right associativity).

(** [l[-1]] *)
Definition last_item {A : Type} (l : list A) : result A :=
  match rev l with
  | [] => raise IndexError
  | a :: _ => ret a
  end.

(** [a, b = m] *)
Definition unpack2 {A : Type} (m : list A) : result (A * A) :=
  match m with
  | [a; b] => ret (a, b)
  | _ => raise ValueError
  end.

(** [int(x)]: defined on the non-empty strings of decimal digits (Python
    accepts a sign, blanks and underscores as well; the detector never
    passes any).  The value is unbounded, as Python's [int] is; the cap
    that recent interpreters put on the number of digits of the argument
    (4300 unless configured otherwise) is not part of the model. *)
Definition int (x : str) : result Z :=
  match x with
  | [] => raise ValueError
  | _ :: _ => if forallb is_digit x then ret (int_digits x) else raise ValueError
  end.

(** Lines 21-43; [and] evaluates its right operand only when the left one
    is true. *)
Definition is_thumbnail (filename : str) : result bool :=
  let name := strip_extensions filename in
  if contains (lower name) (lit "-scaled") || contains (lower name) (lit "-rotated")
  then ret true
  else
    let matches := Re.findall DIM_GROUPS name in
    match matches with
    | [] => ret false
    | _ :: _ =>
        m <- last_item matches ;;
        wh <- unpack2 m ;;
        w <- int (fst wh) ;;
        if (1000 <=? w)%Z then
          h <- int (snd wh) ;;
          if (1000 <=? h)%Z then ret false else ret true
        else ret true
    end.

End Checked.

(** ** The folder loops *)

(** Line 133: the name, lower-cased, ends in one of [MAIN_EXTENSIONS]. *)
Definition is_image (f : str) : bool :=
  endswith_any (lower f) (map lower MAIN_EXTENSIONS).

(** What [log_callback] receives from [delete_thumbnails_in_folder]. *)
Inductive log_line : Type :=
| LogReadError
| LogProcessing
| LogFound (n : nat)
| LogDeleted (thumbnail : str) (matching_mains : list str)
| LogFailed (thumbnail : str)
| LogSkipped (thumbnail : str).

Record folder_state : Type := mk_folder_state {
  disk : list str;        (* the files of the folder *)
  deleted : nat;
  failed : nat;
  log : list log_line
}.

Definition say (l : log_line) (st : folder_state) : folder_state :=
  mk_folder_state (disk st) (deleted st) (failed st) (log st ++ [l]).

Section Folder.

(** Files whose removal the operating system refuses. *)
Variable locked : str -> bool.

(** [os.remove]: [None] stands for an exception. *)
Definition os_remove (d : list str) (f : str) : option (list str) :=
  if existsb (str_eqb f) d && negb (locked f)
  then Some (filter (fun g => negb (str_eqb g f)) d)
  else None.

(** Lines 141-157. *)
Fixpoint delete_loop (image_files thumbnail_files : list str) (st : folder_state) : folder_state :=
  match thumbnail_files with
  | [] => st
  | thumbnail :: rest =>
      let thumbnail_base := get_base_name thumbnail in
      let matching_mains := find_matching_main_files thumbnail_base image_files in
      let st' :=
        match matching_mains with
        | _ :: _ =>
            match os_remove (disk st) thumbnail with
            | Some d =>
                mk_folder_state d (S (deleted st)) (failed st)
                  (log st ++ [LogDeleted thumbnail matching_mains])
            | None =>
                mk_folder_state (disk st) (deleted st) (S (failed st))
                  (log st ++ [LogFailed thumbnail])
            end
        | [] => say (LogSkipped thumbnail) st
        end in
      delete_loop image_files rest st'
  end.

(** [delete_thumbnails_in_folder] (lines 116-159).  [listing] is what lines
    121-123 read from the folder, after [normalize_filenames] has run;
    [None] when reading raises. *)
Definition delete_thumbnails_in_folder (listing : option (list str)) : folder_state :=
  match listing with
  | None => mk_folder_state [] 0 0 [LogReadError]
  | Some all_files =>
      let st := mk_folder_state all_files 0 0 [] in
      match all_files with
      | [] => st
      | _ :: _ =>
          let image_files := filter is_image all_files in
          let thumbnail_files := filter is_thumbnail image_files in
          let st :=
            match thumbnail_files with
            | [] => st
            | _ :: _ => say (LogFound (length thumbnail_files)) (say LogProcessing st)
            end in
          delete_loop image_files thumbnail_files st
      end
  end.

End Folder.

(** What [self.log] receives from [preview_cleanup]. *)
Inductive preview_line : Type :=
| PvHeader
| PvFolder
| PvImages (images mains thumbs : nat)
| WouldDelete (thumb : str)
| WouldKeep (thumb : str)
| PvMore (n : nat)
| PvBlank
| PvSummary (folders files images mains thumbs del keep : nat).

Record preview_state : Type := mk_preview_state {
  total_files : nat;
  total_images : nat;
  total_mains : nat;
  total_thumbs : nat;
  would_delete : nat;
  would_skip : nat;
  folders_with_thumbs : nat;
  plog : list preview_line
}.

Definition psay (l : preview_line) (st : preview_state) : preview_state :=
  mk_preview_state (total_files st) (total_images st) (total_mains st)
    (total_thumbs st) (would_delete st) (would_skip st)
    (folders_with_thumbs st) (plog st ++ [l]).

(** Lines 323-331: the loop over [thumb_files[:3]]. *)
Fixpoint preview_loop (image_files sample : list str) (st : preview_state) : preview_state :=
  match sample with
  | [] => st
  | thumb :: rest =>
      let base := get_base_name thumb in
      let mains := find_matching_main_files base image_files in
      let st' :=
        match mains with
        | _ :: _ =>
            mk_preview_state (total_files st) (total_images st) (total_mains st)
              (total_thumbs st) (S (would_delete st)) (would_skip st)
              (folders_with_thumbs st) (plog st ++ [WouldDelete thumb])
        | [] =>
            mk_preview_state (total_files st) (total_images st) (total_mains st)
              (total_thumbs st) (would_delete st) (S (would_skip st))
              (folders_with_thumbs st) (plog st ++ [WouldKeep thumb])
        end in
      preview_loop image_files rest st'
  end.

(** Lines 303-336: the body of the loop over the folders. *)
Definition preview_folder (st : preview_state) (all_files : list str) : preview_state :=
  match all_files with
  | [] => st
  | _ :: _ =>
      let image_files := filter is_image all_files in
      let thumb_files := filter is_thumbnail image_files in
      let st :=
        mk_preview_state (total_files st + length all_files)
          (total_images st + length image_files) (total_mains st)
          (total_thumbs st) (would_delete st) (would_skip st)
          (folders_with_thumbs st) (plog st) in
      match thumb_files with
      | [] => st
      | _ :: _ =>
          let mains := length image_files - length thumb_files in
          let st :=
            mk_preview_state (total_files st) (total_images st)
              (total_mains st + mains) (total_thumbs st + length thumb_files)
              (would_delete st) (would_skip st) (S (folders_with_thumbs st))
              (plog st ++ [PvFolder; PvImages (length image_files) mains (length thumb_files)]) in
          let st := preview_loop image_files (firstn 3 thumb_files) st in
          let st :=
            if (3 <? length thumb_files)%nat
            then psay (PvMore (length thumb_files - 3)) st
            else st in
          psay PvBlank st
      end
  end.

(** Lines 296-300: the counters at zero, the header logged. *)
Definition preview_start : preview_state :=
  mk_preview_state 0 0 0 0 0 0 0 [PvHeader].

(** [MediaCleanerGUI.preview_cleanup] (lines 289-344) on a valid folder;
    [walk] lists the files of each folder that [os.walk] visits. *)
Definition preview_cleanup (walk : list (list str)) : preview_state :=
  let st := fold_left preview_folder walk preview_start in
  psay (PvSummary (folders_with_thumbs st) (total_files st) (total_images st)
          (total_mains st) (total_thumbs st) (would_delete st) (would_skip st)) st.

(** ** The notions of the specification *)
Module Spec.

(** A non-empty string of decimal digits. *)
Definition digits (w : str) : Prop :=
  w <> [] /\ Forall (fun c => is_digit c = true) w.

(** [name] has the dimension pattern [-<w>x<h>] between [pre] and [post]. *)
Definition dim_occurrence (name pre w h post : str) : Prop :=
  name = pre ++ "-"%char :: w ++ "x"%char :: h ++ post /\ digits w /\ digits h.

Definition has_dim (name : str) : Prop :=
  exists pre w h post, dim_occurrence name pre w h post.

(** The right-most occurrence, its height read up to the last digit. *)
Definition last_dim (name pre w h post : str) : Prop :=
  dim_occurrence name pre w h post /\
  (forall c post', post = c :: post' -> is_digit c = false) /\
  (forall pre' w' h' post',
      dim_occurrence name pre' w' h' post' -> length pre' <= length pre).

(** [name] contains [-scaled] or [-rotated], whatever the case. *)
Definition has_marker (name : str) : Prop :=
  (exists a b, lower name = a ++ lit "-scaled" ++ b) \/
  (exists a b, lower name = a ++ lit "-rotated" ++ b).

Inductive classification : Type := Main | Derivative.

Definition classify (filename : str) : classification :=
  if is_thumbnail filename then Derivative else Main.

(** [p] is a prefix of [x]. *)
Definition prefix (p x : str) : Prop := exists t, x = p ++ t.

Definition remove_hyphens (x : str) : str :=
  filter (fun c => negb (Ascii.eqb c "-")) x.

(** The four predicates of the matcher, on case-folded identities. *)
Definition identities_match (b c : str) : Prop :=
  let fb := lower b in
  let fc := lower c in
  fb = fc \/ prefix fb fc \/ prefix fc fb \/ remove_hyphens fb = remove_hyphens fc.

(** A scanner for the dimension pattern: the digits at the start of [x]
    and what follows them. *)
Definition span_digits (x : str) : str * str := span is_digit x.

(** The width and the height of the dimension pattern that starts [x]. *)
Definition dim_at (x : str) : option (str * str) :=
  match x with
  | c :: y =>
      if Ascii.eqb c "-" then
        match snd (span_digits y) with
        | c' :: z =>
            if Ascii.eqb c' "x" then
              match fst (span_digits y), fst (span_digits z) with
              | _ :: _, _ :: _ => Some (fst (span_digits y), fst (span_digits z))
              | _, _ => None
              end
            else None
        | [] => None
        end
      else None
  | [] => None
  end.

(** The length of the dimension pattern that starts [x], [0] when none
    does. *)
Definition dim_len (x : str) : nat :=
  match dim_at x with
  | Some (w, h) => 2 + length w + length h
  | None => 0
  end.

(** Every dimension pattern removed, in one pass from the left; [skip]
    counts the characters of the current pattern still to drop. *)
Fixpoint drop_dims (skip : nat) (x : str) : str :=
  match x with
  | [] => []
  | c :: x' =>
      match skip with
      | S n => drop_dims n x'
      | O =>
          match dim_len x with
          | S n => drop_dims n x'
          | O => c :: drop_dims 0 x'
          end
      end
  end.

Definition remove_dims (x : str) : str := drop_dims 0 x.

Definition drop_last (n : nat) (x : str) : str := firstn (length x - n) x.

(** One trailing [-scaled] or [-rotated] removed, whatever its case, only
    at the very end. *)
Definition strip_marker_at_end (x : str) : str :=
  if endswith (lower x) (lit "-scaled") then drop_last 7 x
  else if endswith (lower x) (lit "-rotated") then drop_last 8 x
  else x.

(** The same, where the end is also looked for before a final line feed,
    which stays. *)
Definition strip_marker_dollar (x : str) : str :=
  match rev x with
  | c :: y =>
      if Ascii.eqb c "010" then
        if endswith (lower (rev y)) (lit "-scaled") then drop_last 7 (rev y) ++ [c]
        else if endswith (lower (rev y)) (lit "-rotated") then drop_last 8 (rev y) ++ [c]
        else x
      else strip_marker_at_end x
  | [] => x
  end.

Definition underscores_to_hyphens (x : str) : str :=
  map (fun c => if Ascii.eqb c "_" then "-"%char else c) x.

(** Every run of hyphens becomes one hyphen. *)
Fixpoint collapse_hyphens (x : str) : str :=
  match x with
  | [] => []
  | c :: x' =>
      if Ascii.eqb c "-" then
        match x' with
        | c' :: _ => if Ascii.eqb c' "-" then collapse_hyphens x'
                     else c :: collapse_hyphens x'
        | [] => [c]
        end
      else c :: collapse_hyphens x'
  end.

(** A trailing hyphen removed. *)
Definition trim_trailing_hyphen (x : str) : str :=
  if endswith x (lit "-") then drop_last 1 x else x.

(** The extractor as the specification words it. *)
Definition BaseIdentity (filename : str) : str :=
  trim_trailing_hyphen
    (collapse_hyphens
       (underscores_to_hyphens
          (strip_marker_at_end (remove_dims (strip_extensions filename))))).

(** The extractor with the end of the name as [$] finds it. *)
Definition BaseIdentity_dollar (filename : str) : str :=
  trim_trailing_hyphen
    (collapse_hyphens
       (underscores_to_hyphens
          (strip_marker_dollar (remove_dims (strip_extensions filename))))).

(** The shape of an identity: no underscore, no two hyphens in a row, no
    hyphen at the end. *)
Definition canonical (x : str) : Prop :=
  ~ In "_"%char x /\
  (forall a b, x <> a ++ lit "--" ++ b) /\
  (forall a, x <> a ++ lit "-").

(** [x] ends with a marker, as the extractor looks for it. *)
Definition ends_with_marker (x : str) : Prop :=
  exists pre m e,
    x = pre ++ m ++ e /\
    (lower m = lit "-scaled" \/ lower m = lit "-rotated") /\
    (e = [] \/ e = ["010"%char]).

(** The last path component of [stem] has a character other than a dot:
    an extension after [stem] is one for [os.path.splitext]. *)
Definition has_stem (stem : str) : Prop :=
  exists pre c dots,
    stem = pre ++ c :: dots /\ c <> "."%char /\ c <> "/"%char /\
    Forall (fun d => d = "."%char) dots.

(** The decisions of the reconciler. *)
Inductive decision : Type := Delete | Retain.

Definition decide_for (image_files : list str) (thumbnail : str) : decision :=
  match find_matching_main_files (get_base_name thumbnail) image_files with
  | [] => Retain
  | _ :: _ => Delete
  end.

Definition decision_of (image_files : list str) (t : str) : str * decision :=
  (t, decide_for image_files t).

(** The decision that a line of the deletion log records. *)
Definition logged_decision (l : log_line) : option (str * decision) :=
  match l with
  | LogDeleted t _ => Some (t, Delete)
  | LogFailed t => Some (t, Delete)
  | LogSkipped t => Some (t, Retain)
  | _ => None
  end.

(** The decision that a line of the preview reports. *)
Definition previewed_decision (l : preview_line) : option (str * decision) :=
  match l with
  | WouldDelete t => Some (t, Delete)
  | WouldKeep t => Some (t, Retain)
  | _ => None
  end.

Fixpoint omap {A B : Type} (f : A -> option B) (l : list A) : list B :=
  match l with
  | [] => []
  | a :: l' =>
      match f a with
      | Some b => b :: omap f l'
      | None => omap f l'
      end
  end.

Definition decisions (st : folder_state) : list (str * decision) :=
  omap logged_decision (log st).

Definition preview_decisions (st : preview_state) : list (str * decision) :=
  omap previewed_decision (plog st).

(** The derivatives among the images of a folder. *)
Definition derivatives (all_files : list str) : list str :=
  filter is_thumbnail (filter is_image all_files).

End Spec.

Definition nl : str := ["010"%char].


(** ** The rest of the program: normalisation, the recursive deletion, the
    copy of the remaining files *)

(** [x.replace(old, new)] for a non-empty [old]: the occurrences of [old]
    are taken from the left and do not overlap; [skip] counts the
    characters of the current occurrence still to pass over. *)
Fixpoint replace_from (old new : str) (skip : nat) (x : str) : str :=
  match x with
  | [] => []
  | c :: x' =>
      match skip with
      | S n => replace_from old new n x'
      | O =>
          if startswith x old
          then new ++ replace_from old new (length old - 1) x'
          else c :: replace_from old new 0 x'
      end
  end.

Definition replace_str (old new : str) (x : str) : str := replace_from old new 0 x.

(** Lines 103-106: the name that [normalize_filenames] gives a file. *)
Definition normalize_name (filename : str) : str :=
  let new_name := filename in
  let new_name := replace_str (lit "--") (lit "-") new_name in
  let new_name := Re.sub false HYPHENS (lit "-") new_name in
  replace_str (lit "_.") (lit ".") new_name.

(** An entry of a folder: its name, and whether it is a regular file
    ([os.path.isfile]). *)
Definition entry : Type := (str * bool)%type.

Definition names (d : list entry) : list str := map fst d.

Definition has_entry (d : list entry) (name : str) : bool :=
  existsb (fun e => str_eqb (fst e) name) d.

Definition is_dir_entry (d : list entry) (name : str) : bool :=
  existsb (fun e => str_eqb (fst e) name && negb (snd e)) d.

Definition isfile (d : list entry) (name : str) : bool :=
  existsb (fun e => str_eqb (fst e) name && snd e) d.

Definition without (name : str) (d : list entry) : list entry :=
  filter (fun e => negb (str_eqb (fst e) name)) d.

Section Normalize.

(** The renames that the operating system refuses (a destination that
    exists, on Windows; a permission). *)
Variable refused : str -> str -> bool.

(** [os.rename(src, dst)] for a regular file [src]: [None] stands for an
    exception.  A destination that is a directory is never replaced; a
    destination that is a file is replaced unless the rename is refused. *)
Definition os_rename (d : list entry) (src dst : str) : option (list entry) :=
  if isfile d src && negb (is_dir_entry d dst) && negb (refused src dst)
  then Some ((dst, true) :: without dst (without src d))
  else None.

(** Lines 97-113, over the names that [os.listdir] returned. *)
Fixpoint normalize_loop (listing : list str) (d : list entry) : list entry :=
  match listing with
  | [] => d
  | filename :: rest =>
      if negb (isfile d filename) then normalize_loop rest d
      else
        let new_name := normalize_name filename in
        if negb (str_eqb new_name filename) then
          match os_rename d filename new_name with
          | Some d' => normalize_loop rest d'
          | None => normalize_loop rest d
          end
        else normalize_loop rest d
  end.

(** [normalize_filenames] (lines 95-113) on a folder that can be read. *)
Definition normalize_filenames (d : list entry) : list entry :=
  normalize_loop (names d) d.

(** Lines 120-126: the files of the folder after normalisation; [None]
    when the folder cannot be read. *)
Definition list_files (folder : option (list entry)) : option (list str) :=
  match folder with
  | None => None
  | Some d =>
      let d' := normalize_filenames d in
      Some (filter (isfile d') (names d'))
  end.

End Normalize.

(** What [delete_thumbnails] (lines 162-182) accumulates: the totals of
    its summary, and the state in which it left each folder. *)
Record cleanup_state : Type := mk_cleanup_state {
  total_deleted : nat;
  total_failed : nat;
  folders_processed : nat;
  visited : list folder_state
}.

Section Cleanup.

Variable locked : str -> bool.

(** Lines 171-176: one folder of the walk. *)
Definition cleanup_step (st : cleanup_state) (listing : option (list str)) : cleanup_state :=
  let r := delete_thumbnails_in_folder locked listing in
  mk_cleanup_state
    (total_deleted st + deleted r)
    (total_failed st + failed r)
    (if (0 <? deleted r) || (0 <? failed r)
     then S (folders_processed st) else folders_processed st)
    (visited st ++ [r]).

(** [delete_thumbnails] (lines 162-182); [walk] is what each folder that
    [os.walk] visits lists when its turn comes. *)
Definition delete_thumbnails (walk : list (option (list str))) : cleanup_state :=
  fold_left cleanup_step walk (mk_cleanup_state 0 0 0 []).

End Cleanup.

(** What [log_callback] receives from [move_remaining_files]. *)
Inductive copy_line : Type :=
| CopySkipped (file : str)
| Copied (file : str)
| CopyFailed (file : str)
| CopyComplete (copied skipped failed : nat).

Section Move.

(** What a file holds. *)
Variable data : Type.

(** The copies that fail. *)
Variable copy_fails : str -> data -> bool.

Record copy_state : Type := mk_copy_state {
  destination : list (str * data);   (* the entries of the destination folder *)
  copied : nat;
  skipped : nat;
  copy_failed : nat;
  copy_log : list copy_line
}.

(** [os.path.exists(dest_file)] *)
Definition exists_in (dest : list (str * data)) (file : str) : bool :=
  existsb (fun e => str_eqb (fst e) file) dest.

(** Lines 197-214: one file of the walk. *)
Definition copy_file (st : copy_state) (f : str * data) : copy_state :=
  let file := fst f in
  if is_thumbnail file then st
  else if exists_in (destination st) file then
    mk_copy_state (destination st) (copied st) (S (skipped st)) (copy_failed st)
      (copy_log st ++ [CopySkipped file])
  else if copy_fails file (snd f) then
    mk_copy_state (destination st) (copied st) (skipped st) (S (copy_failed st))
      (copy_log st ++ [CopyFailed file])
  else
    mk_copy_state (destination st ++ [f]) (S (copied st)) (skipped st) (copy_failed st)
      (copy_log st ++ [Copied file]).

(** Lines 195-214: the folders of the walk, and the files of each. *)
Definition copy_walk (walk : list (list (str * data))) (st : copy_state) : copy_state :=
  fold_left (fun st files => fold_left copy_file files st) walk st.

(** [move_remaining_files] (lines 185-216).  [dest] holds the entries of
    the destination folder, [None] when [os.makedirs] raises (the function
    then returns after logging the error); [walk] lists the
    files of each folder of the source, which the destination is not part
    of (the caller's guard, lines 362-367).  A copy that fails leaves
    nothing in the destination. *)
Definition move_remaining_files (dest : option (list (str * data)))
  (walk : list (list (str * data))) : option copy_state :=
  match dest with
  | None => None
  | Some d =>
      let st := copy_walk walk (mk_copy_state d 0 0 0 []) in
      Some (mk_copy_state (destination st) (copied st) (skipped st) (copy_failed st)
              (copy_log st ++ [CopyComplete (copied st) (skipped st) (copy_failed st)]))
  end.

End Move.

(** A main file matches the thumbnail [t] among [image_files]. *)
Definition has_match (image_files : list str) (t : str) : bool :=
  match find_matching_main_files (get_base_name t) image_files with
  | [] => false
  | _ :: _ => true
  end.

(** [f in l] *)
Definition mem (f : str) (l : list str) : bool := existsb (str_eqb f) l.

(** Counting, for the statements below. *)
Definition count_decision (k : Spec.decision) (l : list (str * Spec.decision)) : nat :=
  length (filter (fun p => match snd p, k with
                           | Spec.Delete, Spec.Delete => true
                           | Spec.Retain, Spec.Retain => true
                           | _, _ => false
                           end) l).

(** No two hyphens in a row. *)
Fixpoint single_hyphens (x : str) : bool :=
  match x with
  | [] => true
  | c :: x' =>
      match x' with
      | c' :: _ => negb (Ascii.eqb c "-" && Ascii.eqb c' "-") && single_hyphens x'
      | [] => true
      end
  end.

(** The derivative images of a listing that have a matching main file:
    those that [delete_thumbnails_in_folder] tries to delete. *)
Definition deletable (listing : option (list str)) : nat :=
  match listing with
  | None => 0
  | Some all_files =>
      length (filter (fun f => is_image f && is_thumbnail f
                               && has_match (filter is_image all_files) f)
                all_files)
  end.

(** Two states of the preview with the same totals of files, images, main
    files, thumbnails and folders. *)
Definition same_totals (a b : preview_state) : Prop :=
  total_files a = total_files b /\ total_images a = total_images b /\
  total_mains a = total_mains b /\ total_thumbs a = total_thumbs b /\
  folders_with_thumbs a = folders_with_thumbs b.

Definition starts_hyphen (x : str) : bool :=
  match x with
  | c :: _ => Ascii.eqb c "-"
  | [] => false
  end.
(** ** Facts about the [str] methods *)
Section StrFacts.

Lemma str_eqb_eq (x y : str) : str_eqb x y = true <-> x = y.
Proof.
  revert y; induction x as [|a x IH]; intros [|b y]; simpl; split; intro H;
    try reflexivity; try discriminate.
  - apply andb_true_iff in H as [Hab Hxy].
    apply Ascii.eqb_eq in Hab. apply IH in Hxy. congruence.
  - inversion H; subst. rewrite Ascii.eqb_refl. simpl. now apply IH.
Qed.

Lemma startswith_spec (x p : str) :
  startswith x p = true <-> exists t, x = p ++ t.
Proof.
  revert x; induction p as [|b p IH]; intros x; simpl.
  - split; [intros _; now exists x | reflexivity].
  - destruct x as [|a x]; split.
    + discriminate.
    + intros [t Ht]; discriminate.
    + intros H. apply andb_true_iff in H as [Hab Hx].
      apply Ascii.eqb_eq in Hab. apply IH in Hx as [t ->]. subst. now exists t.
    + intros [t Ht]. inversion Ht; subst. rewrite Ascii.eqb_refl. simpl.
      apply IH. now exists t.
Qed.

Lemma endswith_spec (x p : str) :
  endswith x p = true <-> exists t, x = t ++ p.
Proof.
  unfold endswith. rewrite startswith_spec. split; intros [t Ht].
  - exists (rev t). apply (f_equal (@rev ascii)) in Ht.
    now rewrite rev_involutive, rev_app_distr, rev_involutive in Ht.
  - exists (rev t). subst. apply rev_app_distr.
Qed.

Lemma contains_spec (x p : str) :
  contains x p = true <-> exists a b, x = a ++ p ++ b.
Proof.
  induction x as [|c x IH]; simpl.
  - rewrite orb_false_r, startswith_spec. split.
    + intros [t Ht]. now exists [], t.
    + intros [a [b Hab]]. destruct a; [now exists b | discriminate].
  - rewrite orb_true_iff, startswith_spec, IH. split.
    + intros [[t Ht] | [a [b Hab]]].
      * now exists [], t.
      * exists (c :: a), b. simpl. now rewrite Hab.
    + intros [a [b Hab]]. destruct a as [|c' a].
      * left. now exists b.
      * right. inversion Hab. now exists a, b.
Qed.

Lemma lower_app (x y : str) : lower (x ++ y) = lower x ++ lower y.
Proof. apply map_app. Qed.

Lemma lower_length (x : str) : length (lower x) = length x.
Proof. apply length_map. Qed.

Lemma replace_nil_filter (c : ascii) (x : str) :
  replace c [] x = filter (fun a => negb (Ascii.eqb a c)) x.
Proof.
  unfold replace. induction x as [|a x IH]; simpl; [reflexivity|].
  destruct (Ascii.eqb a c); simpl; now rewrite IH.
Qed.

End StrFacts.

(** ** Facts about the matcher of regular expressions *)
Section ReFacts.

Lemma digit_not_x (c : ascii) : is_digit c = true -> Ascii.eqb c "x" = false.
Proof.
  destruct c as [[] [] [] [] [] [] [] []]; vm_compute; congruence.
Qed.

Lemma digit_not_hyphen (c : ascii) : is_digit c = true -> Ascii.eqb c "-" = false.
Proof.
  destruct c as [[] [] [] [] [] [] [] []]; vm_compute; congruence.
Qed.

Lemma span_app (ok : ascii -> bool) (x : str) :
  fst (span ok x) ++ snd (span ok x) = x.
Proof.
  induction x as [|c x IH]; simpl; [reflexivity|].
  destruct (ok c); simpl; [now rewrite IH | reflexivity].
Qed.

Lemma span_Forall (ok : ascii -> bool) (x : str) :
  Forall (fun c => ok c = true) (fst (span ok x)).
Proof.
  induction x as [|c x IH]; simpl; [constructor|].
  destruct (ok c) eqn:Hc; simpl; [now constructor | constructor].
Qed.

Lemma span_rest (ok : ascii -> bool) (x : str) (c : ascii) (y : str) :
  snd (span ok x) = c :: y -> ok c = false.
Proof.
  induction x as [|a x IH]; simpl; [discriminate|].
  destruct (ok a) eqn:Ha; simpl; [exact IH|].
  intros H; inversion H; subst; exact Ha.
Qed.

Lemma span_nil (ok : ascii -> bool) (x : str) :
  fst (span ok x) = [] -> snd (span ok x) = x.
Proof.
  intros H. pose proof (span_app ok x) as E. now rewrite H in E.
Qed.

Lemma span_cons (ok : ascii -> bool) (x : str) (c : ascii) (w : str) :
  fst (span ok x) = c :: w -> exists y, x = c :: y /\ ok c = true.
Proof.
  destruct x as [|a x]; simpl; [discriminate|].
  destruct (ok a) eqn:Ha; simpl; [|discriminate].
  intros H; inversion H; subst. now exists x.
Qed.

Lemma span_prefix (ok : ascii -> bool) (w rest : str) :
  Forall (fun c => ok c = true) w ->
  span ok (w ++ rest) = (w ++ fst (span ok rest), snd (span ok rest)).
Proof.
  induction 1 as [|c w Hc Hw IH]; simpl.
  - now destruct (span ok rest).
  - rewrite Hc, IH. reflexivity.
Qed.

Lemma span_stop (ok : ascii -> bool) (rest : str) :
  (forall c y, rest = c :: y -> ok c = false) -> span ok rest = ([], rest).
Proof.
  destruct rest as [|c y]; simpl; [reflexivity|].
  intros H. now rewrite (H c y eq_refl).
Qed.

(** [a+] followed by something that cannot start with an [a]: all the
    [a]s are taken. *)
Lemma plus_match_reject {R : Type} (ok : ascii -> bool) (k : str -> option R) :
  (forall c y, ok c = true -> k (c :: y) = None) ->
  forall x,
    Re.plus_match ok x k =
    match fst (span ok x) with
    | [] => None
    | _ :: _ => k (snd (span ok x))
    end.
Proof.
  intros Hk x. induction x as [|c x IH]; simpl; [reflexivity|].
  destruct (ok c) eqn:Hc; simpl; [|reflexivity].
  rewrite IH. destruct (fst (span ok x)) as [|a w] eqn:Hw.
  - now rewrite (span_nil ok x Hw).
  - destruct (k (snd (span ok x))) eqn:Hs; [reflexivity|].
    apply span_cons in Hw as [y [-> Ha]]. now apply Hk.
Qed.

(** [a+] followed by something that always matches: all the [a]s are
    taken. *)
Lemma plus_match_accept {R : Type} (ok : ascii -> bool) (k : str -> option R) :
  (forall y, k y <> None) ->
  forall x,
    Re.plus_match ok x k =
    match fst (span ok x) with
    | [] => None
    | _ :: _ => k (snd (span ok x))
    end.
Proof.
  intros Hk x. induction x as [|c x IH]; simpl; [reflexivity|].
  destruct (ok c) eqn:Hc; simpl; [|reflexivity].
  rewrite IH. destruct (fst (span ok x)) as [|a w] eqn:Hw.
  - now rewrite (span_nil ok x Hw).
  - destruct (k (snd (span ok x))) eqn:Hs; [reflexivity|].
    now apply Hk in Hs.
Qed.

Lemma firstn_app_minus {A : Type} (a b : list A) :
  firstn (length (a ++ b) - length b) (a ++ b) = a.
Proof.
  rewrite length_app.
  replace (length a + length b - length b) with (length a) by lia.
  rewrite firstn_app, Nat.sub_diag, firstn_all. simpl. apply app_nil_r.
Qed.

Lemma span_taken (ok : ascii -> bool) (x : str) :
  firstn (length x - length (snd (span ok x))) x = fst (span ok x).
Proof.
  pose proof (firstn_app_minus (fst (span ok x)) (snd (span ok x))) as E.
  now rewrite span_app in E.
Qed.

End ReFacts.

(** ** The dimension pattern *)
Section DimFacts.

Lemma dim_span_length (c : ascii) (y : str) (c' : ascii) (z : str) :
  snd (span is_digit y) = c' :: z ->
  length (c :: y) - length (snd (span is_digit z)) =
  2 + length (fst (span is_digit y)) + length (fst (span is_digit z)).
Proof.
  intros Hy.
  pose proof (span_app is_digit y) as Ey. pose proof (span_app is_digit z) as Ez.
  rewrite Hy in Ey. rewrite <- Ey at 1. rewrite <- Ez at 1.
  cbn [length]. rewrite !length_app. cbn [length]. rewrite !length_app. lia.
Qed.

Lemma match_at_DIM_GROUPS (x : str) :
  Re.match_at false DIM_GROUPS x =
  match Spec.dim_at x with
  | Some (w, h) => Some (2 + length w + length h, [w; h])
  | None => None
  end.
Proof.
  unfold Re.match_at, DIM_GROUPS, Spec.dim_at, Spec.span_digits.
  destruct x as [|c y]; [reflexivity|].
  cbn [Re.rmatch Re.atom_ok].
  destruct (Ascii.eqb c "-"); [|reflexivity].
  rewrite plus_match_reject.
  2:{ intros d z Hd. now rewrite (digit_not_x _ Hd). }
  change (Re.atom_ok false Re.Digit) with is_digit.
  destruct (snd (span is_digit y)) as [|c' z] eqn:Hy.
  { now destruct (fst (span is_digit y)). }
  destruct (Ascii.eqb c' "x").
  2:{ now destruct (fst (span is_digit y)). }
  destruct (fst (span is_digit y)) as [|a w] eqn:Hw; [reflexivity|].
  rewrite plus_match_accept by (intros ?; discriminate).
  destruct (fst (span is_digit z)) as [|a' h] eqn:Hh; [reflexivity|].
  rewrite <- Hy at 1. rewrite !span_taken, Hw, Hh.
  rewrite (dim_span_length c y Hy), Hw, Hh. reflexivity.
Qed.

Lemma match_at_DIM (x : str) :
  Re.match_at false DIM x =
  match Spec.dim_at x with
  | Some (w, h) => Some (2 + length w + length h, [])
  | None => None
  end.
Proof.
  unfold Re.match_at, DIM, Spec.dim_at, Spec.span_digits.
  destruct x as [|c y]; [reflexivity|].
  cbn [Re.rmatch Re.atom_ok].
  destruct (Ascii.eqb c "-"); [|reflexivity].
  rewrite plus_match_reject.
  2:{ intros d z Hd. now rewrite (digit_not_x _ Hd). }
  change (Re.atom_ok false Re.Digit) with is_digit.
  destruct (snd (span is_digit y)) as [|c' z] eqn:Hy.
  { now destruct (fst (span is_digit y)). }
  destruct (Ascii.eqb c' "x").
  2:{ now destruct (fst (span is_digit y)). }
  destruct (fst (span is_digit y)) as [|a w] eqn:Hw; [reflexivity|].
  rewrite plus_match_accept by (intros ?; discriminate).
  destruct (fst (span is_digit z)) as [|a' h] eqn:Hh; [reflexivity|].
  rewrite (dim_span_length c y Hy), Hw, Hh. reflexivity.
Qed.

(** What [dim_at] finds is an occurrence at the start of the string, with
    all the digits of the height. *)
Lemma dim_at_Some (x w h : str) :
  Spec.dim_at x = Some (w, h) ->
  exists rest,
    x = "-"%char :: w ++ "x"%char :: h ++ rest /\
    Spec.digits w /\ Spec.digits h /\
    (forall c y, rest = c :: y -> is_digit c = false).
Proof.
  unfold Spec.dim_at, Spec.span_digits. destruct x as [|c y]; [discriminate|].
  destruct (Ascii.eqb c "-") eqn:Hc; [|discriminate].
  apply Ascii.eqb_eq in Hc. subst c.
  destruct (snd (span is_digit y)) as [|c' z] eqn:Hy; [discriminate|].
  destruct (Ascii.eqb c' "x") eqn:Hc'; [|discriminate].
  apply Ascii.eqb_eq in Hc'. subst c'.
  destruct (fst (span is_digit y)) as [|a w'] eqn:Hw; [discriminate|].
  destruct (fst (span is_digit z)) as [|a' h'] eqn:Hh; [discriminate|].
  intros E; inversion E; subst w h. clear E.
  exists (snd (span is_digit z)). repeat split.
  - rewrite <- Hh, span_app, <- Hw, <- Hy. now rewrite span_app.
  - discriminate.
  - rewrite <- Hw. apply span_Forall.
  - discriminate.
  - rewrite <- Hh. apply span_Forall.
  - intros d r Hr. exact (span_rest _ _ Hr).
Qed.

(** An occurrence at the start of the string is found, with the digits
    that follow its height. *)
Lemma dim_at_occurrence (w h rest : str) :
  Spec.digits w -> Spec.digits h ->
  Spec.dim_at ("-"%char :: w ++ "x"%char :: h ++ rest) =
  Some (w, h ++ fst (span is_digit rest)).
Proof.
  intros [Hw Dw] [Hh Dh]. unfold Spec.dim_at, Spec.span_digits.
  rewrite Ascii.eqb_refl.
  rewrite (span_prefix _ ("x"%char :: h ++ rest) Dw). simpl.
  rewrite app_nil_r.
  rewrite (span_prefix _ rest Dh). simpl.
  destruct w; [congruence|]. destruct h; [congruence|]. reflexivity.
Qed.

Lemma dim_at_maximal (w h rest : str) :
  Spec.digits w -> Spec.digits h ->
  (forall c y, rest = c :: y -> is_digit c = false) ->
  Spec.dim_at ("-"%char :: w ++ "x"%char :: h ++ rest) = Some (w, h).
Proof.
  intros Hw Hh Hr. rewrite (dim_at_occurrence rest Hw Hh).
  rewrite (span_stop _ Hr). simpl. now rewrite app_nil_r.
Qed.

End DimFacts.

(** ** The scan for dimension patterns *)
Section ScanFacts.

Lemma scan_skip (ic : bool) (r : Re.regex) (n : nat) (x : str) :
  Re.scan ic r n x = Re.scan ic r 0 (skipn n x).
Proof.
  revert n; induction x as [|c x IH]; intros [|n]; simpl; try reflexivity.
  apply IH.
Qed.

Lemma sub_from_skip (ic : bool) (r : Re.regex) (repl : str) (n : nat) (x : str) :
  Re.sub_from ic r repl n x = Re.sub_from ic r repl 0 (skipn n x).
Proof.
  revert n; induction x as [|c x IH]; intros [|n]; simpl; try reflexivity.
  apply IH.
Qed.

Lemma digits_no_hyphen (w : str) :
  Forall (fun c => is_digit c = true) w -> Forall (fun c => c <> "-"%char) w.
Proof.
  intros H. eapply Forall_impl; [|exact H]. intros c Hc ->. discriminate.
Qed.

(** The text of a pattern after its hyphen holds no hyphen. *)
Lemma dim_body_no_hyphen (w h : str) :
  Spec.digits w -> Spec.digits h ->
  Forall (fun c => c <> "-"%char) (w ++ "x"%char :: h).
Proof.
  intros [_ Hw] [_ Hh]. apply Forall_app. split.
  - now apply digits_no_hyphen.
  - constructor; [discriminate | now apply digits_no_hyphen].
Qed.

Lemma before_first (c : ascii) (a r p t : str) :
  a ++ r = p ++ c :: t -> Forall (fun d => d <> c) a -> length a <= length p.
Proof.
  revert p; induction a as [|d a IH]; intros p E Ha; simpl; [lia|].
  inversion Ha as [|? ? Hd Ha']; subst.
  destruct p as [|e p]; simpl in *.
  - inversion E; subst. congruence.
  - inversion E; subst. apply IH in H1; [lia | assumption].
Qed.

Lemma occurrence_tail (c : ascii) (x pre w h post : str) :
  Spec.dim_occurrence x pre w h post ->
  Spec.dim_occurrence (c :: x) (c :: pre) w h post.
Proof. intros (E & Hw & Hh). split; [now rewrite E | split; assumption]. Qed.

Lemma no_dim_tail (c : ascii) (x : str) :
  ~ Spec.has_dim (c :: x) -> ~ Spec.has_dim x.
Proof.
  intros H (pre & w & h & post & Ho). apply H.
  exists (c :: pre), w, h, post. now apply occurrence_tail.
Qed.

Lemma no_dim_scan (x : str) :
  ~ Spec.has_dim x -> forall skip, Re.scan false DIM_GROUPS skip x = [].
Proof.
  induction x as [|c x IH]; intros Hx skip; simpl; [reflexivity|].
  destruct skip as [|n]; [|apply IH; now apply no_dim_tail in Hx].
  rewrite match_at_DIM_GROUPS.
  destruct (Spec.dim_at (c :: x)) as [[w h]|] eqn:Hd.
  - exfalso. apply Hx. apply dim_at_Some in Hd as (rest & E & Hw & Hh & _).
    exists [], w, h, rest. split; [exact E | split; assumption].
  - apply IH. now apply no_dim_tail in Hx.
Qed.

(** A match that starts before an occurrence ends before it. *)
Lemma match_before_occurrence (c : ascii) (x pre w h post w' h' : str) :
  Spec.dim_occurrence (c :: x) (c :: pre) w h post ->
  Spec.dim_at (c :: x) = Some (w', h') ->
  1 + length w' + length h' <= length pre.
Proof.
  intros (E & _ & _) Hd.
  apply dim_at_Some in Hd as (rest & E' & Hw' & Hh' & _).
  inversion E'; subst c. simpl in E. inversion E as [E1].
  rewrite E1 in H1.
  assert (Hlen : length (w' ++ "x"%char :: h') <= length pre).
  { eapply (@before_first "-"%char _ rest pre).
    - rewrite <- app_assoc. simpl. symmetry. exact H1.
    - now apply dim_body_no_hyphen. }
  rewrite length_app in Hlen. simpl in Hlen. lia.
Qed.

Lemma has_dim_scan (x pre w h post : str) :
  Spec.dim_occurrence x pre w h post ->
  forall skip, skip <= length pre -> Re.scan false DIM_GROUPS skip x <> [].
Proof.
  revert pre; induction x as [|c x IH]; intros pre Ho skip Hs.
  - destruct Ho as (E & _). destruct pre; discriminate.
  - simpl. destruct skip as [|n].
    + rewrite match_at_DIM_GROUPS. destruct pre as [|c' pre].
      * destruct Ho as (E & Hw & Hh). simpl in E. rewrite E.
        rewrite (dim_at_occurrence post Hw Hh). discriminate.
      * assert (c' = c) by (destruct Ho as (E & _); now inversion E). subst c'.
        destruct (Spec.dim_at (c :: x)) as [[w' h']|] eqn:Hd; [discriminate|].
        apply (IH pre); [|lia].
        destruct Ho as (E & Hw & Hh). inversion E. split; [reflexivity | split; assumption].
    + destruct pre as [|c' pre]; [simpl in Hs; lia|].
      apply (IH pre); [|simpl in Hs; lia].
      destruct Ho as (E & Hw & Hh). inversion E. split; [reflexivity | split; assumption].
Qed.

Lemma findall_nil_no_dim (x : str) :
  Re.findall DIM_GROUPS x = [] <-> ~ Spec.has_dim x.
Proof.
  split.
  - intros E (pre & w & h & post & Ho).
    apply (has_dim_scan Ho (skip:=0)); [lia | exact E].
  - intros H. now apply no_dim_scan.
Qed.

Lemma last_dim_tail (c : ascii) (x pre w h post : str) :
  Spec.last_dim (c :: x) (c :: pre) w h post -> Spec.last_dim x pre w h post.
Proof.
  intros ((E & Hw & Hh) & Hmax & Hlast). split; [|split].
  - inversion E. split; [reflexivity | split; assumption].
  - exact Hmax.
  - intros pre' w' h' post' Ho.
    apply (occurrence_tail c) in Ho. apply Hlast in Ho. simpl in Ho. lia.
Qed.

Lemma last_dim_post (w h post : str) :
  Spec.last_dim ("-"%char :: w ++ "x"%char :: h ++ post) [] w h post ->
  ~ Spec.has_dim post.
Proof.
  intros (_ & _ & Hlast) (pre' & w' & h' & post' & (E & Hw' & Hh')).
  assert (Ho : Spec.dim_occurrence ("-"%char :: w ++ "x"%char :: h ++ post)
                 (("-"%char :: w ++ "x"%char :: h) ++ pre') w' h' post').
  { split; [|split; assumption]. rewrite E. simpl. rewrite <- !app_assoc. simpl.
    reflexivity. }
  apply Hlast in Ho. simpl in Ho. lia.
Qed.

Lemma skipn_app_exact {A : Type} (a b : list A) (n : nat) :
  n = length a -> skipn n (a ++ b) = b.
Proof.
  intros ->. rewrite skipn_app, Nat.sub_diag, skipn_all. reflexivity.
Qed.

Lemma skipn_body {A : Type} (w h post : list A) (c : A) :
  skipn (S (length w + length h)) (w ++ c :: h ++ post) = post.
Proof.
  replace (w ++ c :: h ++ post) with ((w ++ c :: h) ++ post)
    by (rewrite <- app_assoc; reflexivity).
  apply skipn_app_exact. rewrite length_app. simpl. lia.
Qed.

(** The last match of the scan is the right-most occurrence. *)
Lemma last_dim_scan (x pre w h post : str) :
  Spec.last_dim x pre w h post ->
  forall skip, skip <= length pre ->
  exists l, Re.scan false DIM_GROUPS skip x = l ++ [[w; h]].
Proof.
  revert pre; induction x as [|c x IH]; intros pre Hl skip Hs.
  - destruct Hl as ((E & _) & _). destruct pre; discriminate.
  - simpl. destruct skip as [|n].
    + rewrite match_at_DIM_GROUPS. destruct pre as [|c' pre].
      * pose proof Hl as ((E & Hw & Hh) & Hmax & _). simpl in E.
        rewrite E in Hl |- *. rewrite (dim_at_maximal Hw Hh Hmax).
        inversion E; subst. simpl.
        rewrite scan_skip, skipn_body.
        rewrite (no_dim_scan (last_dim_post Hl)). now exists [].
      * assert (c' = c) by (destruct Hl as ((E & _) & _); now inversion E). subst c'.
        pose proof (last_dim_tail Hl) as Hl'.
        destruct (Spec.dim_at (c :: x)) as [[w' h']|] eqn:Hd.
        -- destruct Hl as (Ho & _).
           pose proof (match_before_occurrence Ho Hd) as Hlen.
           destruct (IH pre Hl' (1 + length w' + length h')) as [l El]; [exact Hlen|].
           simpl. simpl in El. rewrite El. now exists ([w'; h'] :: l).
        -- apply (IH pre Hl'). lia.
    + destruct pre as [|c' pre]; [simpl in Hs; lia|].
      assert (c' = c) by (destruct Hl as ((E & _) & _); now inversion E). subst c'.
      apply (IH pre (last_dim_tail Hl)). simpl in Hs. lia.
Qed.

End ScanFacts.

(** ** The steps of the extractor *)
Section Normalise.

Lemma sub_DIM_drop (skip : nat) (x : str) :
  Re.sub_from false DIM [] skip x = Spec.drop_dims skip x.
Proof.
  revert skip; induction x as [|c x IH]; intros skip; simpl; [reflexivity|].
  destruct skip as [|n]; [|apply IH].
  rewrite match_at_DIM. unfold Spec.dim_len.
  destruct (Spec.dim_at (c :: x)) as [[w h]|]; simpl; now rewrite IH.
Qed.

Lemma sub_DIM (x : str) : Re.sub false DIM [] x = Spec.remove_dims x.
Proof. apply sub_DIM_drop. Qed.

Lemma replace_underscores (x : str) :
  replace "_" (lit "-") x = Spec.underscores_to_hyphens x.
Proof.
  unfold replace, Spec.underscores_to_hyphens.
  induction x as [|c x IH]; [reflexivity|].
  cbn [flat_map map]. rewrite IH. now destruct (Ascii.eqb c "_").
Qed.

Lemma match_at_HYPHENS (x : str) :
  Re.match_at false HYPHENS x =
  match fst (span is_hyphen x) with
  | [] => None
  | _ :: _ => Some (length (fst (span is_hyphen x)), [])
  end.
Proof.
  unfold Re.match_at, HYPHENS. cbn [Re.rmatch].
  rewrite plus_match_accept by (intros ?; discriminate).
  change (Re.atom_ok false (Re.Chr "-")) with is_hyphen.
  destruct (fst (span is_hyphen x)) eqn:E; [reflexivity|].
  rewrite <- E. f_equal. f_equal.
  pose proof (span_app is_hyphen x) as Ex. rewrite <- Ex at 1.
  rewrite length_app. lia.
Qed.

Lemma collapse_run (x : str) :
  Spec.collapse_hyphens ("-"%char :: x) =
  "-"%char :: Spec.collapse_hyphens (snd (span is_hyphen x)).
Proof.
  induction x as [|d x IH]; [reflexivity|].
  change (Spec.collapse_hyphens ("-"%char :: d :: x)) with
    (if Ascii.eqb d "-" then Spec.collapse_hyphens (d :: x)
     else "-"%char :: Spec.collapse_hyphens (d :: x)).
  simpl span. unfold is_hyphen at 1 2.
  destruct (Ascii.eqb d "-") eqn:Hd; simpl snd.
  - apply Ascii.eqb_eq in Hd. subst d. exact IH.
  - reflexivity.
Qed.

Lemma span_snd_length (ok : ascii -> bool) (x : str) :
  length (snd (span ok x)) <= length x.
Proof.
  pose proof (span_app ok x) as E. rewrite <- E at 2. rewrite length_app. lia.
Qed.

Lemma skipn_span (ok : ascii -> bool) (x : str) :
  skipn (length (fst (span ok x))) x = snd (span ok x).
Proof.
  pose proof (span_app ok x) as E. rewrite <- E at 2.
  now apply skipn_app_exact.
Qed.

Lemma sub_HYPHENS_bounded (n : nat) (x : str) :
  length x <= n ->
  Re.sub_from false HYPHENS (lit "-") 0 x = Spec.collapse_hyphens x.
Proof.
  revert x; induction n as [|n IH]; intros x Hn.
  - destruct x; [reflexivity | simpl in Hn; lia].
  - destruct x as [|c x]; [reflexivity|].
    cbn [Re.sub_from]. rewrite match_at_HYPHENS. cbn [span].
    destruct (is_hyphen c) eqn:Hc; cbn [fst snd length]; unfold is_hyphen in Hc.
    + apply Ascii.eqb_eq in Hc. subst c.
      cbn [lit list_ascii_of_string app].
      rewrite sub_from_skip, skipn_span, collapse_run.
      rewrite IH; [reflexivity|].
      pose proof (span_snd_length is_hyphen x). simpl in Hn. lia.
    + rewrite IH by (simpl in Hn; lia).
      simpl. now rewrite Hc.
Qed.

Lemma sub_HYPHENS (x : str) :
  Re.sub false HYPHENS (lit "-") x = Spec.collapse_hyphens x.
Proof. apply (sub_HYPHENS_bounded (n := length x)). lia. Qed.

End Normalise.

(** ** The shape of an identity *)
Section Shape.

Lemma collapse_cons (c : ascii) (x : str) :
  Spec.collapse_hyphens (c :: x) =
  if Ascii.eqb c "-" then
    match x with
    | c' :: _ => if Ascii.eqb c' "-" then Spec.collapse_hyphens x
                 else c :: Spec.collapse_hyphens x
    | [] => [c]
    end
  else c :: Spec.collapse_hyphens x.
Proof. reflexivity. Qed.

Lemma underscores_gone (x : str) : ~ In "_"%char (Spec.underscores_to_hyphens x).
Proof.
  unfold Spec.underscores_to_hyphens. intros H. apply in_map_iff in H as [c [Hc _]].
  destruct (Ascii.eqb c "_") eqn:E; [discriminate|].
  apply Ascii.eqb_neq in E. congruence.
Qed.

Lemma collapse_incl (c : ascii) (x : str) :
  In c (Spec.collapse_hyphens x) -> In c x.
Proof.
  induction x as [|d x IH]; [exact (fun H => H)|].
  rewrite collapse_cons.
  destruct (Ascii.eqb d "-"); [destruct x as [|d' x']; [|destruct (Ascii.eqb d' "-")]|];
    simpl In in *; tauto.
Qed.

Lemma collapse_no_double (x a b : str) :
  Spec.collapse_hyphens x <> a ++ "-"%char :: "-"%char :: b.
Proof.
  revert a; induction x as [|c x IH]; intros a.
  - simpl. destruct a; discriminate.
  - rewrite collapse_cons. destruct (Ascii.eqb c "-") eqn:Hc.
    + destruct x as [|d x'].
      * destruct a as [|e [|e' a]]; discriminate.
      * destruct (Ascii.eqb d "-") eqn:Hd; [apply IH|].
        intros E. destruct a as [|e a]; cbn [app] in E.
        -- injection E as Hc' E'. rewrite Hd in E'.
           injection E' as Hd' _. subst d. now rewrite Ascii.eqb_refl in Hd.
        -- injection E as Hc' E'. now apply IH in E'.
    + intros E. destruct a as [|e a]; cbn [app] in E.
      * injection E as Hc' _. subst c. now rewrite Ascii.eqb_refl in Hc.
      * injection E as Hc' E'. now apply IH in E'.
Qed.

Lemma lstrip_split (c : ascii) (y : str) :
  exists n, y = repeat c n ++ lstrip c y.
Proof.
  induction y as [|a y [n IH]]; simpl.
  - now exists 0.
  - destruct (Ascii.eqb a c) eqn:Ha.
    + apply Ascii.eqb_eq in Ha. subst a. exists (S n). simpl. now rewrite <- IH.
    + now exists 0.
Qed.

Lemma lstrip_head (c : ascii) (y : str) (d : ascii) (z : str) :
  lstrip c y = d :: z -> d <> c.
Proof.
  induction y as [|a y IH]; simpl; [discriminate|].
  destruct (Ascii.eqb a c) eqn:Ha; [exact IH|].
  intros E; inversion E; subst. now apply Ascii.eqb_neq.
Qed.

Lemma rev_repeat {A : Type} (c : A) (n : nat) : rev (repeat c n) = repeat c n.
Proof.
  induction n as [|n IH]; [reflexivity|].
  simpl. rewrite IH. clear IH. induction n as [|n IH]; [reflexivity|].
  simpl. now rewrite IH.
Qed.

(** [rstrip] removes a run of [c] at the end, and all of it. *)
Lemma rstrip_split (c : ascii) (x : str) :
  exists n, x = rstrip c x ++ repeat c n.
Proof.
  unfold rstrip. destruct (lstrip_split c (rev x)) as [n E]. exists n.
  apply (f_equal (@rev ascii)) in E.
  now rewrite rev_involutive, rev_app_distr, rev_repeat in E.
Qed.

Lemma rstrip_end (c : ascii) (x a : str) : rstrip c x <> a ++ [c].
Proof.
  unfold rstrip. intros E. apply (f_equal (@rev ascii)) in E.
  rewrite rev_involutive, rev_app_distr in E. simpl in E.
  now apply lstrip_head in E.
Qed.

Lemma rstrip_incl (c d : ascii) (x : str) : In d (rstrip c x) -> In d x.
Proof.
  destruct (rstrip_split c x) as [n E]. intros H. rewrite E.
  apply in_or_app. now left.
Qed.

Lemma rstrip_no_double (c : ascii) (x : str) :
  (forall a b, x <> a ++ "-"%char :: "-"%char :: b) ->
  forall a b, rstrip c x <> a ++ "-"%char :: "-"%char :: b.
Proof.
  intros H a b E. destruct (rstrip_split c x) as [n Ex].
  apply (H a (b ++ repeat c n)). rewrite Ex at 1. rewrite E.
  rewrite <- app_assoc. reflexivity.
Qed.

Lemma base_of_name_steps (name : str) :
  base_of_name name =
  rstrip "-" (Spec.collapse_hyphens (Spec.underscores_to_hyphens
    (Re.sub true SUFFIX [] (Spec.remove_dims name)))).
Proof.
  unfold base_of_name. now rewrite sub_DIM, replace_underscores, sub_HYPHENS.
Qed.

Lemma base_of_name_canonical (name : str) : Spec.canonical (base_of_name name).
Proof.
  rewrite base_of_name_steps. split; [|split].
  - intros H. apply rstrip_incl, collapse_incl in H.
    now apply underscores_gone in H.
  - intros a b. apply rstrip_no_double. intros a' b'. apply collapse_no_double.
  - intros a. apply rstrip_end.
Qed.

End Shape.

(** C10: whatever the input, the output of [get_base_name] holds no
    underscore, no two hyphens in a row, and does not end with a hyphen. *)
Theorem get_base_name_canonical (f : str) : Spec.canonical (get_base_name f).
Proof. apply base_of_name_canonical. Qed.

(** ** The suffix pattern *)
Section Suffix.

Lemma rmatch_word {R : Type} (w x : str) (gs : list str)
  (k : str -> list str -> option R) :
  Re.rmatch true (Re.word w) x gs k =
  if startswith (lower x) (lower w) then k (skipn (length w) x) gs else None.
Proof.
  revert x; induction w as [|b w IH]; intros x; [reflexivity|].
  destruct x as [|c x]; [reflexivity|].
  cbn [Re.word Re.rmatch Re.atom_ok lower map startswith length skipn].
  destruct (Ascii.eqb (lower_char c) (lower_char b)); [apply IH | reflexivity].
Qed.

Lemma at_end_spec (e : str) : Re.at_end e = true <-> e = [] \/ e = nl.
Proof.
  unfold nl. destruct e as [|c [|d e]]; simpl; split; intros H; auto;
    try discriminate.
  - apply Ascii.eqb_eq in H. subst. now right.
  - destruct H as [H|H]; [discriminate|]. inversion H. reflexivity.
  - destruct H as [H|H]; discriminate.
Qed.

Lemma match_at_SUFFIX (c : ascii) (y : str) :
  Re.match_at true SUFFIX (c :: y) =
  if Ascii.eqb (lower_char c) "-" then
    if startswith (lower y) (lit "scaled") && Re.at_end (skipn 6 y)
    then Some (length (c :: y) - length (skipn 6 y),
               [firstn (length y - length (skipn 6 y)) y])
    else if startswith (lower y) (lit "rotated") && Re.at_end (skipn 7 y)
    then Some (length (c :: y) - length (skipn 7 y),
               [firstn (length y - length (skipn 7 y)) y])
    else None
  else None.
Proof.
  unfold Re.match_at, SUFFIX.
  cbn [Re.rmatch Re.atom_ok].
  change (lower_char "-") with "-"%char.
  destruct (Ascii.eqb (lower_char c) "-"); [|reflexivity].
  rewrite !rmatch_word.
  change (lower (lit "scaled")) with (lit "scaled").
  change (lower (lit "rotated")) with (lit "rotated").
  change (length (lit "scaled")) with 6. change (length (lit "rotated")) with 7.
  destruct (startswith (lower y) (lit "scaled")); cbn [andb].
  - destruct (Re.at_end (skipn 6 y)); [reflexivity|].
    destruct (startswith (lower y) (lit "rotated")); cbn [andb]; [|reflexivity].
    destruct (Re.at_end (skipn 7 y)); reflexivity.
  - destruct (startswith (lower y) (lit "rotated")); cbn [andb]; [|reflexivity].
    destruct (Re.at_end (skipn 7 y)); reflexivity.
Qed.

Lemma lower_prefix (y w : str) :
  startswith (lower y) w = true ->
  exists y1 y2, y = y1 ++ y2 /\ lower y1 = w /\ skipn (length w) y = y2.
Proof.
  intros H. apply startswith_spec in H as [t Ht].
  apply map_eq_app in Ht as (y1 & y2 & Ey & E1 & E2).
  exists y1, y2. split; [exact Ey|]. split; [exact E1|].
  subst y. apply skipn_app_exact. rewrite <- E1. apply length_map.
Qed.

(** A match of the suffix pattern is a marker and then the end. *)
Lemma suffix_match_Some (x : str) (n : nat) (gs : list str) :
  Re.match_at true SUFFIX x = Some (n, gs) ->
  exists m e,
    x = m ++ e /\ length m = n /\
    (lower m = lit "-scaled" \/ lower m = lit "-rotated") /\
    (e = [] \/ e = nl).
Proof.
  destruct x as [|c y]; [discriminate|].
  rewrite match_at_SUFFIX.
  destruct (Ascii.eqb (lower_char c) "-") eqn:Hc; [|discriminate].
  apply Ascii.eqb_eq in Hc.
  destruct (startswith (lower y) (lit "scaled") && Re.at_end (skipn 6 y)) eqn:H1.
  - apply andb_true_iff in H1 as [Hs He].
    apply lower_prefix in Hs as (y1 & y2 & Ey & E1 & E2).
    change (length (lit "scaled")) with 6 in E2. rewrite E2 in *.
    intros E; injection E as En Eg; subst n gs. exists (c :: y1), y2.
    split; [now rewrite Ey|]. split; [|split].
    + rewrite Ey. cbn [length]. rewrite length_app. destruct (length y2); lia.
    + left. cbn [lower map]. fold (lower y1). now rewrite Hc, E1.
    + now apply at_end_spec.
  - destruct (startswith (lower y) (lit "rotated") && Re.at_end (skipn 7 y)) eqn:H2;
      [|discriminate].
    apply andb_true_iff in H2 as [Hs He].
    apply lower_prefix in Hs as (y1 & y2 & Ey & E1 & E2).
    change (length (lit "rotated")) with 7 in E2. rewrite E2 in *.
    intros E; injection E as En Eg; subst n gs. exists (c :: y1), y2.
    split; [now rewrite Ey|]. split; [|split].
    + rewrite Ey. cbn [length]. rewrite length_app. destruct (length y2); lia.
    + right. cbn [lower map]. fold (lower y1). now rewrite Hc, E1.
    + now apply at_end_spec.
Qed.

Lemma lower_marker_cons (m w : str) (b : ascii) :
  lower m = b :: w -> exists c y, m = c :: y /\ lower_char c = b /\ lower y = w.
Proof.
  destruct m as [|c y]; [discriminate|]. intros E. inversion E. now exists c, y.
Qed.

(** A marker and then the end is a match of the suffix pattern. *)
Lemma suffix_match_complete (m e : str) :
  (lower m = lit "-scaled" \/ lower m = lit "-rotated") ->
  (e = [] \/ e = nl) ->
  exists gs, Re.match_at true SUFFIX (m ++ e) = Some (length m, gs).
Proof.
  intros Hm He. apply at_end_spec in He.
  destruct Hm as [Hm|Hm]; apply lower_marker_cons in Hm as (c & y & -> & Hc & Hy).
  - cbn [app]. rewrite match_at_SUFFIX, Hc. cbn [Ascii.eqb Bool.eqb].
    assert (Hlen : length y = 6) by (rewrite <- lower_length, Hy; reflexivity).
    rewrite lower_app, Hy. cbn [lit list_ascii_of_string app startswith].
    rewrite !Ascii.eqb_refl. cbn [andb].
    rewrite skipn_app_exact by (symmetry; exact Hlen). rewrite He.
    eexists. f_equal. f_equal. cbn [length]. rewrite length_app. lia.
  - cbn [app]. rewrite match_at_SUFFIX, Hc. cbn [Ascii.eqb Bool.eqb].
    assert (Hlen : length y = 7) by (rewrite <- lower_length, Hy; reflexivity).
    rewrite lower_app, Hy. cbn [lit list_ascii_of_string app startswith].
    rewrite !Ascii.eqb_refl. cbn [andb].
    change (Ascii.eqb "r" "s") with false. cbn [andb].
    rewrite skipn_app_exact by (symmetry; exact Hlen). rewrite He.
    eexists. f_equal. f_equal. cbn [length]. rewrite length_app. lia.
Qed.

End Suffix.

(** ** Removing the suffix *)
Section SuffixSub.

Lemma lower_char_hyphen (c : ascii) : lower_char c = "-"%char -> c = "-"%char.
Proof.
  destruct c as [[] [] [] [] [] [] [] []]; vm_compute; intros H;
    try reflexivity; discriminate.
Qed.

Lemma marker_head (m : str) :
  lower m = lit "-scaled" \/ lower m = lit "-rotated" ->
  exists y, m = "-"%char :: y /\ (lower y = lit "scaled" \/ lower y = lit "rotated").
Proof.
  intros [H|H]; apply lower_marker_cons in H as (c & y & -> & Hc & Hy);
    apply lower_char_hyphen in Hc; subst c; exists y; auto.
Qed.

Lemma marker_body_no_hyphen (y : str) :
  lower y = lit "scaled" \/ lower y = lit "rotated" -> ~ In "-"%char y.
Proof.
  intros H Hin. apply (in_map lower_char) in Hin. fold (lower y) in Hin.
  change (lower_char "-") with "-"%char in Hin.
  destruct H as [H|H]; rewrite H in Hin; simpl in Hin;
    repeat (destruct Hin as [Hin|Hin]; [discriminate|]); exact Hin.
Qed.

Lemma end_no_hyphen (e : str) : e = [] \/ e = nl -> ~ In "-"%char e.
Proof.
  intros [->| ->] H; simpl in H; [exact H|]. destruct H as [H|H]; [discriminate|exact H].
Qed.

(** A match of the suffix pattern holds one hyphen, its first character. *)
Lemma suffix_match_no_hyphen (c : ascii) (y : str) (n : nat) (gs : list str) :
  Re.match_at true SUFFIX (c :: y) = Some (n, gs) -> ~ In "-"%char y.
Proof.
  intros H. apply suffix_match_Some in H as (m & e & E & _ & Hm & He).
  apply marker_head in Hm as (y' & -> & Hy'). simpl in E. inversion E; subst.
  intros Hin. apply in_app_or in Hin as [Hin|Hin].
  - eapply marker_body_no_hyphen; eassumption.
  - eapply end_no_hyphen; eassumption.
Qed.

Lemma sub_SUFFIX_end (e : str) :
  e = [] \/ e = nl -> Re.sub_from true SUFFIX [] 0 e = e.
Proof. intros [->| ->]; reflexivity. Qed.

(** The marker at the end is removed, and only it. *)
Lemma sub_SUFFIX_marker (pre m e : str) :
  (lower m = lit "-scaled" \/ lower m = lit "-rotated") ->
  (e = [] \/ e = nl) ->
  Re.sub true SUFFIX [] (pre ++ m ++ e) = pre ++ e.
Proof.
  intros Hm He. unfold Re.sub. induction pre as [|c pre IH].
  - destruct (@suffix_match_complete m e Hm He) as [gs Hgs].
    apply marker_head in Hm as (y & -> & Hy).
    cbn [app] in *. cbn [Re.sub_from]. rewrite Hgs. cbn [length app].
    rewrite sub_from_skip, skipn_app_exact by reflexivity.
    now apply sub_SUFFIX_end.
  - cbn [app Re.sub_from].
    destruct (Re.match_at true SUFFIX (c :: pre ++ m ++ e)) as [[n gs]|] eqn:Hmatch.
    + exfalso. apply suffix_match_no_hyphen in Hmatch. apply Hmatch.
      apply marker_head in Hm as (y & -> & _).
      apply in_or_app. right. now left.
    + now rewrite IH.
Qed.

Lemma no_marker_tail (c : ascii) (x : str) :
  ~ Spec.ends_with_marker (c :: x) -> ~ Spec.ends_with_marker x.
Proof.
  intros H (pre & m & e & E & Hm & He). apply H.
  exists (c :: pre), m, e. split; [now rewrite E | split; assumption].
Qed.

Lemma sub_SUFFIX_none (x : str) :
  ~ Spec.ends_with_marker x -> Re.sub true SUFFIX [] x = x.
Proof.
  unfold Re.sub. induction x as [|c x IH]; intros H; [reflexivity|].
  cbn [Re.sub_from].
  destruct (Re.match_at true SUFFIX (c :: x)) as [[n gs]|] eqn:Hmatch.
  - exfalso. apply H. apply suffix_match_Some in Hmatch as (m & e & E & _ & Hm & He).
    exists [], m, e. split; [exact E | split; assumption].
  - now rewrite (IH (@no_marker_tail c x H)).
Qed.

Lemma endswith_lower_split (x w : str) :
  endswith (lower x) w = true -> exists pre m, x = pre ++ m /\ lower m = w.
Proof.
  intros H. apply endswith_spec in H as [t Ht].
  apply map_eq_app in Ht as (pre & m & E & _ & Hm). now exists pre, m.
Qed.

Lemma endswith_lower_intro (pre m w : str) :
  lower m = w -> endswith (lower (pre ++ m)) w = true.
Proof.
  intros <-. apply endswith_spec. exists (lower pre). apply lower_app.
Qed.

Lemma drop_last_app (pre m : str) (n : nat) :
  length m = n -> Spec.drop_last n (pre ++ m) = pre.
Proof. intros <-. apply firstn_app_minus. Qed.

Lemma marker_last (m : str) :
  lower m = lit "-scaled" \/ lower m = lit "-rotated" ->
  exists m' d, m = m' ++ [d] /\ d <> "010"%char.
Proof.
  intros [H|H].
  - destruct m as [|c1 [|c2 [|c3 [|c4 [|c5 [|c6 [|c7 [|c8 m]]]]]]]]; try discriminate.
    exists [c1; c2; c3; c4; c5; c6], c7. split; [reflexivity|].
    intros ->. discriminate.
  - destruct m as [|c1 [|c2 [|c3 [|c4 [|c5 [|c6 [|c7 [|c8 [|c9 m]]]]]]]]]; try discriminate.
    exists [c1; c2; c3; c4; c5; c6; c7], c8. split; [reflexivity|].
    intros ->. discriminate.
Qed.

Lemma rev_cons_inv (x : str) (c : ascii) (y : str) :
  rev x = c :: y -> x = rev y ++ [c].
Proof.
  intros H. apply (f_equal (@rev ascii)) in H. now rewrite rev_involutive in H.
Qed.

(** The tests of [strip_marker_dollar] find the marker when there is one. *)
Lemma marker_tests (x : str) :
  Spec.ends_with_marker x ->
  match rev x with
  | [] => False
  | c :: y =>
      if Ascii.eqb c "010"
      then endswith (lower (rev y)) (lit "-scaled") = true \/
           endswith (lower (rev y)) (lit "-rotated") = true
      else endswith (lower x) (lit "-scaled") = true \/
           endswith (lower x) (lit "-rotated") = true
  end.
Proof.
  intros (pre & m & e & E & Hm & He).
  destruct He as [->| ->].
  - rewrite app_nil_r in E. destruct (@marker_last m Hm) as (m' & d & Em & Hd).
    subst x m. rewrite app_assoc, rev_app_distr. cbn [rev app].
    apply Ascii.eqb_neq in Hd. rewrite Hd. rewrite <- app_assoc.
    destruct Hm as [Hm|Hm]; [left|right]; now apply endswith_lower_intro.
  - subst x. rewrite app_assoc, rev_app_distr. cbn [nl rev app].
    rewrite Ascii.eqb_refl, rev_involutive.
    destruct Hm as [Hm|Hm]; [left|right]; now apply endswith_lower_intro.
Qed.

Lemma marker_length (m : str) :
  (lower m = lit "-scaled" -> length m = 7) /\
  (lower m = lit "-rotated" -> length m = 8).
Proof.
  split; intros H; rewrite <- lower_length, H; reflexivity.
Qed.

Lemma sub_SUFFIX (x : str) : Re.sub true SUFFIX [] x = Spec.strip_marker_dollar x.
Proof.
  unfold Spec.strip_marker_dollar, Spec.strip_marker_at_end.
  pose proof (@marker_tests x) as Htests.
  destruct (rev x) as [|c y] eqn:Hrev.
  { apply sub_SUFFIX_none. intros H. exact (Htests H). }
  apply rev_cons_inv in Hrev.
  destruct (Ascii.eqb c "010") eqn:Hc.
  - apply Ascii.eqb_eq in Hc. subst c.
    destruct (endswith (lower (rev y)) (lit "-scaled")) eqn:H1.
    { apply endswith_lower_split in H1 as (pre & m & E & Hm).
      rewrite Hrev, E, <- app_assoc.
      rewrite (@sub_SUFFIX_marker pre m ["010"%char]) by (auto; now right).
      now rewrite (@drop_last_app pre m 7 (proj1 (marker_length m) Hm)). }
    destruct (endswith (lower (rev y)) (lit "-rotated")) eqn:H2.
    { apply endswith_lower_split in H2 as (pre & m & E & Hm).
      rewrite Hrev, E, <- app_assoc.
      rewrite (@sub_SUFFIX_marker pre m ["010"%char]) by (auto; now right).
      now rewrite (@drop_last_app pre m 8 (proj2 (marker_length m) Hm)). }
    apply sub_SUFFIX_none. intros H. destruct (Htests H); discriminate.
  - destruct (endswith (lower x) (lit "-scaled")) eqn:H1.
    { apply endswith_lower_split in H1 as (pre & m & E & Hm).
      rewrite E at 1. rewrite <- (app_nil_r m) at 1.
      rewrite (@sub_SUFFIX_marker pre m []) by (auto; now left).
      rewrite E, app_nil_r.
      now rewrite (@drop_last_app pre m 7 (proj1 (marker_length m) Hm)). }
    destruct (endswith (lower x) (lit "-rotated")) eqn:H2.
    { apply endswith_lower_split in H2 as (pre & m & E & Hm).
      rewrite E at 1. rewrite <- (app_nil_r m) at 1.
      rewrite (@sub_SUFFIX_marker pre m []) by (auto; now left).
      rewrite E, app_nil_r.
      now rewrite (@drop_last_app pre m 8 (proj2 (marker_length m) Hm)). }
    apply sub_SUFFIX_none. intros H. destruct (Htests H); discriminate.
Qed.

End SuffixSub.

(** ** The matcher *)
Section Matcher.

Lemma classify_main (c : str) :
  Spec.classify c <> Spec.Derivative <-> is_thumbnail c = false.
Proof.
  unfold Spec.classify. destruct (is_thumbnail c); split; intro H;
    try reflexivity; try discriminate; try congruence.
Qed.

Lemma match_condition_spec (tb fb : str) :
  str_eqb fb tb || startswith tb fb || startswith fb tb
  || str_eqb (replace "-" [] fb) (replace "-" [] tb) = true <->
  (tb = fb \/ Spec.prefix tb fb \/ Spec.prefix fb tb \/
   Spec.remove_hyphens tb = Spec.remove_hyphens fb).
Proof.
  rewrite !orb_true_iff, !str_eqb_eq, !startswith_spec, !replace_nil_filter.
  unfold Spec.prefix, Spec.remove_hyphens. intuition congruence.
Qed.

Lemma find_matching_loop_In (tb : str) (cs : list str) (c : str) :
  In c (find_matching_loop tb cs) <->
  In c cs /\ is_thumbnail c = false /\
  (tb = lower (get_base_name c) \/
   Spec.prefix tb (lower (get_base_name c)) \/
   Spec.prefix (lower (get_base_name c)) tb \/
   Spec.remove_hyphens tb = Spec.remove_hyphens (lower (get_base_name c))).
Proof.
  induction cs as [|f cs IH]; simpl.
  - tauto.
  - destruct (is_thumbnail f) eqn:Hf.
    + rewrite IH. split.
      * intros (Hin & Hc & Hm). auto.
      * intros ([-> | Hin] & Hc & Hm); [congruence | auto].
    + match goal with |- context [if ?b then _ else _] => destruct b eqn:Hcond end.
      * apply match_condition_spec in Hcond. simpl. rewrite IH. split.
        -- intros [<- | (Hin & Hc & Hm)]; auto.
        -- intros ([-> | Hin] & Hc & Hm); auto.
      * rewrite IH. split.
        -- intros (Hin & Hc & Hm). auto.
        -- intros ([-> | Hin] & Hc & Hm); [|auto].
           apply match_condition_spec in Hm. congruence.
Qed.

Lemma find_matching_loop_empty_base (cs : list str) :
  find_matching_loop [] cs = filter (fun c => negb (is_thumbnail c)) cs.
Proof.
  induction cs as [|f cs IH]; simpl; [reflexivity|].
  destruct (is_thumbnail f); simpl; [exact IH|].
  destruct (lower (get_base_name f)); simpl; now rewrite IH.
Qed.

End Matcher.


(** C6, as the code has it: for a derivative whose identity is empty,
    [find_matching_main_files] returns every candidate that the detector
    does not classify as a derivative, the empty identity being a prefix of
    every identity. *)
Theorem find_matching_empty_identity (d : str) (cs : list str) :
  get_base_name d = [] ->
  find_matching_main_files (get_base_name d) cs =
  filter (fun c => negb (is_thumbnail c)) cs.
Proof.
  intros ->. unfold find_matching_main_files. simpl.
  apply find_matching_loop_empty_base.
Qed.

Lemma find_matching_empty_identity_witness :
  get_base_name (lit "-100x100.jpg") = [] /\
  find_matching_main_files (get_base_name (lit "-100x100.jpg")) [lit "sunset.jpg"] =
  filter (fun c => negb (is_thumbnail c)) [lit "sunset.jpg"].
Proof.
  split; [reflexivity|].
  apply (find_matching_empty_identity (lit "-100x100.jpg")). reflexivity.
Defined.

(** C6 as stated fails: the derivative [-100x100.jpg] has an empty
    identity and matches [sunset.jpg], whose identity is [sunset]. *)
Lemma find_matching_empty_identity_overmatches :
  is_thumbnail (lit "-100x100.jpg") = true /\
  get_base_name (lit "-100x100.jpg") = [] /\
  In (lit "sunset.jpg")
     (find_matching_main_files (get_base_name (lit "-100x100.jpg")) [lit "sunset.jpg"]) /\
  is_thumbnail (lit "sunset.jpg") = false /\
  get_base_name (lit "sunset.jpg") <> [].
Proof.
  repeat split; try reflexivity.
  - vm_compute. now left.
  - vm_compute. discriminate.
Qed.

Example sunset_recall :
  find_matching_main_files (lit "sunset") [lit "sunset.jpg"; lit "sunset-150x150.jpg"] =
  [lit "sunset.jpg"].
Proof. reflexivity. Qed.

Example separator_drift :
  find_matching_main_files (lit "sun-set") [lit "sunset.jpg"] = [lit "sunset.jpg"].
Proof. reflexivity. Qed.

(** ** The detector *)
Section Detector.

Lemma has_marker_spec (name : str) :
  contains (lower name) (lit "-scaled") || contains (lower name) (lit "-rotated") = true
  <-> Spec.has_marker name.
Proof.
  unfold Spec.has_marker. now rewrite orb_true_iff, !contains_spec.
Qed.

Lemma last_dim_intro (pre w h post : str) :
  Spec.digits w -> Spec.digits h ->
  (forall c post', post = c :: post' -> is_digit c = false) ->
  ~ Spec.has_dim post ->
  Spec.last_dim (pre ++ "-"%char :: w ++ "x"%char :: h ++ post) pre w h post.
Proof.
  intros Hw Hh Hmax Hpost. split; [|split].
  - split; [reflexivity | split; assumption].
  - exact Hmax.
  - intros pre' w' h' post' (E & Hw' & Hh').
    destruct (Nat.le_gt_cases (length pre') (length pre)) as [Hle|Hgt]; [exact Hle|].
    exfalso. apply Hpost.
    apply app_eq_app in E as [l [[E1 E2] | [E1 E2]]].
    + rewrite E1, length_app in Hgt. lia.
    + destruct l as [|c l].
      { rewrite E1, app_nil_r in Hgt. lia. }
      simpl in E2. inversion E2 as [[Hc E3]]. clear E2.
      replace (w ++ "x"%char :: h ++ post) with ((w ++ "x"%char :: h) ++ post) in E3
        by (rewrite <- app_assoc; reflexivity).
      pose proof (before_first _ _ _ E3 (dim_body_no_hyphen Hw Hh)) as Hlen.
      apply app_eq_app in E3 as [m [[E4 E5] | [E4 E5]]].
      * rewrite E4, length_app in Hlen.
        destruct m as [|d m]; [|simpl in Hlen; lia].
        simpl in E5. exists [], w', h', post'.
        split; [now rewrite <- E5 | split; assumption].
      * exists m, w', h', post'. split; [exact E5 | split; assumption].
Qed.

Lemma last_dim_cons (c : ascii) (x pre w h post : str) :
  Spec.last_dim x pre w h post -> Spec.last_dim (c :: x) (c :: pre) w h post.
Proof.
  intros (Ho & Hmax & Hlast). split; [|split].
  - now apply occurrence_tail.
  - exact Hmax.
  - intros pre' w' h' post' (E & Hw' & Hh'). destruct pre' as [|c' pre'].
    + simpl. lia.
    + simpl in E. injection E as _ E. simpl.
      assert (Ho' : Spec.dim_occurrence x pre' w' h' post')
        by (split; [exact E | split; assumption]).
      apply Hlast in Ho'. lia.
Qed.

(** The last match of the scan is a right-most occurrence. *)
Lemma scan_last_dim (x : str) (skip : nat) (l : list (list str)) (m : list str) :
  Re.scan false DIM_GROUPS skip x = l ++ [m] ->
  exists pre w h post, m = [w; h] /\ Spec.last_dim x pre w h post.
Proof.
  revert skip l; induction x as [|c x IH]; intros skip l.
  - simpl. intros E. destruct l; discriminate.
  - cbn [Re.scan]. destruct skip as [|n].
    + rewrite match_at_DIM_GROUPS.
      destruct (Spec.dim_at (c :: x)) as [[w' h']|] eqn:Hd.
      * cbn [Nat.add]. destruct l as [|a l]; cbn [app]; intros E.
        -- injection E as Em Es. subst m.
           apply dim_at_Some in Hd as (rest & Ex & Hw & Hh & Hmax).
           exists [], w', h', rest. split; [reflexivity|].
           rewrite Ex. apply (@last_dim_intro [] w' h' rest Hw Hh Hmax).
           apply findall_nil_no_dim. unfold Re.findall.
           injection Ex as _ Ex. rewrite Ex, scan_skip, skipn_body in Es.
           exact Es.
        -- injection E as _ Es. apply IH in Es as (pre & w & h & post & Em & Hl).
           exists (c :: pre), w, h, post. split; [exact Em|].
           now apply last_dim_cons.
      * intros E. apply IH in E as (pre & w & h & post & Em & Hl).
        exists (c :: pre), w, h, post. split; [exact Em|].
        now apply last_dim_cons.
    + intros E. apply IH in E as (pre & w & h & post & Em & Hl).
      exists (c :: pre), w, h, post. split; [exact Em|].
      now apply last_dim_cons.
Qed.

(** A name that holds a dimension pattern has a right-most one. *)
Lemma has_dim_last_dim (name : str) :
  Spec.has_dim name -> exists pre w h post, Spec.last_dim name pre w h post.
Proof.
  intros (pre & w & h & post & Ho).
  pose proof (@has_dim_scan name pre w h post Ho 0 (Nat.le_0_l _)) as Hne.
  destruct (@exists_last _ (Re.scan false DIM_GROUPS 0 name) Hne) as (l & m & E).
  apply scan_last_dim in E as (pre' & w' & h' & post' & _ & Hl).
  now exists pre', w', h', post'.
Qed.

Lemma threshold_test (w h : Z) :
  (if (1000 <=? w)%Z && (1000 <=? h)%Z then false else true) = true <->
  (w < 1000 \/ h < 1000)%Z.
Proof.
  destruct (1000 <=? w)%Z eqn:Hw, (1000 <=? h)%Z eqn:Hh; simpl;
    rewrite ?Z.leb_le, ?Z.leb_gt in *; split; intros; try discriminate;
    try reflexivity; lia.
Qed.

Lemma classify_derivative (f : str) :
  Spec.classify f = Spec.Derivative <-> is_thumbnail f = true.
Proof.
  unfold Spec.classify. destruct (is_thumbnail f); split; intro H;
    try reflexivity; discriminate.
Qed.

Lemma is_thumbnail_name_marker (name : str) :
  Spec.has_marker name -> is_thumbnail_name name = true.
Proof.
  intros H. apply has_marker_spec in H. unfold is_thumbnail_name. now rewrite H.
Qed.

Lemma is_thumbnail_name_last_dim (name pre w h post : str) :
  ~ Spec.has_marker name ->
  Spec.last_dim name pre w h post ->
  (is_thumbnail_name name = true <->
   (int_digits w < 1000 \/ int_digits h < 1000)%Z).
Proof.
  intros Hm Hl. unfold is_thumbnail_name.
  destruct (contains (lower name) (lit "-scaled")
            || contains (lower name) (lit "-rotated")) eqn:Hc.
  { apply has_marker_spec in Hc. contradiction. }
  unfold Re.findall. destruct (last_dim_scan Hl (skip:=0)) as [l El]; [lia|].
  rewrite El, rev_app_distr. simpl. apply threshold_test.
Qed.

Lemma is_thumbnail_name_no_dim (name : str) :
  ~ Spec.has_marker name -> ~ Spec.has_dim name ->
  is_thumbnail_name name = false.
Proof.
  intros Hm Hd. unfold is_thumbnail_name.
  destruct (contains (lower name) (lit "-scaled")
            || contains (lower name) (lit "-rotated")) eqn:Hc.
  { apply has_marker_spec in Hc. contradiction. }
  apply findall_nil_no_dim in Hd. now rewrite Hd.
Qed.

End Detector.


Lemma no_marker_computed (name : str) :
  contains (lower name) (lit "-scaled") || contains (lower name) (lit "-rotated") = false ->
  ~ Spec.has_marker name.
Proof. intros H Hm. apply has_marker_spec in Hm. congruence. Qed.

Lemma digits_computed (w : str) :
  match w with [] => false | _ :: _ => forallb is_digit w end = true ->
  Spec.digits w.
Proof.
  destruct w as [|c w]; [discriminate|]. intros H. split; [discriminate|].
  now apply Forall_forall, forallb_forall.
Qed.


Example image_scaled_is_derivative :
  Spec.classify (lit "image-scaled.jpg") = Spec.Derivative.
Proof. reflexivity. Qed.

Example large_dimensions_are_main :
  Spec.classify (lit "product-1200x1600.jpg") = Spec.Main.
Proof. reflexivity. Qed.

Example extension_is_not_a_marker :
  Spec.classify (lit "photo.x-scaled") = Spec.Main.
Proof. reflexivity. Qed.

(** ** The extractor *)
Section Extractor.

Lemma repeat_two (c : ascii) (n : nat) (r : str) :
  r ++ repeat c (S (S n)) = r ++ c :: c :: repeat c n.
Proof. reflexivity. Qed.

(** Without two hyphens in a row, [rstrip] has one hyphen to remove at
    most. *)
Lemma rstrip_trim (x : str) :
  (forall a b, x <> a ++ "-"%char :: "-"%char :: b) ->
  rstrip "-" x = Spec.trim_trailing_hyphen x.
Proof.
  intros Hx. unfold Spec.trim_trailing_hyphen.
  destruct (rstrip_split "-" x) as [n E].
  destruct n as [|[|n]].
  - simpl in E. rewrite app_nil_r in E.
    destruct (endswith x (lit "-")) eqn:He; [|now symmetry].
    apply endswith_spec in He as [t Ht]. exfalso.
    apply (@rstrip_end "-"%char x t). now rewrite <- E.
  - simpl in E. assert (He : endswith x (lit "-") = true).
    { apply endswith_spec. now exists (rstrip "-" x). }
    rewrite He. rewrite E at 2. symmetry. now apply drop_last_app.
  - exfalso. rewrite repeat_two in E. now apply Hx in E.
Qed.

Lemma base_of_name_spec (name : str) :
  base_of_name name =
  Spec.trim_trailing_hyphen (Spec.collapse_hyphens (Spec.underscores_to_hyphens
    (Spec.strip_marker_dollar (Spec.remove_dims name)))).
Proof.
  rewrite base_of_name_steps, sub_SUFFIX. apply rstrip_trim.
  intros a b. apply collapse_no_double.
Qed.

Lemma no_dim_remove (x : str) : ~ Spec.has_dim x -> Spec.remove_dims x = x.
Proof.
  unfold Spec.remove_dims. induction x as [|c x IH]; intros H; [reflexivity|].
  cbn [Spec.drop_dims]. unfold Spec.dim_len.
  destruct (Spec.dim_at (c :: x)) as [[w h]|] eqn:Hd.
  - exfalso. apply H. apply dim_at_Some in Hd as (rest & E & Hw & Hh & _).
    exists [], w, h, rest. split; [exact E | split; assumption].
  - now rewrite (IH (@no_dim_tail c x H)).
Qed.

Lemma drop_dims_skip (n : nat) (x : str) :
  Spec.drop_dims n x = Spec.drop_dims 0 (skipn n x).
Proof.
  revert n; induction x as [|c x IH]; intros [|n]; simpl; try reflexivity.
  apply IH.
Qed.

(** The first pattern of a name goes, and the scan goes on after it. *)
Lemma remove_dims_occurrence (pre w h post : str) :
  ~ In "-"%char pre -> Spec.digits w -> Spec.digits h ->
  (forall c y, post = c :: y -> is_digit c = false) ->
  Spec.remove_dims (pre ++ "-"%char :: w ++ "x"%char :: h ++ post) =
  pre ++ Spec.remove_dims post.
Proof.
  intros Hpre Hw Hh Hmax. unfold Spec.remove_dims.
  induction pre as [|c pre IH]; cbn [app Spec.drop_dims]; unfold Spec.dim_len.
  - rewrite (dim_at_maximal Hw Hh Hmax). cbn [Nat.add].
    now rewrite drop_dims_skip, skipn_body.
  - unfold Spec.dim_at at 1.
    destruct (Ascii.eqb c "-") eqn:Hc.
    + apply Ascii.eqb_eq in Hc. subst c. exfalso. apply Hpre. now left.
    + rewrite IH; [reflexivity|]. intros Hin. apply Hpre. now right.
Qed.

Lemma underscores_id (x : str) :
  ~ In "_"%char x -> Spec.underscores_to_hyphens x = x.
Proof.
  unfold Spec.underscores_to_hyphens. induction x as [|c x IH]; intros H;
    [reflexivity|].
  simpl. destruct (Ascii.eqb c "_") eqn:Hc.
  - apply Ascii.eqb_eq in Hc. subst c. exfalso. apply H. now left.
  - rewrite IH; [reflexivity|]. intros Hin. apply H. now right.
Qed.

Lemma collapse_id (x : str) :
  (forall a b, x <> a ++ "-"%char :: "-"%char :: b) ->
  Spec.collapse_hyphens x = x.
Proof.
  induction x as [|c x IH]; intros H; [reflexivity|].
  assert (Hx : forall a b, x <> a ++ "-"%char :: "-"%char :: b).
  { intros a b E. apply (H (c :: a) b). now rewrite E. }
  rewrite collapse_cons. destruct (Ascii.eqb c "-") eqn:Hc.
  - destruct x as [|d x']; [reflexivity|].
    destruct (Ascii.eqb d "-") eqn:Hd.
    + apply Ascii.eqb_eq in Hc, Hd. subst c d. exfalso. now apply (H [] x').
    + now rewrite (IH Hx).
  - now rewrite (IH Hx).
Qed.

Lemma rstrip_id (c : ascii) (x : str) :
  (forall a, x <> a ++ [c]) -> rstrip c x = x.
Proof.
  intros H. destruct (rstrip_split c x) as [n E]. destruct n as [|n].
  - simpl in E. now rewrite app_nil_r in E.
  - exfalso. cbn [repeat] in E. rewrite repeat_cons, app_assoc in E.
    now apply H in E.
Qed.

Lemma strip_extensions_id (b : str) :
  fst (splitext b) = b -> strip_extensions b = b.
Proof.
  intros H. unfold strip_extensions. rewrite H.
  now destruct (endswith_any (lower b) [lit ".jpg"; lit ".jpeg"; lit ".png"]).
Qed.

Lemma base_of_name_fixed (b : str) :
  Spec.canonical b -> ~ Spec.has_dim b -> ~ Spec.ends_with_marker b ->
  base_of_name b = b.
Proof.
  intros (Hu & Hd & Ht) Hdim Hm.
  rewrite base_of_name_steps, (@no_dim_remove b Hdim), (@sub_SUFFIX_none b Hm).
  rewrite (@underscores_id b Hu), (@collapse_id b Hd). now apply rstrip_id.
Qed.

Lemma no_marker_computed_end (x : str) :
  match rev x with
  | [] => true
  | c :: y =>
      if Ascii.eqb c "010"
      then negb (endswith (lower (rev y)) (lit "-scaled")
                 || endswith (lower (rev y)) (lit "-rotated"))
      else negb (endswith (lower x) (lit "-scaled")
                 || endswith (lower x) (lit "-rotated"))
  end = true ->
  ~ Spec.ends_with_marker x.
Proof.
  intros H Hm. apply marker_tests in Hm. destruct (rev x) as [|c y]; [exact Hm|].
  destruct (Ascii.eqb c "010"); apply negb_true_iff, orb_false_iff in H as [H1 H2];
    destruct Hm; congruence.
Qed.

Lemma strip_marker_dollar_end (x : str) :
  (forall y, x <> y ++ nl) ->
  Spec.strip_marker_dollar x = Spec.strip_marker_at_end x.
Proof.
  intros H. unfold Spec.strip_marker_dollar.
  destruct (rev x) as [|c y] eqn:Hrev.
  - apply (f_equal (@rev ascii)) in Hrev. rewrite rev_involutive in Hrev.
    now subst x.
  - destruct (Ascii.eqb c "010") eqn:Hc; [|reflexivity].
    apply Ascii.eqb_eq in Hc. subst c. apply rev_cons_inv in Hrev.
    exfalso. now apply (H (rev y)).
Qed.

Lemma firstn_In {A : Type} (a : A) (n : nat) (l : list A) :
  In a (firstn n l) -> In a l.
Proof.
  intros H. rewrite <- (firstn_skipn n l). apply in_or_app. now left.
Qed.

Lemma splitext_incl (c : ascii) (p : str) : In c (fst (splitext p)) -> In c p.
Proof.
  unfold splitext, generic_splitext.
  destruct ((rfind "/" p <? rfind "." p)%Z &&
            existsb (fun d => negb (Ascii.eqb d "."))
              (slice p (rfind "/" p + 1) (rfind "." p))); simpl; [|tauto].
  apply firstn_In.
Qed.

Lemma strip_extensions_incl (c : ascii) (f : str) :
  In c (strip_extensions f) -> In c f.
Proof.
  unfold strip_extensions.
  destruct (endswith_any (lower (fst (splitext f)))
              [lit ".jpg"; lit ".jpeg"; lit ".png"]); intros H.
  - now apply splitext_incl, splitext_incl in H.
  - now apply splitext_incl in H.
Qed.

Lemma drop_dims_incl (c : ascii) (x : str) (skip : nat) :
  In c (Spec.drop_dims skip x) -> In c x.
Proof.
  revert skip; induction x as [|a x IH]; intros skip; [exact (fun H => H)|].
  cbn [Spec.drop_dims]. destruct skip as [|n].
  - destruct (Spec.dim_len (a :: x)) as [|n].
    + intros [H|H]; [now left | right; now apply (IH 0)].
    + intros H. right. now apply (IH n).
  - intros H. right. now apply (IH n).
Qed.

(** Where the name holds no line feed, the suffix is removed at the very
    end only. *)
Lemma get_base_name_end_only (f : str) :
  ~ In "010"%char f -> get_base_name f = Spec.BaseIdentity f.
Proof.
  intros H. unfold get_base_name. rewrite base_of_name_spec.
  unfold Spec.BaseIdentity. rewrite strip_marker_dollar_end; [reflexivity|].
  intros y E. apply H. apply strip_extensions_incl.
  apply (@drop_dims_incl _ _ 0). fold (Spec.remove_dims (strip_extensions f)).
  rewrite E. apply in_or_app. right. now left.
Qed.

End Extractor.






(** ** The extensions *)
Section Extensions.

Lemma rfind_lower_bound (c : ascii) (x : str) : (-1 <= rfind c x)%Z.
Proof.
  induction x as [|a x IH]; simpl; [lia|].
  destruct (0 <=? rfind c x)%Z eqn:H; [apply Z.leb_le in H; lia|].
  destruct (Ascii.eqb a c); lia.
Qed.

Lemma rfind_upper_bound (c : ascii) (x : str) : (rfind c x < Z.of_nat (length x))%Z.
Proof.
  induction x as [|a x IH]; cbn [rfind length]; [lia|].
  destruct (0 <=? rfind c x)%Z eqn:H; [lia|].
  destruct (Ascii.eqb a c); lia.
Qed.

Lemma rfind_absent (c : ascii) (x : str) : ~ In c x -> rfind c x = (-1)%Z.
Proof.
  induction x as [|a x IH]; intros H; simpl; [reflexivity|].
  rewrite IH by (intros Hin; apply H; now right). simpl.
  destruct (Ascii.eqb a c) eqn:Ha; [|reflexivity].
  apply Ascii.eqb_eq in Ha. subst a. exfalso. apply H. now left.
Qed.

Lemma rfind_last (c : ascii) (x t : str) :
  ~ In c t -> rfind c (x ++ c :: t) = Z.of_nat (length x).
Proof.
  intros H. induction x as [|a x IH].
  - simpl. rewrite rfind_absent by exact H. simpl. now rewrite Ascii.eqb_refl.
  - cbn [app rfind length]. rewrite IH.
    destruct (0 <=? Z.of_nat (length x))%Z eqn:E; [lia|].
    apply Z.leb_gt in E. lia.
Qed.

Lemma rfind_app_absent (c : ascii) (x t : str) :
  ~ In c t -> rfind c (x ++ t) = rfind c x.
Proof.
  intros H. induction x as [|a x IH].
  - simpl. now apply rfind_absent.
  - cbn [app rfind]. now rewrite IH.
Qed.

Lemma lower_In (c : ascii) (x : str) :
  lower_char c = c -> In c x -> In c (lower x).
Proof. intros Hc H. rewrite <- Hc. now apply in_map. Qed.

Lemma lower_char_dot (c : ascii) : lower_char c = "."%char -> c = "."%char.
Proof.
  destruct c as [[] [] [] [] [] [] [] []]; vm_compute; intros H;
    try reflexivity; discriminate.
Qed.

(** The three extensions of the double-extension test: a dot, then neither
    a dot nor a slash. *)
Lemma secondary_extension_shape (e : str) :
  In (lower e) [lit ".jpg"; lit ".jpeg"; lit ".png"] ->
  exists ext, e = "."%char :: ext /\ ~ In "."%char ext /\ ~ In "/"%char ext.
Proof.
  intros H.
  assert (Hshape : exists w, lower e = "."%char :: w /\
                             ~ In "."%char w /\ ~ In "/"%char w).
  { simpl in H. destruct H as [H|[H|[H|[]]]]; rewrite <- H;
      eexists; (split; [reflexivity|]); split; simpl; intuition discriminate. }
  destruct Hshape as (w & Hw & Hdot & Hslash).
  apply lower_marker_cons in Hw as (c & ext & -> & Hc & Hext).
  apply lower_char_dot in Hc. subst c. exists ext. split; [reflexivity|].
  split; intros Hin; [apply Hdot | apply Hslash]; rewrite <- Hext;
    now apply lower_In.
Qed.

Lemma firstn_app_exact {A : Type} (a b : list A) (n : nat) :
  n = length a -> firstn n (a ++ b) = a.
Proof.
  intros ->. rewrite firstn_app, Nat.sub_diag, firstn_all. simpl. apply app_nil_r.
Qed.

Lemma In_firstn_app_mid {A : Type} (a : list A) (c : A) (b : list A) (n : nat) :
  length a < n -> In c (firstn n (a ++ c :: b)).
Proof.
  intros H. rewrite firstn_app. apply in_or_app. right.
  destruct (n - length a) as [|k] eqn:E; [lia|]. now left.
Qed.

Lemma all_dots_no_slash (dots : str) :
  Forall (fun d => d = "."%char) dots -> ~ In "/"%char dots.
Proof.
  intros H Hin. rewrite Forall_forall in H. apply H in Hin. discriminate.
Qed.

(** [os.path.splitext] splits at an extension that follows a stem. *)
Lemma splitext_stem (stem ext : str) :
  Spec.has_stem stem -> ~ In "."%char ext -> ~ In "/"%char ext ->
  splitext (stem ++ "."%char :: ext) = (stem, "."%char :: ext).
Proof.
  intros (pre & c & dots & Es & Hc1 & Hc2 & Hdots) Hdot Hslash.
  unfold splitext, generic_splitext.
  rewrite rfind_last by exact Hdot.
  assert (Hsep : rfind "/" (stem ++ "."%char :: ext) = rfind "/" pre).
  { rewrite Es, <- app_assoc. apply rfind_app_absent.
    intros Hin. cbn [app] in Hin. destruct Hin as [Hin|Hin]; [congruence|].
    apply in_app_or in Hin as [Hin|Hin]; [now apply all_dots_no_slash in Hin|].
    destruct Hin as [Hin|Hin]; [discriminate | contradiction]. }
  rewrite Hsep.
  pose proof (rfind_lower_bound "/" pre) as Hlo.
  pose proof (rfind_upper_bound "/" pre) as Hhi.
  assert (Hlen : length stem = length pre + S (length dots)).
  { rewrite Es, length_app. reflexivity. }
  assert (Hlt : (rfind "/" pre <? Z.of_nat (length stem))%Z = true).
  { apply Z.ltb_lt. lia. }
  rewrite Hlt. cbn [andb].
  assert (Hex : existsb (fun d => negb (Ascii.eqb d "."))
                  (slice (stem ++ "."%char :: ext) (rfind "/" pre + 1)
                     (Z.of_nat (length stem))) = true).
  { apply existsb_exists. exists c. split.
    - unfold slice. rewrite Nat2Z.id.
      set (i := Z.to_nat (rfind "/" pre + 1)).
      assert (Hi : i <= length pre) by (unfold i; lia).
      rewrite Es, <- app_assoc, skipn_app.
      replace (i - length pre) with 0 by lia. cbn [skipn].
      apply (@In_firstn_app_mid _ (skipn i pre) c (dots ++ "."%char :: ext)).
      rewrite length_skipn, length_app. cbn [length]. lia.
    - apply negb_true_iff. now apply Ascii.eqb_neq. }
  rewrite Hex. unfold slice_to, slice_from. rewrite Nat2Z.id.
  f_equal; [now apply firstn_app_exact | now apply skipn_app_exact].
Qed.

End Extensions.

Lemma secondary_extension_found (stem e : str) :
  In (lower e) [lit ".jpg"; lit ".jpeg"; lit ".png"] ->
  endswith_any (lower (stem ++ e)) [lit ".jpg"; lit ".jpeg"; lit ".png"] = true.
Proof.
  intros H. apply existsb_exists. exists (lower e). split; [exact H|].
  now apply endswith_lower_intro.
Qed.

(** C7, as the code has it: when the name without its primary extension
    is a stem followed by [.jpg], [.jpeg] or [.png] in any case, the
    detector and the extractor work on the stem. *)
Theorem strip_extensions_double (f stem e : str) :
  fst (splitext f) = stem ++ e ->
  In (lower e) [lit ".jpg"; lit ".jpeg"; lit ".png"] ->
  Spec.has_stem stem ->
  strip_extensions f = stem /\
  is_thumbnail f = is_thumbnail_name stem /\
  get_base_name f = base_of_name stem.
Proof.
  intros Hn He Hs.
  assert (E : strip_extensions f = stem).
  { unfold strip_extensions. rewrite Hn, (secondary_extension_found stem e He).
    apply secondary_extension_shape in He as (ext & -> & Hdot & Hslash).
    now rewrite splitext_stem. }
  unfold is_thumbnail, get_base_name. now rewrite E.
Qed.

Lemma strip_extensions_double_witness :
  strip_extensions (lit "photo-150x150.JPG.webp") = lit "photo-150x150" /\
  is_thumbnail (lit "photo-150x150.JPG.webp") = is_thumbnail_name (lit "photo-150x150") /\
  get_base_name (lit "photo-150x150.JPG.webp") = base_of_name (lit "photo-150x150").
Proof.
  apply (@strip_extensions_double (lit "photo-150x150.JPG.webp")
           (lit "photo-150x150") (lit ".JPG")).
  - reflexivity.
  - simpl. now left.
  - exists (lit "photo-150x15"), "0"%char, []. repeat split; try discriminate.
    constructor.
Defined.

(** C7 as stated fails: [.gif] is one of [MAIN_EXTENSIONS], and the
    [.gif] of [image.gif.webp] is not stripped. *)
Lemma strip_extensions_not_every_extension :
  In (lit ".gif") MAIN_EXTENSIONS /\
  fst (splitext (lit "image.gif.webp")) = lit "image" ++ lit ".gif" /\
  endswith (lower (fst (splitext (lit "image.gif.webp")))) (lit ".gif") = true /\
  strip_extensions (lit "image.gif.webp") = lit "image.gif" /\
  strip_extensions (lit "image.gif.webp") <> lit "image" /\
  get_base_name (lit "image.gif.webp") = lit "image.gif".
Proof.
  repeat split; try reflexivity.
  - simpl. tauto.
  - vm_compute. discriminate.
Qed.

(** ** No exception *)
Section Total.

Lemma scan_elements (x : str) (skip : nat) (m : list str) :
  In m (Re.scan false DIM_GROUPS skip x) ->
  exists w h, m = [w; h] /\ Spec.digits w /\ Spec.digits h.
Proof.
  revert skip; induction x as [|c x IH]; intros skip; simpl; [tauto|].
  destruct skip as [|n]; [|apply IH].
  rewrite match_at_DIM_GROUPS.
  destruct (Spec.dim_at (c :: x)) as [[w h]|] eqn:Hd; [|apply IH].
  simpl. intros [<- | Hin]; [|now apply IH in Hin].
  apply dim_at_Some in Hd as (rest & _ & Hw & Hh & _). now exists w, h.
Qed.

Lemma int_digits_ok (w : str) :
  Spec.digits w -> Checked.int w = Checked.ret (int_digits w).
Proof.
  intros [Hne Hall]. unfold Checked.int. destruct w as [|c w]; [congruence|].
  assert (E : forallb is_digit (c :: w) = true).
  { apply forallb_forall. now apply Forall_forall. }
  now rewrite E.
Qed.

Lemma is_thumbnail_no_exception (f : str) :
  Checked.is_thumbnail f = Checked.ret (is_thumbnail f).
Proof.
  unfold Checked.is_thumbnail, is_thumbnail, is_thumbnail_name.
  destruct (contains (lower (strip_extensions f)) (lit "-scaled")
            || contains (lower (strip_extensions f)) (lit "-rotated"));
    [reflexivity|].
  unfold Checked.last_item.
  pose proof (@scan_elements (strip_extensions f) 0) as Hel.
  fold (Re.findall DIM_GROUPS (strip_extensions f)) in Hel.
  destruct (Re.findall DIM_GROUPS (strip_extensions f)) as [|m0 ms] eqn:Hf;
    [reflexivity|].
  destruct (rev (m0 :: ms)) as [|m l] eqn:Hr.
  { apply (f_equal (@length (list str))) in Hr. rewrite length_rev in Hr.
    discriminate. }
  assert (Hin : In m (m0 :: ms)).
  { apply in_rev. rewrite Hr. now left. }
  apply Hel in Hin as (w & h & -> & Hw & Hh).
  cbn [Checked.bind Checked.unpack2 Checked.ret fst snd nth].
  rewrite (int_digits_ok Hw). cbn [Checked.bind Checked.ret].
  destruct (1000 <=? int_digits w)%Z; [|reflexivity].
  rewrite (int_digits_ok Hh). cbn [Checked.bind Checked.ret andb].
  now destruct (1000 <=? int_digits h)%Z.
Qed.

End Total.


(** ** The folder loops *)
Section FolderFacts.

Variable locked : str -> bool.

Lemma omap_app {A B : Type} (f : A -> option B) (l1 l2 : list A) :
  Spec.omap f (l1 ++ l2) = Spec.omap f l1 ++ Spec.omap f l2.
Proof.
  induction l1 as [|a l1 IH]; simpl; [reflexivity|].
  destruct (f a); simpl; now rewrite IH.
Qed.

(** One decision for each thumbnail, in order: [Delete] when a main file
    matches, [Retain] otherwise. *)
Lemma delete_loop_decisions (image_files thumbnail_files : list str) (st : folder_state) :
  Spec.decisions (delete_loop locked image_files thumbnail_files st) =
  Spec.decisions st ++ map (Spec.decision_of image_files) thumbnail_files.
Proof.
  revert st; induction thumbnail_files as [|t ts IH]; intros st; simpl.
  - now rewrite app_nil_r.
  - rewrite IH. unfold Spec.decision_of at 2, Spec.decide_for, Spec.decisions.
    destruct (find_matching_main_files (get_base_name t) image_files) as [|m ms].
    + simpl. rewrite omap_app. simpl. now rewrite <- app_assoc.
    + destruct (os_remove locked (disk st) t); simpl;
        rewrite omap_app; simpl; now rewrite <- app_assoc.
Qed.

(** A file that the loop retains stays in the folder. *)
Lemma delete_loop_keeps (image_files thumbnail_files : list str) (st : folder_state) (g : str) :
  Spec.decide_for image_files g = Spec.Retain ->
  In g (disk st) ->
  In g (disk (delete_loop locked image_files thumbnail_files st)).
Proof.
  intros Hg. revert st; induction thumbnail_files as [|t ts IH]; intros st Hin;
    simpl; [exact Hin|].
  apply IH.
  destruct (find_matching_main_files (get_base_name t) image_files) as [|m ms] eqn:Hm;
    [exact Hin|].
  unfold os_remove.
  destruct (existsb (str_eqb t) (disk st) && negb (locked t)); [|exact Hin].
  simpl. apply filter_In. split; [exact Hin|].
  apply negb_true_iff. destruct (str_eqb g t) eqn:E; [|reflexivity].
  apply str_eqb_eq in E. subst g. unfold Spec.decide_for in Hg.
  rewrite Hm in Hg. discriminate.
Qed.

(** The matches that the loop logs are what the matcher returns. *)
Lemma delete_loop_matches (image_files thumbnail_files : list str) (st : folder_state)
  (t : str) (ms : list str) :
  In (LogDeleted t ms) (log (delete_loop locked image_files thumbnail_files st)) ->
  In (LogDeleted t ms) (log st) \/
  ms = find_matching_main_files (get_base_name t) image_files.
Proof.
  revert st; induction thumbnail_files as [|t' ts IH]; intros st; simpl; [tauto|].
  intros H. apply IH in H as [H|H]; [|now right].
  destruct (find_matching_main_files (get_base_name t') image_files) as [|m ms'] eqn:Hm.
  - simpl in H. apply in_app_or in H as [H|[H|[]]]; [now left | discriminate].
  - destruct (os_remove locked (disk st) t'); simpl in H;
      apply in_app_or in H as [H|[H|[]]]; try (now left); try discriminate.
    inversion H; subst. right. now rewrite Hm.
Qed.

Lemma folder_decisions (all_files : list str) :
  Spec.decisions (delete_thumbnails_in_folder locked (Some all_files)) =
  map (Spec.decision_of (filter is_image all_files)) (Spec.derivatives all_files).
Proof.
  unfold delete_thumbnails_in_folder, Spec.derivatives.
  destruct all_files as [|f fs]; [reflexivity|].
  rewrite delete_loop_decisions.
  now destruct (filter is_thumbnail (filter is_image (f :: fs))).
Qed.

Lemma folder_keeps (all_files : list str) (g : str) :
  Spec.decide_for (filter is_image all_files) g = Spec.Retain ->
  In g all_files ->
  In g (disk (delete_thumbnails_in_folder locked (Some all_files))).
Proof.
  intros Hg Hin. unfold delete_thumbnails_in_folder.
  destruct all_files as [|f fs]; [exact Hin|].
  apply delete_loop_keeps; [exact Hg|].
  now destruct (filter is_thumbnail (filter is_image (f :: fs))).
Qed.

Lemma folder_matches (all_files : list str) (t : str) (ms : list str) :
  In (LogDeleted t ms) (log (delete_thumbnails_in_folder locked (Some all_files))) ->
  ms = find_matching_main_files (get_base_name t) (filter is_image all_files).
Proof.
  unfold delete_thumbnails_in_folder.
  destruct all_files as [|f fs]; [intros []|].
  intros H. apply delete_loop_matches in H as [H|H]; [|exact H].
  exfalso. destruct (filter is_thumbnail (filter is_image (f :: fs))); simpl in H;
    intuition discriminate.
Qed.

Lemma preview_loop_decisions (image_files sample : list str) (st : preview_state) :
  Spec.preview_decisions (preview_loop image_files sample st) =
  Spec.preview_decisions st ++ map (Spec.decision_of image_files) sample.
Proof.
  revert st; induction sample as [|t ts IH]; intros st; simpl.
  - now rewrite app_nil_r.
  - rewrite IH. unfold Spec.decision_of at 2, Spec.decide_for, Spec.preview_decisions.
    destruct (find_matching_main_files (get_base_name t) image_files) as [|m ms];
      simpl; rewrite omap_app; simpl; now rewrite <- app_assoc.
Qed.

Lemma preview_folder_decisions (st : preview_state) (all_files : list str) :
  Spec.preview_decisions (preview_folder st all_files) =
  Spec.preview_decisions st ++
  firstn 3 (map (Spec.decision_of (filter is_image all_files)) (Spec.derivatives all_files)).
Proof.
  unfold preview_folder, Spec.derivatives.
  destruct all_files as [|f fs]; [simpl; now rewrite app_nil_r|].
  destruct (filter is_thumbnail (filter is_image (f :: fs))) as [|t ts] eqn:Ht.
  { simpl. now rewrite app_nil_r. }
  assert (Hsay : forall l s, Spec.preview_decisions (psay l s) =
                             Spec.preview_decisions s ++ Spec.omap Spec.previewed_decision [l]).
  { intros l s. unfold Spec.preview_decisions, psay. simpl plog. apply omap_app. }
  rewrite Hsay. cbn [Spec.omap Spec.previewed_decision]. rewrite app_nil_r.
  rewrite firstn_map.
  destruct (3 <? length (t :: ts)).
  - rewrite Hsay. cbn [Spec.omap Spec.previewed_decision]. rewrite app_nil_r.
    rewrite preview_loop_decisions. f_equal.
    unfold Spec.preview_decisions. simpl plog. rewrite omap_app. simpl.
    now rewrite app_nil_r.
  - rewrite preview_loop_decisions. f_equal.
    unfold Spec.preview_decisions. simpl plog. rewrite omap_app. simpl.
    now rewrite app_nil_r.
Qed.

Lemma preview_fold_decisions (walk : list (list str)) (st : preview_state) :
  Spec.preview_decisions (fold_left preview_folder walk st) =
  Spec.preview_decisions st ++
  flat_map (fun all_files =>
              firstn 3 (map (Spec.decision_of (filter is_image all_files))
                          (Spec.derivatives all_files))) walk.
Proof.
  revert st; induction walk as [|files walk IH]; intros st; simpl.
  - now rewrite app_nil_r.
  - rewrite IH, preview_folder_decisions. now rewrite <- app_assoc.
Qed.

End FolderFacts.

(** C4: the loop decides for the derivatives among the images of the
    folder, one decision each, in order: [Delete] exactly when the matcher,
    run on the identity of the derivative against the images of the same
    folder, returns a match, [Retain] otherwise.  A retained file stays in
    the folder, and the matches logged are images of the folder that the
    detector classifies as main files.  A folder that only holds
    [thumb-100x100.jpg] gives [Retain] for it. *)
Theorem delete_thumbnails_in_folder_decisions (locked : str -> bool) (all_files : list str) :
  let image_files := filter is_image all_files in
  let st := delete_thumbnails_in_folder locked (Some all_files) in
  Spec.decisions st =
    map (Spec.decision_of image_files) (Spec.derivatives all_files) /\
  (forall t, Spec.decide_for image_files t = Spec.Delete <->
             find_matching_main_files (get_base_name t) image_files <> []) /\
  (forall t, In (t, Spec.Retain) (Spec.decisions st) -> In t (disk st)) /\
  (forall t ms m, In (LogDeleted t ms) (log st) -> In m ms ->
                  In m all_files /\ is_image m = true /\
                  Spec.classify m = Spec.Main) /\
  Spec.decisions (delete_thumbnails_in_folder locked (Some [lit "thumb-100x100.jpg"])) =
    [(lit "thumb-100x100.jpg", Spec.Retain)].
Proof.
  intros image_files st.
  assert (Hdec : Spec.decisions st =
                 map (Spec.decision_of image_files) (Spec.derivatives all_files))
    by apply folder_decisions.
  split; [exact Hdec|]. split; [|split; [|split; [|reflexivity]]].
  - intros t. unfold Spec.decide_for.
    destruct (find_matching_main_files (get_base_name t) image_files);
      split; intros H; try discriminate; try reflexivity; congruence.
  - intros t Hin. rewrite Hdec in Hin.
    apply in_map_iff in Hin as (t' & E & Hin'). inversion E; subst t'.
    apply folder_keeps; [assumption|].
    unfold Spec.derivatives in Hin'. apply filter_In in Hin' as [Hin' _].
    now apply filter_In in Hin' as [Hin' _].
  - intros t ms m Hlog Hm. apply folder_matches in Hlog. subst ms.
    unfold find_matching_main_files in Hm.
    apply find_matching_loop_In in Hm as (Hin & Hth & _).
    apply filter_In in Hin as [Hin Himg].
    repeat split; try assumption. unfold Spec.classify. now rewrite Hth.
Qed.

Lemma delete_thumbnails_in_folder_decisions_witness :
  In (lit "logo-150x150.png")
     (disk (delete_thumbnails_in_folder (fun _ => false)
              (Some [lit "photo.jpg"; lit "photo-150x150.jpg"; lit "logo-150x150.png"]))).
Proof.
  apply (proj1 (proj2 (proj2
           (delete_thumbnails_in_folder_decisions (fun _ => false)
              [lit "photo.jpg"; lit "photo-150x150.jpg"; lit "logo-150x150.png"])))).
  vm_compute. right. now left.
Defined.

(** C5, as the code has it: in each folder the preview reports the first
    three derivatives, each with the decision that the deletion makes for it
    ([Would DELETE] for [Delete], [Would KEEP] for [Retain]); the
    derivatives after the third are counted and not reported. *)
Theorem preview_cleanup_sample (locked : str -> bool) (walk : list (list str)) :
  Spec.preview_decisions (preview_cleanup walk) =
  flat_map (fun all_files =>
              firstn 3 (Spec.decisions
                          (delete_thumbnails_in_folder locked (Some all_files))))
           walk.
Proof.
  unfold preview_cleanup.
  assert (Hsay : forall l s, Spec.previewed_decision l = None ->
                             Spec.preview_decisions (psay l s) = Spec.preview_decisions s).
  { intros l s Hl. unfold Spec.preview_decisions, psay. simpl plog.
    rewrite omap_app. simpl. rewrite Hl. apply app_nil_r. }
  rewrite Hsay by reflexivity. rewrite preview_fold_decisions.
  change (Spec.preview_decisions preview_start) with (@nil (str * Spec.decision)).
  cbn [app]. apply flat_map_ext. intros files.
  now rewrite (folder_decisions locked).
Qed.

(** C5 as stated fails: of the four derivatives of this folder the deletion
    deletes the fourth, which the preview does not report. *)
Lemma preview_omits_fourth_derivative :
  In (lit "photo-100x100.jpg", Spec.Delete)
     (Spec.decisions
        (delete_thumbnails_in_folder (fun _ => false)
           (Some [lit "photo.jpg"; lit "photo-150x150.jpg"; lit "photo-300x200.jpg";
                  lit "photo-768x512.jpg"; lit "photo-100x100.jpg"]))) /\
  In (LogDeleted (lit "photo-100x100.jpg") [lit "photo.jpg"])
     (log (delete_thumbnails_in_folder (fun _ => false)
             (Some [lit "photo.jpg"; lit "photo-150x150.jpg"; lit "photo-300x200.jpg";
                    lit "photo-768x512.jpg"; lit "photo-100x100.jpg"]))) /\
  ~ In (WouldDelete (lit "photo-100x100.jpg"))
       (plog (preview_cleanup
                [[lit "photo.jpg"; lit "photo-150x150.jpg"; lit "photo-300x200.jpg";
                  lit "photo-768x512.jpg"; lit "photo-100x100.jpg"]])) /\
  In (PvMore 1)
     (plog (preview_cleanup
              [[lit "photo.jpg"; lit "photo-150x150.jpg"; lit "photo-300x200.jpg";
                lit "photo-768x512.jpg"; lit "photo-100x100.jpg"]])).
Proof.
  split; [vm_compute; tauto|]. split; [vm_compute; tauto|]. split.
  - vm_compute. intros H.
    repeat (destruct H as [H|H]; [discriminate|]). exact H.
  - vm_compute. tauto.
Qed.

(** ** The detector does not see a trailing extension *)
Section ExtensionBlind.

Lemma span_app_stop (ok : ascii -> bool) (y : str) (c : ascii) (t : str) :
  ok c = false ->
  span ok (y ++ c :: t) = (fst (span ok y), snd (span ok y) ++ c :: t).
Proof.
  intros Hc. induction y as [|a y IH]; simpl.
  - now rewrite Hc.
  - destruct (ok a); [|reflexivity]. now rewrite IH.
Qed.

Lemma dim_at_app_dot (x t : str) :
  Spec.dim_at (x ++ "."%char :: t) = Spec.dim_at x.
Proof.
  destruct x as [|c y]; [reflexivity|].
  cbn [app]. unfold Spec.dim_at, Spec.span_digits.
  destruct (Ascii.eqb c "-"); [|reflexivity].
  rewrite span_app_stop by reflexivity. cbn [fst snd].
  destruct (snd (span is_digit y)) as [|c' z]; [reflexivity|].
  cbn [app]. destruct (Ascii.eqb c' "x"); [|reflexivity].
  rewrite span_app_stop by reflexivity. reflexivity.
Qed.

Lemma scan_no_hyphen (t : str) (skip : nat) :
  ~ In "-"%char t -> Re.scan false DIM_GROUPS skip t = [].
Proof.
  revert skip; induction t as [|c t IH]; intros skip H; [reflexivity|].
  assert (Ht : ~ In "-"%char t) by (intros Hin; apply H; now right).
  cbn [Re.scan]. destruct skip as [|n]; [|now apply IH].
  rewrite match_at_DIM_GROUPS. unfold Spec.dim_at.
  destruct (Ascii.eqb c "-") eqn:Hc; [|now apply IH].
  apply Ascii.eqb_eq in Hc. subst c. exfalso. apply H. now left.
Qed.

Lemma scan_app_dot (x t : str) (skip : nat) :
  ~ In "-"%char t ->
  Re.scan false DIM_GROUPS skip (x ++ "."%char :: t) =
  Re.scan false DIM_GROUPS skip x.
Proof.
  intros Ht. revert skip; induction x as [|c x IH]; intros skip.
  - cbn [app]. rewrite scan_no_hyphen; [now destruct skip|].
    intros [H|H]; [discriminate | contradiction].
  - cbn [app Re.scan]. destruct skip as [|n]; [|apply IH].
    rewrite !match_at_DIM_GROUPS.
    change (c :: x ++ "."%char :: t) with ((c :: x) ++ "."%char :: t).
    rewrite dim_at_app_dot.
    destruct (Spec.dim_at (c :: x)) as [[w h]|]; simpl; now rewrite IH.
Qed.

Lemma startswith_app_dot (y t p : str) :
  ~ In "."%char p -> startswith (y ++ "."%char :: t) p = startswith y p.
Proof.
  revert y; induction p as [|b p IH]; intros y H; [reflexivity|].
  assert (Hb : Ascii.eqb "." b = false).
  { apply Ascii.eqb_neq. intros <-. apply H. now left. }
  assert (Hp : ~ In "."%char p) by (intros Hin; apply H; now right).
  destruct y as [|a y]; cbn [app startswith].
  - now rewrite Hb.
  - now rewrite IH.
Qed.

Lemma contains_no_hyphen (t p : str) :
  ~ In "-"%char t -> contains t ("-"%char :: p) = false.
Proof.
  intros H. destruct (contains t ("-"%char :: p)) eqn:E; [|reflexivity].
  apply contains_spec in E as (a & b & ->). exfalso. apply H.
  apply in_or_app. right. now left.
Qed.

Lemma contains_app_dot (x t p : str) :
  ~ In "."%char p -> ~ In "-"%char t ->
  contains (x ++ "."%char :: t) ("-"%char :: p) = contains x ("-"%char :: p).
Proof.
  intros Hp Ht.
  assert (Hp' : ~ In "."%char ("-"%char :: p)).
  { intros [H|H]; [discriminate | contradiction]. }
  induction x as [|c x IH].
  - cbn [app]. rewrite contains_no_hyphen; [reflexivity|].
    intros [H|H]; [discriminate | contradiction].
  - cbn [app]. cbn [contains].
    change (c :: x ++ "."%char :: t) with ((c :: x) ++ "."%char :: t).
    rewrite startswith_app_dot by exact Hp'. now rewrite IH.
Qed.

Lemma lower_no_hyphen (t : str) : ~ In "-"%char t -> ~ In "-"%char (lower t).
Proof.
  intros H Hin. apply in_map_iff in Hin as (c & Hc & Hin).
  apply lower_char_hyphen in Hc. now subst c.
Qed.

(** An extension without a hyphen after the name changes nothing for the
    detector. *)
Lemma is_thumbnail_name_app_ext (stem ext : str) :
  ~ In "-"%char ext ->
  is_thumbnail_name (stem ++ "."%char :: ext) = is_thumbnail_name stem.
Proof.
  intros H. unfold is_thumbnail_name, Re.findall.
  rewrite scan_app_dot by exact H.
  rewrite lower_app. change (lower ("."%char :: ext)) with ("."%char :: lower ext).
  change (lit "-scaled") with ("-"%char :: lit "scaled").
  change (lit "-rotated") with ("-"%char :: lit "rotated").
  rewrite !contains_app_dot
    by first [now apply lower_no_hyphen | simpl; intuition discriminate].
  reflexivity.
Qed.

Lemma main_extension_shape (e : str) :
  In (lower e) (map lower MAIN_EXTENSIONS) ->
  exists ext, e = "."%char :: ext /\ ~ In "."%char ext /\ ~ In "-"%char ext.
Proof.
  intros H.
  assert (Hshape : exists w, lower e = "."%char :: w /\
                             ~ In "."%char w /\ ~ In "-"%char w).
  { simpl in H. destruct H as [H|[H|[H|[H|[H|[H|[H|[H|[]]]]]]]]]; rewrite <- H;
      eexists; (split; [reflexivity|]); split; simpl; intuition discriminate. }
  destruct Hshape as (w & Hw & Hdot & Hhyp).
  apply lower_marker_cons in Hw as (c & ext & -> & Hc & Hext).
  apply lower_char_dot in Hc. subst c. exists ext. split; [reflexivity|].
  split; intros Hin; [apply Hdot | apply Hhyp]; rewrite <- Hext;
    now apply lower_In.
Qed.

Lemma splitext_last_dot (stem ext : str) :
  ~ In "."%char ext ->
  fst (splitext (stem ++ "."%char :: ext)) = stem \/
  fst (splitext (stem ++ "."%char :: ext)) = stem ++ "."%char :: ext.
Proof.
  intros H. unfold splitext, generic_splitext. rewrite rfind_last by exact H.
  match goal with |- context [if ?b then _ else _] => destruct b end; simpl.
  - left. unfold slice_to. rewrite Nat2Z.id. now apply firstn_app_exact.
  - now right.
Qed.

(** X20: for the detector it makes no difference which of the recognized
    extensions the double-extension test strips: its answer is the one
    for the name without the secondary extension. *)
Lemma is_thumbnail_any_secondary_extension (f stem e : str) :
  fst (splitext f) = stem ++ e ->
  In (lower e) (map lower MAIN_EXTENSIONS) ->
  is_thumbnail f = is_thumbnail_name stem.
Proof.
  intros Hn He. apply main_extension_shape in He as (ext & -> & Hdot & Hhyp).
  unfold is_thumbnail, strip_extensions. rewrite Hn.
  destruct (endswith_any (lower (stem ++ "."%char :: ext))
              [lit ".jpg"; lit ".jpeg"; lit ".png"]).
  - destruct (@splitext_last_dot stem ext Hdot) as [E|E]; rewrite E;
      [reflexivity | now apply is_thumbnail_name_app_ext].
  - now apply is_thumbnail_name_app_ext.
Qed.

End ExtensionBlind.

(** ** More on the deletion in a folder *)
Section DeleteFacts.

Variable locked : str -> bool.

Lemma mem_In (f : str) (l : list str) : mem f l = true <-> In f l.
Proof.
  unfold mem. rewrite existsb_exists. split.
  - intros (g & Hin & E). apply str_eqb_eq in E. now subst g.
  - intros H. exists f. split; [exact H | now apply str_eqb_eq].
Qed.

Lemma str_eqb_refl (x : str) : str_eqb x x = true.
Proof. now apply str_eqb_eq. Qed.

Lemma str_eqb_sym (x y : str) : str_eqb x y = str_eqb y x.
Proof.
  destruct (str_eqb x y) eqn:E, (str_eqb y x) eqn:E'; try reflexivity.
  - apply str_eqb_eq in E. subst. now rewrite str_eqb_refl in E'.
  - apply str_eqb_eq in E'. subst. now rewrite str_eqb_refl in E.
Qed.

Lemma filter_filter {A : Type} (p q : A -> bool) (l : list A) :
  filter q (filter p l) = filter (fun a => p a && q a) l.
Proof.
  induction l as [|a l IH]; simpl; [reflexivity|].
  destruct (p a); simpl; [destruct (q a) |]; now rewrite IH.
Qed.

(** The files that the loop leaves: those it was not asked about, those
    without a match and those that are locked. *)
Lemma delete_loop_disk (image_files thumbnail_files : list str) (st : folder_state) :
  disk (delete_loop locked image_files thumbnail_files st) =
  filter (fun f => negb (mem f thumbnail_files && has_match image_files f
                         && negb (locked f)))
         (disk st).
Proof.
  revert st; induction thumbnail_files as [|t ts IH]; intros st.
  - simpl. symmetry. apply forallb_filter_id. now apply forallb_forall.
  - cbn [delete_loop]. rewrite IH. unfold has_match at 2.
    destruct (find_matching_main_files (get_base_name t) image_files) as [|m ms] eqn:Hm.
    + simpl disk. apply filter_ext_in. intros f _. cbn [mem existsb].
      destruct (str_eqb f t) eqn:E; [|reflexivity].
      apply str_eqb_eq in E. subst f. unfold has_match. rewrite Hm.
      now rewrite !andb_false_r.
    + unfold os_remove. fold (mem t (disk st)).
      destruct (mem t (disk st)) eqn:Hin; cbn [andb].
      * destruct (locked t) eqn:Hl; cbn [negb disk].
        -- apply filter_ext_in. intros f _. cbn [mem existsb].
           destruct (str_eqb f t) eqn:E; [|reflexivity].
           apply str_eqb_eq in E. subst f. rewrite Hl. now rewrite !andb_false_r.
        -- rewrite filter_filter. apply filter_ext_in. intros f _. cbn [mem existsb].
           destruct (str_eqb f t) eqn:E; cbn [negb andb orb]; [|reflexivity].
           apply str_eqb_eq in E. subst f. unfold has_match. rewrite Hm, Hl.
           reflexivity.
      * cbn [disk]. apply filter_ext_in. intros f Hf. cbn [mem existsb].
        destruct (str_eqb f t) eqn:E; [|reflexivity].
        apply str_eqb_eq in E. subst f. apply mem_In in Hf. congruence.
Qed.

Lemma mem_derivatives (all_files : list str) (f : str) :
  In f all_files ->
  mem f (Spec.derivatives all_files) = is_image f && is_thumbnail f.
Proof.
  intros Hin. destruct (mem f (Spec.derivatives all_files)) eqn:E.
  - apply mem_In in E. unfold Spec.derivatives in E.
    apply filter_In in E as [E Ht]. apply filter_In in E as [_ Hi].
    now rewrite Hi, Ht.
  - destruct (is_image f) eqn:Hi, (is_thumbnail f) eqn:Ht; try reflexivity.
    assert (H : In f (Spec.derivatives all_files)).
    { unfold Spec.derivatives. apply filter_In. split; [|exact Ht].
      apply filter_In. now split. }
    apply mem_In in H. congruence.
Qed.

Lemma folder_disk (all_files : list str) :
  disk (delete_thumbnails_in_folder locked (Some all_files)) =
  filter (fun f => negb (is_image f && is_thumbnail f
                         && has_match (filter is_image all_files) f
                         && negb (locked f)))
         all_files.
Proof.
  unfold delete_thumbnails_in_folder.
  destruct all_files as [|f0 fs] eqn:Ea; [reflexivity|]. rewrite <- Ea.
  rewrite delete_loop_disk.
  replace (disk match filter is_thumbnail (filter is_image all_files) with
                | [] => mk_folder_state all_files 0 0 []
                | _ :: _ =>
                    say (LogFound (length (filter is_thumbnail (filter is_image all_files))))
                      (say LogProcessing (mk_folder_state all_files 0 0 []))
                end) with all_files
    by (now destruct (filter is_thumbnail (filter is_image all_files))).
  apply filter_ext_in. intros f Hf.
  fold (Spec.derivatives all_files). now rewrite mem_derivatives by exact Hf.
Qed.

(** The counters count the decisions to delete. *)
Lemma delete_loop_counters (image_files thumbnail_files : list str) (st : folder_state) :
  deleted (delete_loop locked image_files thumbnail_files st)
  + failed (delete_loop locked image_files thumbnail_files st) =
  deleted st + failed st
  + count_decision Spec.Delete (map (Spec.decision_of image_files) thumbnail_files).
Proof.
  revert st; induction thumbnail_files as [|t ts IH]; intros st.
  - simpl. unfold count_decision. simpl. lia.
  - cbn [delete_loop]. rewrite IH. unfold count_decision. cbn [map filter].
    unfold Spec.decision_of at 2, Spec.decide_for. cbn [snd].
    destruct (find_matching_main_files (get_base_name t) image_files) as [|m ms].
    + cbn [say deleted failed]. lia.
    + destruct (os_remove locked (disk st) t); cbn [deleted failed length]; lia.
Qed.

Lemma filter_one_out (d : list str) (t : str) :
  NoDup d -> In t d ->
  S (length (filter (fun g => negb (str_eqb g t)) d)) = length d.
Proof.
  induction d as [|a d IH]; intros Hnd Hin; [destruct Hin|].
  inversion Hnd as [|? ? Hna Hnd']; subst. cbn [filter length].
  destruct (str_eqb a t) eqn:E; cbn [negb].
  - apply str_eqb_eq in E. subst a. f_equal.
    f_equal. apply forallb_filter_id. apply forallb_forall. intros g Hg.
    apply negb_true_iff. destruct (str_eqb g t) eqn:E; [|reflexivity].
    apply str_eqb_eq in E. subst g. contradiction.
  - cbn [length]. f_equal. apply IH; [exact Hnd'|].
    destruct Hin as [->|Hin]; [|exact Hin]. now rewrite str_eqb_refl in E.
Qed.

(** Each deletion counted is one file less. *)
Lemma delete_loop_length (image_files thumbnail_files : list str) (st : folder_state) :
  NoDup (disk st) ->
  length (disk (delete_loop locked image_files thumbnail_files st))
  + deleted (delete_loop locked image_files thumbnail_files st) =
  length (disk st) + deleted st.
Proof.
  revert st; induction thumbnail_files as [|t ts IH]; intros st Hnd; [reflexivity|].
  cbn [delete_loop].
  destruct (find_matching_main_files (get_base_name t) image_files) as [|m ms].
  - rewrite IH by exact Hnd. reflexivity.
  - unfold os_remove. fold (mem t (disk st)).
    destruct (mem t (disk st) && negb (locked t)) eqn:E.
    + apply andb_true_iff in E as [Hin _]. apply mem_In in Hin.
      rewrite IH by (cbn [disk]; now apply NoDup_filter).
      cbn [disk deleted]. pose proof (@filter_one_out _ _ Hnd Hin). lia.
    + rewrite IH by exact Hnd. reflexivity.
Qed.

(** What the loop logs as deleted had a match. *)
Lemma delete_loop_deleted_matches (image_files thumbnail_files : list str)
  (st : folder_state) (t : str) (ms : list str) :
  In (LogDeleted t ms) (log (delete_loop locked image_files thumbnail_files st)) ->
  In (LogDeleted t ms) (log st) \/
  (ms = find_matching_main_files (get_base_name t) image_files /\ ms <> [] /\
   In t thumbnail_files /\ locked t = false).
Proof.
  revert st; induction thumbnail_files as [|t' ts IH]; intros st; simpl; [tauto|].
  intros H. apply IH in H as [H|(E & Hne & Hin & Hl)]; [|right; tauto].
  destruct (find_matching_main_files (get_base_name t') image_files) as [|m ms'] eqn:Hm.
  - simpl in H. apply in_app_or in H as [H|[H|[]]]; [now left | discriminate].
  - unfold os_remove in H.
    destruct (existsb (str_eqb t') (disk st)) eqn:Hin; cbn [andb] in H.
    + destruct (locked t') eqn:Hl; cbn [negb] in H; simpl in H;
        apply in_app_or in H as [H|[H|[]]]; try (now left); try discriminate.
      inversion H; subst. right. rewrite Hm. repeat split; auto. discriminate.
    + simpl in H. apply in_app_or in H as [H|[H|[]]]; [now left | discriminate].
Qed.

End DeleteFacts.

Section DeleteCounts.

Variable locked : str -> bool.

Lemma count_delete_has_match (image_files ts : list str) :
  count_decision Spec.Delete (map (Spec.decision_of image_files) ts) =
  length (filter (has_match image_files) ts).
Proof.
  unfold count_decision. induction ts as [|t ts IH]; [reflexivity|].
  cbn [map filter]. unfold Spec.decision_of at 1, Spec.decide_for, has_match at 1.
  cbn [snd].
  destruct (find_matching_main_files (get_base_name t) image_files);
    cbn [length]; now rewrite IH.
Qed.

Lemma derivatives_with_match (all_files : list str) :
  filter (has_match (filter is_image all_files)) (Spec.derivatives all_files) =
  filter (fun f => is_image f && is_thumbnail f
                   && has_match (filter is_image all_files) f) all_files.
Proof.
  unfold Spec.derivatives. rewrite !filter_filter.
  apply filter_ext. intros f. now rewrite andb_assoc.
Qed.

Lemma folder_counters (all_files : list str) :
  deleted (delete_thumbnails_in_folder locked (Some all_files))
  + failed (delete_thumbnails_in_folder locked (Some all_files)) =
  length (filter (fun f => is_image f && is_thumbnail f
                           && has_match (filter is_image all_files) f) all_files).
Proof.
  rewrite <- derivatives_with_match, <- count_delete_has_match.
  unfold delete_thumbnails_in_folder, Spec.derivatives.
  destruct all_files as [|f0 fs] eqn:Ea; [reflexivity|]. rewrite <- Ea.
  rewrite delete_loop_counters.
  now destruct (filter is_thumbnail (filter is_image all_files)).
Qed.

Lemma folder_length (all_files : list str) :
  NoDup all_files ->
  length (disk (delete_thumbnails_in_folder locked (Some all_files)))
  + deleted (delete_thumbnails_in_folder locked (Some all_files)) =
  length all_files.
Proof.
  intros Hnd. unfold delete_thumbnails_in_folder.
  destruct all_files as [|f0 fs] eqn:Ea; [reflexivity|]. rewrite <- Ea in *.
  rewrite delete_loop_length;
    destruct (filter is_thumbnail (filter is_image all_files)); simpl; auto.
Qed.

Lemma filter_split_length {A : Type} (p q : A -> bool) (l : list A) :
  length (filter (fun a => p a && negb (q a)) l)
  + length (filter (fun a => p a && q a) l) =
  length (filter p l).
Proof.
  induction l as [|a l IH]; [reflexivity|].
  cbn [filter]. destruct (p a), (q a); cbn [andb negb length]; lia.
Qed.

Lemma filter_negb_length {A : Type} (p : A -> bool) (l : list A) :
  length (filter (fun a => negb (p a)) l) + length (filter p l) = length l.
Proof.
  induction l as [|a l IH]; [reflexivity|].
  cbn [filter]. destruct (p a); cbn [negb length]; lia.
Qed.

Lemma folder_keeps_main (all_files : list str) (f : str) :
  In f all_files -> is_image f = false \/ is_thumbnail f = false ->
  In f (disk (delete_thumbnails_in_folder locked (Some all_files))).
Proof.
  intros Hin H. rewrite folder_disk. apply filter_In. split; [exact Hin|].
  destruct H as [H|H]; rewrite H; now rewrite ?andb_false_r.
Qed.

End DeleteCounts.

(** X1: after [delete_thumbnails_in_folder] the folder holds the files it
    listed, less the derivative images that have a matching main file and
    are not locked; so a file that is not an image, or that the detector
    classifies as a main file, is never removed. *)
Theorem folder_after_deletion (locked : str -> bool) (all_files : list str) :
  disk (delete_thumbnails_in_folder locked (Some all_files)) =
    filter (fun f => negb (is_image f && is_thumbnail f
                           && has_match (filter is_image all_files) f
                           && negb (locked f)))
           all_files /\
  (forall f, In f all_files -> is_image f = false \/ is_thumbnail f = false ->
             In f (disk (delete_thumbnails_in_folder locked (Some all_files)))).
Proof.
  split; [apply folder_disk | apply folder_keeps_main].
Qed.

Lemma folder_after_deletion_witness :
  In (lit "photo.jpg")
     (disk (delete_thumbnails_in_folder (fun _ => false)
              (Some [lit "photo.jpg"; lit "photo-150x150.jpg"; lit "notes-10x10.txt"]))) /\
  In (lit "notes-10x10.txt")
     (disk (delete_thumbnails_in_folder (fun _ => false)
              (Some [lit "photo.jpg"; lit "photo-150x150.jpg"; lit "notes-10x10.txt"]))).
Proof.
  split;
    apply (proj2 (folder_after_deletion (fun _ => false)
                    [lit "photo.jpg"; lit "photo-150x150.jpg"; lit "notes-10x10.txt"])).
  - simpl. tauto.
  - now right.
  - simpl. tauto.
  - now left.
Defined.

(** X2: a derivative is logged as deleted only with the main files it
    matched, of which there is at least one, and these are still in the
    folder when [delete_thumbnails_in_folder] returns. *)
Theorem deleted_derivative_leaves_mains (locked : str -> bool) (all_files : list str)
  (t : str) (ms : list str) :
  In (LogDeleted t ms) (log (delete_thumbnails_in_folder locked (Some all_files))) ->
  ms <> [] /\
  In t (Spec.derivatives all_files) /\
  ~ In t (disk (delete_thumbnails_in_folder locked (Some all_files))) /\
  forall m, In m ms ->
            is_thumbnail m = false /\
            In m (disk (delete_thumbnails_in_folder locked (Some all_files))).
Proof.
  intros Hlog.
  assert (H : ms = find_matching_main_files (get_base_name t) (filter is_image all_files)
              /\ ms <> [] /\ In t (Spec.derivatives all_files) /\ locked t = false).
  { unfold delete_thumbnails_in_folder in Hlog.
    destruct all_files as [|f0 fs] eqn:Ea; [destruct Hlog|]. rewrite <- Ea in *.
    apply delete_loop_deleted_matches in Hlog as [Hlog|Hlog]; [|exact Hlog].
    exfalso. destruct (filter is_thumbnail (filter is_image all_files));
      simpl in Hlog; intuition discriminate. }
  destruct H as (E & Hne & Hd & Hl). split; [exact Hne|]. split; [exact Hd|]. split.
  - rewrite folder_disk. intros Hin. apply filter_In in Hin as [_ Hin].
    unfold Spec.derivatives in Hd. apply filter_In in Hd as [Hd Ht].
    apply filter_In in Hd as [_ Hi]. rewrite Hi, Ht, Hl in Hin.
    unfold has_match in Hin. rewrite <- E in Hin. destruct ms; [congruence|discriminate].
  - intros m Hm. rewrite E in Hm. unfold find_matching_main_files in Hm.
    apply find_matching_loop_In in Hm as (Hin & Hth & _).
    apply filter_In in Hin as [Hin _]. split; [exact Hth|].
    apply folder_keeps_main; [exact Hin | now right].
Qed.

Lemma deleted_derivative_leaves_mains_witness :
  In (lit "photo.jpg")
     (disk (delete_thumbnails_in_folder (fun _ => false)
              (Some [lit "photo.jpg"; lit "photo-150x150.jpg"]))).
Proof.
  assert (H : In (LogDeleted (lit "photo-150x150.jpg") [lit "photo.jpg"])
                 (log (delete_thumbnails_in_folder (fun _ => false)
                         (Some [lit "photo.jpg"; lit "photo-150x150.jpg"]))))
    by (vm_compute; tauto).
  apply (proj2 (proj2 (proj2 (deleted_derivative_leaves_mains _ _ _ _ H)))).
  now left.
Defined.

(** X3: when the listing names no file twice, [deleted] is the number of
    derivative images with a match that are not locked, [failed] the
    number of those that are locked, and each deletion counted is one file
    less in the folder. *)
Theorem folder_counters_exact (locked : str -> bool) (all_files : list str) :
  NoDup all_files ->
  deleted (delete_thumbnails_in_folder locked (Some all_files)) =
    length (filter (fun f => is_image f && is_thumbnail f
                             && has_match (filter is_image all_files) f
                             && negb (locked f)) all_files) /\
  failed (delete_thumbnails_in_folder locked (Some all_files)) =
    length (filter (fun f => is_image f && is_thumbnail f
                             && has_match (filter is_image all_files) f
                             && locked f) all_files) /\
  length (disk (delete_thumbnails_in_folder locked (Some all_files)))
  + deleted (delete_thumbnails_in_folder locked (Some all_files)) =
    length all_files.
Proof.
  intros Hnd.
  pose proof (folder_length locked Hnd) as Hlen.
  pose proof (folder_counters locked all_files) as Hsum.
  pose proof (filter_split_length
                (fun f => is_image f && is_thumbnail f
                          && has_match (filter is_image all_files) f)
                locked all_files) as Hsplit.
  pose proof (filter_negb_length
                (fun f => is_image f && is_thumbnail f
                          && has_match (filter is_image all_files) f
                          && negb (locked f)) all_files) as Hneg.
  pose proof Hlen as Hlen'. rewrite folder_disk in Hlen'. cbv beta in *.
  repeat split; lia.
Qed.

Lemma folder_counters_exact_witness :
  deleted (delete_thumbnails_in_folder (fun _ => false)
             (Some [lit "photo.jpg"; lit "photo-150x150.jpg"])) = 1.
Proof.
  apply (proj1 (@folder_counters_exact (fun _ => false)
                  [lit "photo.jpg"; lit "photo-150x150.jpg"]
                  ltac:(repeat constructor; simpl; intuition discriminate))).
Defined.

(** ** The totals of the recursive deletion and of the preview *)
Section Totals.

Variable locked : str -> bool.

Lemma folder_deletable (listing : option (list str)) :
  deleted (delete_thumbnails_in_folder locked listing)
  + failed (delete_thumbnails_in_folder locked listing) = deletable listing.
Proof.
  destruct listing as [all_files|]; [apply folder_counters | reflexivity].
Qed.

Lemma cleanup_fold (walk : list (option (list str))) (st : cleanup_state) :
  let c := fold_left (cleanup_step locked) walk st in
  visited c = visited st ++ map (delete_thumbnails_in_folder locked) walk /\
  total_deleted c + total_failed c =
    total_deleted st + total_failed st + list_sum (map deletable walk) /\
  folders_processed c =
    folders_processed st + length (filter (fun l => 0 <? deletable l) walk).
Proof.
  revert st; induction walk as [|l walk IH]; intros st; cbn [fold_left map filter].
  - cbn [length list_sum fold_right]. rewrite app_nil_r. repeat split; lia.
  - destruct (IH (cleanup_step locked st l)) as (Hv & Hs & Hp).
    cbv zeta in *. rewrite Hv, Hs, Hp.
    pose proof (folder_deletable l) as Hd.
    unfold cleanup_step. cbn [visited total_deleted total_failed folders_processed].
    change (list_sum (deletable l :: map deletable walk))
      with (deletable l + list_sum (map deletable walk)).
    split; [now rewrite <- app_assoc|]. split; [lia|].
    destruct (deleted (delete_thumbnails_in_folder locked l)) as [|n] eqn:Ed,
             (failed (delete_thumbnails_in_folder locked l)) as [|k] eqn:Ef;
      rewrite <- Hd; cbn [Nat.ltb Nat.leb orb Nat.add length]; lia.
Qed.

End Totals.

(** X4: [delete_thumbnails] visits every folder of the walk in turn; the
    deletions and the failures of its summary add up to the number of
    derivative images, over the folders it could read, that have a
    matching main file in their own folder, and the folders it counts as
    processed are those that hold at least one such derivative. *)
Theorem delete_thumbnails_summary (locked : str -> bool) (walk : list (option (list str))) :
  visited (delete_thumbnails locked walk) =
    map (delete_thumbnails_in_folder locked) walk /\
  total_deleted (delete_thumbnails locked walk)
  + total_failed (delete_thumbnails locked walk) =
    list_sum (map deletable walk) /\
  folders_processed (delete_thumbnails locked walk) =
    length (filter (fun l => 0 <? deletable l) walk).
Proof.
  unfold delete_thumbnails.
  destruct (cleanup_fold locked walk (mk_cleanup_state 0 0 0 [])) as (Hv & Hs & Hp).
  cbv zeta in *. cbn [visited total_deleted total_failed folders_processed app Nat.add] in *.
  now rewrite Hv, Hs, Hp.
Qed.

(** ** The counters of the preview *)
Section PreviewCounters.

Lemma count_decision_app (k : Spec.decision) (l1 l2 : list (str * Spec.decision)) :
  count_decision k (l1 ++ l2) = count_decision k l1 + count_decision k l2.
Proof. unfold count_decision. now rewrite filter_app, length_app. Qed.

Lemma count_decision_total (l : list (str * Spec.decision)) :
  count_decision Spec.Delete l + count_decision Spec.Retain l = length l.
Proof.
  unfold count_decision. induction l as [|[t []] l IH]; cbn [filter snd length]; lia.
Qed.

Lemma count_decision_firstn (k : Spec.decision) (n : nat) (l : list (str * Spec.decision)) :
  count_decision k (firstn n l) <= count_decision k l.
Proof.
  unfold count_decision. revert n; induction l as [|p l IH]; intros [|n];
    cbn [firstn filter length]; try lia.
  specialize (IH n).
  destruct (match snd p, k with
            | Spec.Delete, Spec.Delete => true
            | Spec.Retain, Spec.Retain => true
            | _, _ => false
            end); cbn [length]; lia.
Qed.

Lemma preview_loop_counters (image_files sample : list str) (st : preview_state) :
  same_totals (preview_loop image_files sample st) st /\
  would_delete (preview_loop image_files sample st) =
    would_delete st
    + count_decision Spec.Delete (map (Spec.decision_of image_files) sample) /\
  would_skip (preview_loop image_files sample st) =
    would_skip st
    + count_decision Spec.Retain (map (Spec.decision_of image_files) sample).
Proof.
  revert st; induction sample as [|t ts IH]; intros st; cbn [preview_loop map].
  - unfold same_totals, count_decision. cbn [filter length]. repeat split; lia.
  - assert (Hc : forall k,
              count_decision k (Spec.decision_of image_files t
                                :: map (Spec.decision_of image_files) ts) =
              count_decision k [Spec.decision_of image_files t]
              + count_decision k (map (Spec.decision_of image_files) ts))
      by (intros k; apply (count_decision_app k [_])).
    rewrite !Hc. unfold Spec.decision_of at 1 3, Spec.decide_for.
    destruct (find_matching_main_files (get_base_name t) image_files) as [|m ms];
      match goal with |- context [preview_loop _ _ ?s] =>
        destruct (IH s) as ((H1 & H2 & H3 & H4 & H5) & Hd & Hs) end;
      unfold same_totals; rewrite H1, H2, H3, H4, H5, Hd, Hs;
      cbn [total_files total_images total_mains total_thumbs folders_with_thumbs
             would_delete would_skip];
      change (count_decision Spec.Retain [(t, Spec.Retain)]) with 1;
      change (count_decision Spec.Delete [(t, Spec.Delete)]) with 1;
      change (count_decision Spec.Delete [(t, Spec.Retain)]) with 0;
      change (count_decision Spec.Retain [(t, Spec.Delete)]) with 0;
      repeat split; lia.
Qed.

(** What one folder adds to the counters. *)
Lemma preview_folder_counters (st : preview_state) (all_files : list str) :
  total_files (preview_folder st all_files) = total_files st + length all_files /\
  total_images (preview_folder st all_files) =
    total_images st + length (filter is_image all_files) /\
  total_thumbs (preview_folder st all_files) =
    total_thumbs st + length (Spec.derivatives all_files) /\
  total_mains (preview_folder st all_files) =
    total_mains st
    + match Spec.derivatives all_files with
      | [] => 0
      | _ :: _ => length (filter is_image all_files) - length (Spec.derivatives all_files)
      end /\
  folders_with_thumbs (preview_folder st all_files) =
    folders_with_thumbs st
    + match Spec.derivatives all_files with [] => 0 | _ :: _ => 1 end /\
  would_delete (preview_folder st all_files) =
    would_delete st
    + count_decision Spec.Delete
        (firstn 3 (map (Spec.decision_of (filter is_image all_files))
                     (Spec.derivatives all_files))) /\
  would_skip (preview_folder st all_files) =
    would_skip st
    + count_decision Spec.Retain
        (firstn 3 (map (Spec.decision_of (filter is_image all_files))
                     (Spec.derivatives all_files))).
Proof.
  unfold preview_folder, Spec.derivatives.
  destruct all_files as [|f0 fs] eqn:Ea.
  { unfold count_decision. cbn. repeat split; lia. }
  rewrite <- Ea. clear Ea f0 fs.
  destruct (filter is_thumbnail (filter is_image all_files)) as [|t ts] eqn:Et.
  { unfold count_decision.
    cbn [total_files total_images total_mains total_thumbs folders_with_thumbs
           would_delete would_skip map firstn filter length].
    repeat split; lia. }
  rewrite firstn_map.
  match goal with |- context [preview_loop ?i ?s ?s0] =>
    destruct (preview_loop_counters i s s0) as ((H1 & H2 & H3 & H4 & H5) & Hd & Hs);
    set (r := preview_loop i s s0) in * end.
  cbn [total_files total_images total_mains total_thumbs folders_with_thumbs
         would_delete would_skip] in H1, H2, H3, H4, H5, Hd, Hs.
  destruct (3 <? length (t :: ts)); unfold psay;
    cbn [total_files total_images total_mains total_thumbs folders_with_thumbs
           would_delete would_skip];
    rewrite H1, H2, H3, H4, H5, Hd, Hs; repeat split; lia.
Qed.

End PreviewCounters.

Section PreviewTotals.

Lemma fold_left_invariant {A B : Type} (P : A -> Prop) (f : A -> B -> A)
  (l : list B) (a : A) :
  P a -> (forall a b, P a -> P (f a b)) -> P (fold_left f l a).
Proof.
  intros Ha Hf. revert a Ha; induction l as [|b l IH]; intros a Ha; simpl; auto.
Qed.

Lemma filter_length_le {A : Type} (p : A -> bool) (l : list A) :
  length (filter p l) <= length l.
Proof.
  induction l as [|a l IH]; simpl; [lia|]. destruct (p a); simpl; lia.
Qed.

Lemma sample_length (image_files ds : list str) :
  count_decision Spec.Delete (firstn 3 (map (Spec.decision_of image_files) ds))
  + count_decision Spec.Retain (firstn 3 (map (Spec.decision_of image_files) ds))
  = Nat.min 3 (length ds).
Proof. now rewrite count_decision_total, length_firstn, length_map. Qed.

Lemma preview_folder_bounds (st : preview_state) (all_files : list str) :
  total_mains st + total_thumbs st <= total_images st <= total_files st ->
  total_mains (preview_folder st all_files) + total_thumbs (preview_folder st all_files)
    <= total_images (preview_folder st all_files)
    <= total_files (preview_folder st all_files).
Proof.
  intros H.
  destruct (preview_folder_counters st all_files) as (H1 & H2 & H3 & H4 & _).
  rewrite H1, H2, H3, H4.
  pose proof (filter_length_le is_image all_files).
  pose proof (filter_length_le is_thumbnail (filter is_image all_files)) as Hd.
  fold (Spec.derivatives all_files) in Hd.
  destruct (Spec.derivatives all_files); cbn [length] in *; lia.
Qed.

Lemma preview_folder_sample (st : preview_state) (all_files : list str) :
  would_delete st = count_decision Spec.Delete (Spec.preview_decisions st) /\
  would_skip st = count_decision Spec.Retain (Spec.preview_decisions st) /\
  would_delete st + would_skip st <= total_thumbs st /\
  would_delete st + would_skip st <= 3 * folders_with_thumbs st ->
  would_delete (preview_folder st all_files) =
    count_decision Spec.Delete (Spec.preview_decisions (preview_folder st all_files)) /\
  would_skip (preview_folder st all_files) =
    count_decision Spec.Retain (Spec.preview_decisions (preview_folder st all_files)) /\
  would_delete (preview_folder st all_files) + would_skip (preview_folder st all_files)
    <= total_thumbs (preview_folder st all_files) /\
  would_delete (preview_folder st all_files) + would_skip (preview_folder st all_files)
    <= 3 * folders_with_thumbs (preview_folder st all_files).
Proof.
  intros (Hd & Hs & Ht & Hf).
  destruct (preview_folder_counters st all_files) as (_ & _ & H3 & _ & H5 & H6 & H7).
  rewrite preview_folder_decisions, !count_decision_app, H3, H5, H6, H7.
  pose proof (sample_length (filter is_image all_files) (Spec.derivatives all_files)) as Hl.
  destruct (Spec.derivatives all_files) as [|d ds]; cbn [length] in *;
    repeat split; lia.
Qed.

Lemma preview_fold_would_delete (walk : list (list str)) (st : preview_state) :
  would_delete (fold_left preview_folder walk st) =
  would_delete st
  + list_sum (map (fun all_files =>
                     count_decision Spec.Delete
                       (firstn 3 (map (Spec.decision_of (filter is_image all_files))
                                    (Spec.derivatives all_files)))) walk).
Proof.
  revert st; induction walk as [|files walk IH]; intros st; cbn [fold_left map].
  - cbn. lia.
  - rewrite IH. destruct (preview_folder_counters st files) as (_ & _ & _ & _ & _ & H6 & _).
    rewrite H6.
    match goal with |- context [list_sum (?a :: ?l)] =>
      change (list_sum (a :: l)) with (a + list_sum l) end.
    lia.
Qed.

Lemma deletable_count (all_files : list str) :
  deletable (Some all_files) =
  count_decision Spec.Delete
    (map (Spec.decision_of (filter is_image all_files)) (Spec.derivatives all_files)).
Proof.
  unfold deletable. now rewrite count_delete_has_match, derivatives_with_match.
Qed.

Lemma list_sum_cons (a : nat) (l : list nat) : list_sum (a :: l) = a + list_sum l.
Proof. reflexivity. Qed.

Lemma sample_sum_le (walk : list (list str)) :
  list_sum (map (fun all_files =>
                   count_decision Spec.Delete
                     (firstn 3 (map (Spec.decision_of (filter is_image all_files))
                                  (Spec.derivatives all_files)))) walk)
  <= list_sum (map (fun all_files => deletable (Some all_files)) walk).
Proof.
  induction walk as [|files walk IH]; [cbn; lia|].
  cbn [map]. rewrite !list_sum_cons, deletable_count.
  pose proof (count_decision_firstn Spec.Delete 3
                (map (Spec.decision_of (filter is_image files))
                   (Spec.derivatives files))).
  lia.
Qed.

Lemma sample_sum_eq (walk : list (list str)) :
  Forall (fun all_files => length (Spec.derivatives all_files) <= 3) walk ->
  list_sum (map (fun all_files =>
                   count_decision Spec.Delete
                     (firstn 3 (map (Spec.decision_of (filter is_image all_files))
                                  (Spec.derivatives all_files)))) walk)
  = list_sum (map (fun all_files => deletable (Some all_files)) walk).
Proof.
  induction 1 as [|files walk Hf Hw IH]; [reflexivity|].
  cbn [map]. rewrite !list_sum_cons, deletable_count, IH.
  rewrite firstn_all2 by (now rewrite length_map). reflexivity.
Qed.

End PreviewTotals.

(** X5: the two counts of the preview's summary are the numbers of
    [Would DELETE] and of [Would KEEP] lines that it logged; together they
    are at most three for each folder that has thumbnails, and at most the
    number of thumbnails of the summary. *)
Theorem preview_summary_counts_the_sample (walk : list (list str)) :
  would_delete (preview_cleanup walk) =
    count_decision Spec.Delete (Spec.preview_decisions (preview_cleanup walk)) /\
  would_skip (preview_cleanup walk) =
    count_decision Spec.Retain (Spec.preview_decisions (preview_cleanup walk)) /\
  would_delete (preview_cleanup walk) + would_skip (preview_cleanup walk)
    <= total_thumbs (preview_cleanup walk) /\
  would_delete (preview_cleanup walk) + would_skip (preview_cleanup walk)
    <= 3 * folders_with_thumbs (preview_cleanup walk).
Proof.
  unfold preview_cleanup. cbv zeta.
  set (st := fold_left preview_folder walk preview_start).
  assert (H : would_delete st = count_decision Spec.Delete (Spec.preview_decisions st) /\
              would_skip st = count_decision Spec.Retain (Spec.preview_decisions st) /\
              would_delete st + would_skip st <= total_thumbs st /\
              would_delete st + would_skip st <= 3 * folders_with_thumbs st).
  { unfold st. apply fold_left_invariant.
    - cbn. repeat split; lia.
    - intros a b. apply preview_folder_sample. }
  assert (E : Spec.preview_decisions
                (psay (PvSummary (folders_with_thumbs st) (total_files st)
                         (total_images st) (total_mains st) (total_thumbs st)
                         (would_delete st) (would_skip st)) st) =
              Spec.preview_decisions st).
  { unfold Spec.preview_decisions, psay. cbn [plog]. rewrite omap_app. cbn.
    apply app_nil_r. }
  rewrite E. unfold psay.
  cbn [would_delete would_skip total_thumbs folders_with_thumbs]. exact H.
Qed.

(** X6: in the preview's summary the main files and the thumbnails are at
    most the image files, which are at most the files (main files are only
    counted in the folders that have a thumbnail). *)
Theorem preview_summary_totals_ordered (walk : list (list str)) :
  total_mains (preview_cleanup walk) + total_thumbs (preview_cleanup walk)
    <= total_images (preview_cleanup walk) /\
  total_images (preview_cleanup walk) <= total_files (preview_cleanup walk) /\
  In (PvSummary (folders_with_thumbs (preview_cleanup walk))
        (total_files (preview_cleanup walk)) (total_images (preview_cleanup walk))
        (total_mains (preview_cleanup walk)) (total_thumbs (preview_cleanup walk))
        (would_delete (preview_cleanup walk)) (would_skip (preview_cleanup walk)))
     (plog (preview_cleanup walk)).
Proof.
  unfold preview_cleanup. cbv zeta.
  set (st := fold_left preview_folder walk preview_start).
  assert (H : total_mains st + total_thumbs st <= total_images st <= total_files st).
  { unfold st. apply fold_left_invariant.
    - cbn. lia.
    - intros a b. apply preview_folder_bounds. }
  unfold psay.
  cbn [total_mains total_thumbs total_images total_files folders_with_thumbs
         would_delete would_skip plog].
  split; [lia|]. split; [lia|]. apply in_or_app. right. now left.
Qed.

(** X7: on the same listings the preview's count of deletions is at most
    the deletions and failures that [delete_thumbnails] reports, and equal
    to them when no folder has more than three derivative images. *)
Theorem preview_count_below_cleanup (locked : str -> bool) (walk : list (list str)) :
  would_delete (preview_cleanup walk) <=
    total_deleted (delete_thumbnails locked (map Some walk))
    + total_failed (delete_thumbnails locked (map Some walk)) /\
  (Forall (fun all_files => length (Spec.derivatives all_files) <= 3) walk ->
   would_delete (preview_cleanup walk) =
     total_deleted (delete_thumbnails locked (map Some walk))
     + total_failed (delete_thumbnails locked (map Some walk))).
Proof.
  destruct (cleanup_fold locked (map Some walk) (mk_cleanup_state 0 0 0 []))
    as (_ & Hs & _).
  cbv zeta in Hs. cbn [total_deleted total_failed Nat.add] in Hs.
  fold (delete_thumbnails locked (map Some walk)) in Hs.
  rewrite Hs. unfold preview_cleanup, psay. cbv zeta. cbn [would_delete].
  rewrite preview_fold_would_delete. cbn [preview_start would_delete Nat.add].
  rewrite map_map. split.
  - apply sample_sum_le.
  - apply sample_sum_eq.
Qed.

Lemma preview_count_below_cleanup_witness :
  would_delete (preview_cleanup [[lit "photo.jpg"; lit "photo-150x150.jpg"]]) =
  total_deleted (delete_thumbnails (fun _ => false)
                   (map Some [[lit "photo.jpg"; lit "photo-150x150.jpg"]]))
  + total_failed (delete_thumbnails (fun _ => false)
                    (map Some [[lit "photo.jpg"; lit "photo-150x150.jpg"]])).
Proof.
  apply (proj2 (preview_count_below_cleanup (fun _ => false)
                  [[lit "photo.jpg"; lit "photo-150x150.jpg"]])).
  repeat constructor.
Defined.

(** ** The copy of the remaining files *)
Section MoveFacts.

Variable data : Type.
Variable copy_fails : str -> data -> bool.

Lemma copy_walk_flat (walk : list (list (str * data))) (st : copy_state data) :
  copy_walk copy_fails walk st = fold_left (copy_file copy_fails) (concat walk) st.
Proof.
  unfold copy_walk. revert st; induction walk as [|files walk IH]; intros st;
    [reflexivity|].
  cbn [fold_left concat]. now rewrite fold_left_app, IH.
Qed.

Lemma exists_in_app (d1 d2 : list (str * data)) (file : str) :
  exists_in (d1 ++ d2) file = exists_in d1 file || exists_in d2 file.
Proof. apply existsb_app. Qed.

Lemma exists_in_names (d : list (str * data)) (file : str) :
  exists_in d file = true <-> In file (map fst d).
Proof.
  unfold exists_in. rewrite existsb_exists, in_map_iff. split.
  - intros (e & Hin & E). apply str_eqb_eq in E. now exists e.
  - intros (e & E & Hin). exists e. split; [exact Hin | now apply str_eqb_eq].
Qed.

Lemma copy_file_step (st : copy_state data) (f : str * data) :
  (is_thumbnail (fst f) = true /\ copy_file copy_fails st f = st) \/
  (is_thumbnail (fst f) = false /\
   destination (copy_file copy_fails st f) = destination st /\
   copied (copy_file copy_fails st f) = copied st /\
   skipped (copy_file copy_fails st f) + copy_failed (copy_file copy_fails st f) =
     S (skipped st + copy_failed st)) \/
  (is_thumbnail (fst f) = false /\
   exists_in (destination st) (fst f) = false /\
   copy_fails (fst f) (snd f) = false /\
   destination (copy_file copy_fails st f) = destination st ++ [f] /\
   copied (copy_file copy_fails st f) = S (copied st) /\
   skipped (copy_file copy_fails st f) = skipped st /\
   copy_failed (copy_file copy_fails st f) = copy_failed st).
Proof.
  unfold copy_file. destruct (is_thumbnail (fst f)); [now left|]. right.
  destruct (exists_in (destination st) (fst f)); [left; cbn; auto|].
  destruct (copy_fails (fst f) (snd f)); [left | right]; cbn; repeat split; auto.
Qed.

(** What the files of the walk add to the destination, and to the
    counters. *)
Lemma copy_files_spec (files : list (str * data)) (st : copy_state data) :
  exists added,
    destination (fold_left (copy_file copy_fails) files st) = destination st ++ added /\
    copied (fold_left (copy_file copy_fails) files st) = copied st + length added /\
    copied (fold_left (copy_file copy_fails) files st)
    + skipped (fold_left (copy_file copy_fails) files st)
    + copy_failed (fold_left (copy_file copy_fails) files st) =
      copied st + skipped st + copy_failed st
      + length (filter (fun f => negb (is_thumbnail (fst f))) files) /\
    Forall (fun f => is_thumbnail (fst f) = false /\ In f files /\
                     exists_in (destination st) (fst f) = false /\
                     copy_fails (fst f) (snd f) = false) added.
Proof.
  revert st; induction files as [|f files IH]; intros st.
  - exists []. cbn [fold_left filter length]. rewrite app_nil_r.
    repeat split; try lia. constructor.
  - cbn [fold_left filter].
    destruct (IH (copy_file copy_fails st f)) as (added & Hd & Hc & Hs & Hall).
    destruct (copy_file_step st f)
      as [(Ht & E) | [(Ht & E1 & E2 & E3) | (Ht & He & Hf & E1 & E2 & E3 & E4)]];
      rewrite Ht; cbn [negb length].
    + rewrite E in *. exists added. repeat split; try assumption; try lia.
      eapply Forall_impl; [|exact Hall]. intros g (H1 & H2 & H3 & H4).
      repeat split; auto. now right.
    + rewrite E1, E2 in *. exists added. repeat split; try assumption; try lia.
      eapply Forall_impl; [|exact Hall]. intros g (H1 & H2 & H3 & H4).
      repeat split; auto. now right.
    + rewrite E1, E2, E3, E4 in *. exists (f :: added).
      rewrite <- app_assoc in Hd. cbn [length app] in *.
      repeat split; try assumption; try lia. constructor.
      * repeat split; auto. now left.
      * eapply Forall_impl; [|exact Hall]. intros g (H1 & H2 & H3 & H4).
        repeat split; auto; [now right|].
        rewrite exists_in_app in H3. now apply orb_false_iff in H3.
Qed.

Lemma copy_file_names_unique (st : copy_state data) (f : str * data) :
  NoDup (map fst (destination st)) ->
  NoDup (map fst (destination (copy_file copy_fails st f))).
Proof.
  intros H. unfold copy_file.
  destruct (is_thumbnail (fst f)); [exact H|].
  destruct (exists_in (destination st) (fst f)) eqn:He; [exact H|].
  destruct (copy_fails (fst f) (snd f)); [exact H|].
  cbn [destination]. rewrite map_app. cbn [map].
  apply NoDup_app; [exact H | repeat constructor; intros [] |].
  intros a Ha [<-|[]]. apply exists_in_names in Ha. congruence.
Qed.

Lemma copy_file_keeps (st : copy_state data) (f : str * data) (file : str) :
  exists_in (destination st) file = true ->
  exists_in (destination (copy_file copy_fails st f)) file = true.
Proof.
  intros H. unfold copy_file.
  destruct (is_thumbnail (fst f)); [exact H|].
  destruct (exists_in (destination st) (fst f)); [exact H|].
  destruct (copy_fails (fst f) (snd f)); [exact H|].
  cbn [destination]. rewrite exists_in_app, H. reflexivity.
Qed.

(** A file of the walk that is not a thumbnail has its name in the
    destination afterwards, unless its copy failed. *)
Lemma copy_files_complete (files : list (str * data)) (st : copy_state data)
  (f : str * data) :
  In f files -> is_thumbnail (fst f) = false ->
  copy_fails (fst f) (snd f) = false ->
  exists_in (destination (fold_left (copy_file copy_fails) files st)) (fst f) = true.
Proof.
  intros Hin Ht Hf. revert st; induction files as [|g files IH]; intros st;
    [destruct Hin|].
  cbn [fold_left]. destruct Hin as [->|Hin]; [|now apply IH].
  apply fold_left_invariant; [|intros a b; apply copy_file_keeps].
  unfold copy_file. rewrite Ht.
  destruct (exists_in (destination st) (fst f)) eqn:He; [exact He|].
  rewrite Hf. cbn [destination]. rewrite exists_in_app. cbn.
  now rewrite str_eqb_refl, orb_true_r.
Qed.

End MoveFacts.

(** X8: [move_remaining_files] only adds to the destination: the entries
    that were there stay as they were and in their place, and each entry
    added is a file of the walk that the detector does not classify as a
    thumbnail and whose name the destination did not have; [copied] counts
    the entries added. *)
Theorem move_adds_only_main_files (data : Type) (copy_fails : str -> data -> bool)
  (d : list (str * data)) (walk : list (list (str * data))) :
  exists st added,
    move_remaining_files copy_fails (Some d) walk = Some st /\
    destination st = d ++ added /\
    copied st = length added /\
    Forall (fun f => is_thumbnail (fst f) = false /\ In f (concat walk) /\
                     exists_in d (fst f) = false) added.
Proof.
  unfold move_remaining_files. rewrite copy_walk_flat.
  destruct (copy_files_spec copy_fails (concat walk) (mk_copy_state d 0 0 0 []))
    as (added & Hd & Hc & _ & Hall).
  eexists. exists added. split; [reflexivity|].
  cbn [destination copied] in *. split; [exact Hd|]. split; [exact Hc|].
  eapply Forall_impl; [|exact Hall]. intros f (H1 & H2 & H3 & _). auto.
Qed.

(** X9: when no two entries of the destination have the same name, none
    have after [move_remaining_files]: of the files of the walk that share
    a name, one at most is copied. *)
Theorem move_keeps_names_unique (data : Type) (copy_fails : str -> data -> bool)
  (d : list (str * data)) (walk : list (list (str * data))) :
  NoDup (map fst d) ->
  exists st,
    move_remaining_files copy_fails (Some d) walk = Some st /\
    NoDup (map fst (destination st)).
Proof.
  intros H. unfold move_remaining_files. rewrite copy_walk_flat.
  eexists. split; [reflexivity|]. cbn [destination].
  apply fold_left_invariant; [exact H|].
  intros a b. apply copy_file_names_unique.
Qed.

Lemma move_keeps_names_unique_witness :
  exists st,
    move_remaining_files (fun (_ : str) (_ : nat) => false) (Some [(lit "photo.jpg", 1)])
      [[(lit "photo.jpg", 2); (lit "logo.png", 3)]; [(lit "logo.png", 4)]] = Some st /\
    NoDup (map fst (destination st)).
Proof.
  apply (@move_keeps_names_unique nat (fun _ _ => false) [(lit "photo.jpg", 1)]
           [[(lit "photo.jpg", 2); (lit "logo.png", 3)]; [(lit "logo.png", 4)]]).
  repeat constructor. intros [].
Defined.

(** X10: the three counters of [move_remaining_files] add up to the number
    of files of the walk that the detector does not classify as
    thumbnails, and the last line logged reports them. *)
Theorem move_counts_every_main_file (data : Type) (copy_fails : str -> data -> bool)
  (d : list (str * data)) (walk : list (list (str * data))) :
  exists st,
    move_remaining_files copy_fails (Some d) walk = Some st /\
    copied st + skipped st + copy_failed st =
      length (filter (fun f => negb (is_thumbnail (fst f))) (concat walk)) /\
    last (copy_log st) (CopyComplete 0 0 0) =
      CopyComplete (copied st) (skipped st) (copy_failed st).
Proof.
  unfold move_remaining_files. rewrite copy_walk_flat.
  destruct (copy_files_spec copy_fails (concat walk) (mk_copy_state d 0 0 0 []))
    as (added & _ & _ & Hs & _).
  eexists. split; [reflexivity|].
  cbn [copied skipped copy_failed copy_log] in *. split; [exact Hs|].
  apply last_last.
Qed.

(** X11: when no copy fails, every file of the walk that the detector does
    not classify as a thumbnail has its name in the destination
    afterwards, and nothing is counted as failed. *)
Theorem move_reaches_every_main_file (data : Type) (copy_fails : str -> data -> bool)
  (d : list (str * data)) (walk : list (list (str * data))) :
  (forall n c, copy_fails n c = false) ->
  exists st,
    move_remaining_files copy_fails (Some d) walk = Some st /\
    copy_failed st = 0 /\
    forall f, In f (concat walk) -> is_thumbnail (fst f) = false ->
              exists_in (destination st) (fst f) = true.
Proof.
  intros Hok. unfold move_remaining_files. rewrite copy_walk_flat.
  eexists. split; [reflexivity|]. cbn [destination copy_failed]. split.
  - apply fold_left_invariant; [reflexivity|].
    intros a b Ha. unfold copy_file.
    destruct (is_thumbnail (fst b)); [exact Ha|].
    destruct (exists_in (destination a) (fst b)); [exact Ha|].
    rewrite Hok. exact Ha.
  - intros f Hin Ht. now apply copy_files_complete.
Qed.

Lemma move_reaches_every_main_file_witness :
  exists st,
    move_remaining_files (fun (_ : str) (_ : nat) => false) (Some [])
      [[(lit "photo.jpg", 2); (lit "photo-150x150.jpg", 3)]] = Some st /\
    copy_failed st = 0 /\
    forall f, In f (concat [[(lit "photo.jpg", 2); (lit "photo-150x150.jpg", 3)]]) ->
              is_thumbnail (fst f) = false ->
              exists_in (destination st) (fst f) = true.
Proof.
  apply (@move_reaches_every_main_file nat (fun _ _ => false) []
           [[(lit "photo.jpg", 2); (lit "photo-150x150.jpg", 3)]]).
  reflexivity.
Defined.

(** ** The normalisation of names *)
Section NormalizeName.

Lemma replace_from_skip (old new : str) (n : nat) (x : str) :
  replace_from old new n x = replace_from old new 0 (skipn n x).
Proof.
  revert n; induction x as [|c x IH]; intros [|n]; simpl; try reflexivity.
  apply IH.
Qed.

(** [replace('--', '-')], one character at a time. *)
Lemma replace_hyphens_cons (c : ascii) (x : str) :
  replace_str (lit "--") (lit "-") (c :: x) =
  if Ascii.eqb c "-" && starts_hyphen x
  then "-"%char :: replace_str (lit "--") (lit "-") (tl x)
  else c :: replace_str (lit "--") (lit "-") x.
Proof.
  unfold replace_str. cbn [replace_from lit list_ascii_of_string startswith length Nat.sub].
  destruct (Ascii.eqb c "-"); cbn [andb]; [|reflexivity].
  destruct x as [|d x]; cbn [starts_hyphen]; [reflexivity|].
  destruct (Ascii.eqb d "-"); cbn [andb app tl]; [|reflexivity].
  now rewrite replace_from_skip.
Qed.

(** [replace('_.', '.')], one character at a time. *)
Lemma replace_underscore_dot_cons (c : ascii) (x : str) :
  replace_str (lit "_.") (lit ".") (c :: x) =
  if Ascii.eqb c "_" && startswith x (lit ".")
  then "."%char :: replace_str (lit "_.") (lit ".") (tl x)
  else c :: replace_str (lit "_.") (lit ".") x.
Proof.
  unfold replace_str. cbn [replace_from lit list_ascii_of_string startswith length Nat.sub].
  destruct (Ascii.eqb c "_"); cbn [andb]; [|reflexivity].
  destruct x as [|d x]; [reflexivity|].
  destruct (Ascii.eqb d "."); cbn [andb app tl]; [|reflexivity].
  now rewrite replace_from_skip.
Qed.

Lemma single_hyphens_cons (c : ascii) (x : str) :
  single_hyphens (c :: x) =
  negb (Ascii.eqb c "-" && starts_hyphen x) && single_hyphens x.
Proof. destruct x as [|d x]; [|reflexivity]. simpl. now rewrite andb_false_r. Qed.

Lemma single_hyphens_spec (x : str) :
  single_hyphens x = true <-> forall a b, x <> a ++ "-"%char :: "-"%char :: b.
Proof.
  induction x as [|c x IH].
  - split; [|reflexivity]. intros _ a b E. destruct a; discriminate.
  - rewrite single_hyphens_cons, andb_true_iff, IH. split.
    + intros [Hc Hx] a b E. destruct a as [|e a]; cbn [app] in E.
      * injection E as -> ->. discriminate.
      * injection E as _ E. now apply Hx in E.
    + intros H. split.
      * destruct (Ascii.eqb c "-") eqn:Hc; [|reflexivity].
        destruct x as [|d x]; [reflexivity|]. cbn [starts_hyphen andb].
        destruct (Ascii.eqb d "-") eqn:Hd; [|reflexivity].
        apply Ascii.eqb_eq in Hc, Hd. subst. exfalso. now apply (H [] x).
      * intros a b E. apply (H (c :: a) b). now rewrite E.
Qed.

Lemma starts_hyphen_replace_dot (x : str) :
  starts_hyphen (replace_str (lit "_.") (lit ".") x) = starts_hyphen x.
Proof.
  destruct x as [|c x]; [reflexivity|]. rewrite replace_underscore_dot_cons.
  destruct (Ascii.eqb c "_") eqn:Hc; cbn [andb]; [|reflexivity].
  apply Ascii.eqb_eq in Hc. subst c.
  now destruct (startswith x (lit ".")).
Qed.

Lemma single_hyphens_tl (x : str) :
  single_hyphens x = true -> single_hyphens (tl x) = true.
Proof.
  destruct x as [|c x]; [trivial|]. rewrite single_hyphens_cons.
  intros H. now apply andb_true_iff in H.
Qed.

Lemma replace_dot_single_bounded (n : nat) (x : str) :
  length x <= n -> single_hyphens x = true ->
  single_hyphens (replace_str (lit "_.") (lit ".") x) = true.
Proof.
  revert x; induction n as [|n IH]; intros x Hn Hx.
  - destruct x; [reflexivity | simpl in Hn; lia].
  - destruct x as [|c x]; [reflexivity|]. rewrite replace_underscore_dot_cons.
    pose proof Hx as Hx'. rewrite single_hyphens_cons in Hx'.
    apply andb_true_iff in Hx' as [Hc Ht].
    destruct (Ascii.eqb c "_" && startswith x (lit ".")) eqn:E.
    + rewrite single_hyphens_cons. cbn [Ascii.eqb Bool.eqb andb negb].
      apply IH; [|now apply single_hyphens_tl].
      destruct x; simpl in *; lia.
    + rewrite single_hyphens_cons, starts_hyphen_replace_dot, Hc. cbn [andb].
      apply IH; [simpl in Hn; lia | exact Ht].
Qed.

Lemma collapse_single (x : str) : single_hyphens (Spec.collapse_hyphens x) = true.
Proof. apply single_hyphens_spec. intros a b. apply collapse_no_double. Qed.

Lemma starts_hyphen_replace_hyphens (x : str) :
  starts_hyphen (replace_str (lit "--") (lit "-") x) = starts_hyphen x.
Proof.
  destruct x as [|c x]; [reflexivity|]. rewrite replace_hyphens_cons.
  destruct (Ascii.eqb c "-" && starts_hyphen x) eqn:E; cbn [starts_hyphen];
    [|reflexivity].
  apply andb_true_iff in E as [E _]. now rewrite E.
Qed.

Lemma span_no_hyphen (x : str) :
  starts_hyphen x = false -> snd (span is_hyphen x) = x.
Proof.
  destruct x as [|c x]; [reflexivity|]. cbn [starts_hyphen span]. unfold is_hyphen.
  now intros ->.
Qed.

Lemma span_hyphen_cons (x : str) :
  snd (span is_hyphen ("-"%char :: x)) = snd (span is_hyphen x).
Proof. reflexivity. Qed.

(** What follows the hyphens at the start, before and after
    [replace('--', '-')]. *)
Lemma span_replace_hyphens_bounded (n : nat) (x : str) :
  length x <= n ->
  snd (span is_hyphen (replace_str (lit "--") (lit "-") x)) =
  replace_str (lit "--") (lit "-") (snd (span is_hyphen x)).
Proof.
  revert x; induction n as [|n IH]; intros x Hn.
  - destruct x; [reflexivity | simpl in Hn; lia].
  - destruct x as [|c x]; [reflexivity|].
    destruct (Ascii.eqb c "-") eqn:Hc.
    + apply Ascii.eqb_eq in Hc. subst c. rewrite replace_hyphens_cons.
      cbn [Ascii.eqb Bool.eqb andb].
      destruct (starts_hyphen x) eqn:Hs; rewrite !span_hyphen_cons.
      * destruct x as [|d x]; [discriminate|]. cbn [starts_hyphen] in Hs.
        apply Ascii.eqb_eq in Hs. subst d. cbn [tl].
        rewrite !span_hyphen_cons. apply IH. simpl in Hn. lia.
      * rewrite (span_no_hyphen x Hs). apply span_no_hyphen.
        now rewrite starts_hyphen_replace_hyphens.
    + assert (Hs : starts_hyphen (c :: x) = false) by exact Hc.
      rewrite (span_no_hyphen _ Hs). apply span_no_hyphen.
      now rewrite starts_hyphen_replace_hyphens.
Qed.

Lemma collapse_replace_hyphens_bounded (n : nat) (x : str) :
  length x <= n ->
  Spec.collapse_hyphens (replace_str (lit "--") (lit "-") x) = Spec.collapse_hyphens x.
Proof.
  revert x; induction n as [|n IH]; intros x Hn.
  - destruct x; [reflexivity | simpl in Hn; lia].
  - destruct x as [|c x]; [reflexivity|].
    destruct (Ascii.eqb c "-") eqn:Hc.
    + apply Ascii.eqb_eq in Hc. subst c.
      assert (E : exists y, replace_str (lit "--") (lit "-") ("-"%char :: x) =
                            "-"%char :: replace_str (lit "--") (lit "-") y /\
                            snd (span is_hyphen y) = snd (span is_hyphen x) /\
                            length y <= n).
      { rewrite replace_hyphens_cons. cbn [Ascii.eqb Bool.eqb andb].
        destruct (starts_hyphen x) eqn:Hs.
        - destruct x as [|d x]; [discriminate|]. cbn [starts_hyphen] in Hs.
          apply Ascii.eqb_eq in Hs. subst d. exists x. cbn [tl].
          repeat split. simpl in Hn. lia.
        - exists x. repeat split. simpl in Hn. lia. }
      destruct E as (y & -> & Ey & Hy).
      rewrite !collapse_run. f_equal.
      rewrite (@span_replace_hyphens_bounded n y Hy), Ey.
      apply IH. pose proof (span_snd_length is_hyphen x). simpl in Hn. lia.
    + rewrite replace_hyphens_cons, Hc. cbn [andb].
      rewrite !collapse_cons, Hc. f_equal. apply IH. simpl in Hn. lia.
Qed.

Lemma replace_hyphens_id_bounded (n : nat) (x : str) :
  length x <= n -> single_hyphens x = true ->
  replace_str (lit "--") (lit "-") x = x.
Proof.
  revert x; induction n as [|n IH]; intros x Hn Hx.
  - destruct x; [reflexivity | simpl in Hn; lia].
  - destruct x as [|c x]; [reflexivity|]. rewrite replace_hyphens_cons.
    rewrite single_hyphens_cons in Hx. apply andb_true_iff in Hx as [Hc Ht].
    apply negb_true_iff in Hc. rewrite Hc. f_equal.
    apply IH; [simpl in Hn; lia | exact Ht].
Qed.

Lemma normalize_name_steps (f : str) :
  normalize_name f =
  replace_str (lit "_.") (lit ".") (Spec.collapse_hyphens f).
Proof.
  unfold normalize_name. rewrite sub_HYPHENS.
  now rewrite (@collapse_replace_hyphens_bounded (length f) f (le_n _)).
Qed.

Lemma normalize_name_no_double (f : str) :
  single_hyphens (normalize_name f) = true.
Proof.
  rewrite normalize_name_steps.
  apply (@replace_dot_single_bounded (length (Spec.collapse_hyphens f))); [lia|].
  apply collapse_single.
Qed.

End NormalizeName.

(** X12: the name that [normalize_filenames] computes for a file never has
    two hyphens in a row. *)
Theorem normalize_name_single_hyphens (f : str) :
  forall a b, normalize_name f <> a ++ lit "--" ++ b.
Proof. apply single_hyphens_spec. apply normalize_name_no_double. Qed.

(** X13: the first step of the normalisation, [replace('--', '-')], changes
    nothing in its result: the name computed is that of the two other
    steps, the collapse of the runs of hyphens and [replace('_.', '.')]. *)
Theorem normalize_name_first_step_subsumed (f : str) :
  normalize_name f =
  replace_str (lit "_.") (lit ".") (Re.sub false HYPHENS (lit "-") f).
Proof. rewrite normalize_name_steps. now rewrite sub_HYPHENS. Qed.

(** X14: normalising a normalised name only applies [replace('_.', '.')]
    again, which can still find an underscore before a dot. *)
Theorem normalize_name_twice (f : str) :
  normalize_name (normalize_name f) =
  replace_str (lit "_.") (lit ".") (normalize_name f).
Proof.
  rewrite (normalize_name_steps (normalize_name f)). f_equal.
  apply collapse_id. apply single_hyphens_spec. apply normalize_name_no_double.
Qed.

(** ** The normalisation of a folder *)
Section NormalizeFolder.

Variable refused : str -> str -> bool.

Lemma isfile_In (d : list entry) (f : str) :
  isfile d f = true <-> In (f, true) d.
Proof.
  unfold isfile. rewrite existsb_exists. split.
  - intros ([n k] & Hin & E). cbn [fst snd] in E.
    apply andb_true_iff in E as [E ->]. apply str_eqb_eq in E. now subst n.
  - intros H. exists (f, true). split; [exact H|]. cbn. now rewrite str_eqb_refl.
Qed.

Lemma is_dir_entry_In (d : list entry) (f : str) :
  is_dir_entry d f = true <-> In (f, false) d.
Proof.
  unfold is_dir_entry. rewrite existsb_exists. split.
  - intros ([n k] & Hin & E). cbn [fst snd] in E.
    apply andb_true_iff in E as [E Hk]. apply str_eqb_eq in E. subst n.
    destruct k; [discriminate | exact Hin].
  - intros H. exists (f, false). split; [exact H|]. cbn. now rewrite str_eqb_refl.
Qed.

Lemma without_In (name : str) (d : list entry) (e : entry) :
  In e (without name d) <-> In e d /\ fst e <> name.
Proof.
  unfold without. rewrite filter_In, negb_true_iff. split; intros [H1 H2];
    (split; [exact H1|]).
  - intros E. rewrite E, str_eqb_refl in H2. discriminate.
  - destruct (str_eqb (fst e) name) eqn:E; [|reflexivity].
    apply str_eqb_eq in E. contradiction.
Qed.

Lemma names_filter_NoDup (p : entry -> bool) (d : list entry) :
  NoDup (names d) -> NoDup (names (filter p d)).
Proof.
  unfold names. induction d as [|e d IH]; intros H; [constructor|].
  cbn [map] in H. inversion H as [|? ? Hn Hd]; subst. cbn [filter].
  destruct (p e); [|now apply IH]. cbn [map]. constructor; [|now apply IH].
  intros Hin. apply Hn. apply in_map_iff in Hin as (e' & E & Hin).
  apply filter_In in Hin as [Hin _]. apply in_map_iff. now exists e'.
Qed.

Lemma names_unique (d : list entry) (n : str) (k k' : bool) :
  NoDup (names d) -> In (n, k) d -> In (n, k') d -> k = k'.
Proof.
  unfold names. induction d as [|e d IH]; intros H H1 H2; [destruct H1|].
  cbn [map] in H. inversion H as [|? ? Hn Hd]; subst.
  destruct H1 as [->|H1], H2 as [E|H2].
  - now inversion E.
  - exfalso. apply Hn. cbn [fst]. apply in_map_iff. now exists (n, k').
  - subst e. exfalso. apply Hn. cbn [fst]. apply in_map_iff. now exists (n, k).
  - now apply IH.
Qed.

Lemma without_length (name : str) (d : list entry) :
  length (without name d) <= length d.
Proof. apply filter_length_le. Qed.

Lemma without_length_lt (name : str) (k : bool) (d : list entry) :
  In (name, k) d -> S (length (without name d)) <= length d.
Proof.
  unfold without. induction d as [|e d IH]; intros H; [destruct H|].
  cbn [filter]. destruct H as [->|H].
  - cbn [fst]. rewrite str_eqb_refl. cbn [negb length].
    apply le_n_S, filter_length_le.
  - specialize (IH H). destruct (negb (str_eqb (fst e) name)); cbn [length] in *; lia.
Qed.

(** What one successful rename does to the folder. *)
Lemma os_rename_spec (d d' : list entry) (src dst : str) :
  NoDup (names d) -> os_rename refused d src dst = Some d' ->
  NoDup (names d') /\
  (forall n, In (n, false) d' <-> In (n, false) d) /\
  (forall g, In (g, true) d' -> g = dst \/ In (g, true) d) /\
  length d' <= length d /\
  In (src, true) d.
Proof.
  intros Hnd. unfold os_rename.
  destruct (isfile d src) eqn:Hsrc; [|discriminate].
  destruct (is_dir_entry d dst) eqn:Hdir; [discriminate|].
  destruct (refused src dst); [discriminate|]. cbn [andb negb].
  intros E. injection E as <-. apply isfile_In in Hsrc.
  split; [|split; [|split; [|split]]].
  - cbn [names map fst]. constructor.
    + intros Hin. apply in_map_iff in Hin as (e & E & Hin).
      apply without_In in Hin as [_ Hne]. contradiction.
    + apply names_filter_NoDup. now apply names_filter_NoDup.
  - intros n. cbn [In]. rewrite !without_In. cbn [fst]. split.
    + intros [E | [[H _] _]]; [discriminate | exact H].
    + intros H. right. repeat split; [exact H | |].
      * intros ->. pose proof (@names_unique d src false true Hnd H Hsrc). discriminate.
      * intros ->. apply is_dir_entry_In in H. congruence.
  - intros g [E | H]; [left; now inversion E | right].
    apply without_In in H as [H _]. now apply without_In in H as [H _].
  - cbn [length]. pose proof (without_length dst (without src d)).
    pose proof (@without_length_lt src true d Hsrc). lia.
  - exact Hsrc.
Qed.

Lemma normalize_loop_spec (origin : list str) (listing : list str) (d : list entry) :
  NoDup (names d) -> incl listing origin ->
  NoDup (names (normalize_loop refused listing d)) /\
  (forall n, In (n, false) (normalize_loop refused listing d) <-> In (n, false) d) /\
  (forall g, In (g, true) (normalize_loop refused listing d) ->
             In (g, true) d \/ exists f, In f origin /\ g = normalize_name f) /\
  length (normalize_loop refused listing d) <= length d.
Proof.
  revert d; induction listing as [|f rest IH]; intros d Hnd Hincl.
  - cbn [normalize_loop]. repeat split; auto.
  - assert (Hrest : incl rest origin) by (intros x Hx; apply Hincl; now right).
    cbn [normalize_loop].
    destruct (negb (isfile d f)); [now apply IH|].
    destruct (negb (str_eqb (normalize_name f) f)); [|now apply IH].
    destruct (os_rename refused d f (normalize_name f)) as [d'|] eqn:Hr;
      [|now apply IH].
    destruct (@os_rename_spec d d' f (normalize_name f) Hnd Hr) as (Hnd' & Hdirs & Hfiles & Hlen & _).
    destruct (IH d' Hnd' Hrest) as (H1 & H2 & H3 & H4).
    split; [exact H1|]. split; [|split].
    + intros n. now rewrite H2, Hdirs.
    + intros g Hg. apply H3 in Hg as [Hg|Hg]; [|now right].
      apply Hfiles in Hg as [-> | Hg]; [right | now left].
      exists f. split; [apply Hincl; now left | reflexivity].
    + lia.
Qed.

Lemma normalize_loop_fixed (listing : list str) (d : list entry) :
  (forall f, In (f, true) d -> normalize_name f = f) ->
  normalize_loop refused listing d = d.
Proof.
  intros H. induction listing as [|f rest IH]; [reflexivity|].
  cbn [normalize_loop]. destruct (isfile d f) eqn:Hf; cbn [negb]; [|exact IH].
  apply isfile_In in Hf. rewrite (H f Hf), str_eqb_refl. exact IH.
Qed.

End NormalizeFolder.

(** X15: in a folder where no two entries have the same name,
    [normalize_filenames] keeps it so, leaves the directories as they are,
    and never adds an entry; each file afterwards is a file that was there
    under that name or has the normalised name of an entry that was there,
    so a file that still has two hyphens in a row had them before. *)
Theorem normalize_filenames_folder (refused : str -> str -> bool) (d : list entry) :
  NoDup (names d) ->
  NoDup (names (normalize_filenames refused d)) /\
  (forall n, In (n, false) (normalize_filenames refused d) <-> In (n, false) d) /\
  length (normalize_filenames refused d) <= length d /\
  (forall g, In (g, true) (normalize_filenames refused d) ->
             In (g, true) d \/ exists f, In f (names d) /\ g = normalize_name f) /\
  (forall g a b, In (g, true) (normalize_filenames refused d) ->
                 g = a ++ lit "--" ++ b -> In (g, true) d).
Proof.
  intros Hnd. unfold normalize_filenames.
  destruct (@normalize_loop_spec refused (names d) (names d) d Hnd (incl_refl _))
    as (H1 & H2 & H3 & H4).
  split; [exact H1|]. split; [exact H2|]. split; [exact H4|]. split; [exact H3|].
  intros g a b Hg E. apply H3 in Hg as [Hg | (f & _ & Ef)]; [exact Hg|].
  exfalso. subst g.
  pose proof (proj1 (single_hyphens_spec _) (normalize_name_no_double f)) as Hn.
  now apply Hn in E.
Qed.

Lemma normalize_filenames_folder_witness :
  NoDup (names (normalize_filenames (fun _ _ => false)
                  [(lit "a--b.jpg", true); (lit "a-b.jpg", true); (lit "old--dir", false)])) /\
  length (normalize_filenames (fun _ _ => false)
            [(lit "a--b.jpg", true); (lit "a-b.jpg", true); (lit "old--dir", false)]) <= 3.
Proof.
  assert (H : NoDup (names [(lit "a--b.jpg", true); (lit "a-b.jpg", true);
                            (lit "old--dir", false)]))
    by (repeat constructor; simpl; intuition discriminate).
  split.
  - apply (proj1 (@normalize_filenames_folder (fun _ _ => false) _ H)).
  - apply (proj1 (proj2 (proj2 (@normalize_filenames_folder (fun _ _ => false) _ H)))).
Defined.

(** X16: a folder whose files all have normalised names is left as it is
    by [normalize_filenames]. *)
Theorem normalize_filenames_fixed (refused : str -> str -> bool) (d : list entry) :
  (forall f, In (f, true) d -> normalize_name f = f) ->
  normalize_filenames refused d = d.
Proof. intros H. now apply normalize_loop_fixed. Qed.

Lemma normalize_filenames_fixed_witness :
  normalize_filenames (fun _ _ => false) [(lit "photo.jpg", true); (lit "old--dir", false)] =
  [(lit "photo.jpg", true); (lit "old--dir", false)].
Proof.
  apply normalize_filenames_fixed.
  intros f [E | [E | []]]; inversion E. reflexivity.
Defined.

(** X17: in a folder where no two entries have the same name, the listing
    that lines 120-123 give [delete_thumbnails_in_folder] holds the regular
    files of the normalised folder, each once. *)
Theorem list_files_regular (refused : str -> str -> bool) (d : list entry) :
  NoDup (names d) ->
  exists l,
    list_files refused (Some d) = Some l /\
    NoDup l /\
    forall f, In f l <-> In (f, true) (normalize_filenames refused d).
Proof.
  intros Hnd. unfold list_files. eexists. split; [reflexivity|].
  destruct (@normalize_loop_spec refused (names d) (names d) d Hnd (incl_refl _))
    as (H1 & _).
  fold (normalize_filenames refused d) in H1. split.
  - now apply NoDup_filter.
  - intros f. rewrite filter_In, isfile_In. split; [tauto|].
    intros H. split; [|exact H]. unfold names. apply in_map_iff. now exists (f, true).
Qed.

Lemma list_files_regular_witness :
  exists l,
    list_files (fun _ _ => false) (Some [(lit "a--b.jpg", true); (lit "sub", false)]) = Some l /\
    NoDup l /\
    forall f, In f l <->
              In (f, true) (normalize_filenames (fun _ _ => false)
                              [(lit "a--b.jpg", true); (lit "sub", false)]).
Proof.
  apply (@list_files_regular (fun _ _ => false) [(lit "a--b.jpg", true); (lit "sub", false)]).
  repeat constructor; simpl; intuition discriminate.
Defined.

(** ** A derivative and its original *)
Section DerivativeOriginal.

Lemma dim_at_app_hyphen (c : ascii) (y t : str) :
  Spec.dim_at ((c :: y) ++ "-"%char :: t) = Spec.dim_at (c :: y).
Proof.
  cbn [app]. unfold Spec.dim_at, Spec.span_digits.
  destruct (Ascii.eqb c "-"); [|reflexivity].
  rewrite span_app_stop by reflexivity. cbn [fst snd].
  destruct (snd (span is_digit y)) as [|c' z]; [reflexivity|].
  cbn [app]. destruct (Ascii.eqb c' "x"); [|reflexivity].
  rewrite span_app_stop by reflexivity. reflexivity.
Qed.

Lemma dim_len_le (x : str) : Spec.dim_len x <= length x.
Proof.
  unfold Spec.dim_len. destruct (Spec.dim_at x) as [[w h]|] eqn:E; [|lia].
  apply dim_at_Some in E as (rest & -> & _).
  cbn [length]. rewrite length_app. cbn [length]. rewrite length_app. lia.
Qed.

(** A dimension pattern that ends the name goes, and with it nothing
    else. *)
Lemma drop_dims_app_pattern (w h : str) (x : str) (n : nat) :
  Spec.digits w -> Spec.digits h -> n <= length x ->
  Spec.drop_dims n (x ++ "-"%char :: w ++ "x"%char :: h) = Spec.drop_dims n x.
Proof.
  intros Hw Hh. revert n; induction x as [|c x IH]; intros n Hn.
  - assert (n = 0) by (simpl in Hn; lia). subst n. cbn [app].
    pose proof (@remove_dims_occurrence [] w h []) as E.
    cbn [app] in E. rewrite app_nil_r in E. unfold Spec.remove_dims in E.
    apply E; auto. intros c y Ey. discriminate.
  - cbn [app Spec.drop_dims]. destruct n as [|n].
    + change (c :: x ++ "-"%char :: w ++ "x"%char :: h)
        with ((c :: x) ++ "-"%char :: w ++ "x"%char :: h).
      unfold Spec.dim_len at 1. rewrite dim_at_app_hyphen.
      fold (Spec.dim_len (c :: x)).
      pose proof (dim_len_le (c :: x)) as Hl.
      destruct (Spec.dim_len (c :: x)) as [|k].
      * rewrite IH by lia. reflexivity.
      * apply IH. simpl in Hl. lia.
    + apply IH. simpl in Hn. lia.
Qed.

Lemma digit_plain (c : ascii) :
  is_digit c = true ->
  c <> "."%char /\ c <> "/"%char /\ Ascii.eqb (lower_char c) "g" = false.
Proof.
  destruct c as [[] [] [] [] [] [] [] []]; vm_compute; intros H;
    try discriminate; repeat split; discriminate.
Qed.

Lemma digits_last (h : str) :
  Spec.digits h -> exists h' c, h = h' ++ [c] /\ is_digit c = true.
Proof.
  intros [Hne Hall]. destruct (exists_last Hne) as (h' & c & ->).
  exists h', c. split; [reflexivity|].
  apply Forall_app in Hall as [_ Hc]. now inversion Hc.
Qed.

Lemma pattern_has_stem (stem w h : str) :
  Spec.digits h -> Spec.has_stem (stem ++ "-"%char :: w ++ "x"%char :: h).
Proof.
  intros Hh. destruct (digits_last Hh) as (h' & c & -> & Hc).
  destruct (digit_plain c Hc) as (H1 & H2 & _).
  exists (stem ++ "-"%char :: w ++ "x"%char :: h'), c, [].
  split; [|repeat split; auto].
  rewrite <- !app_assoc. cbn [app]. now rewrite <- app_assoc.
Qed.

Lemma pattern_not_secondary (stem w h : str) :
  Spec.digits h ->
  endswith_any (lower (stem ++ "-"%char :: w ++ "x"%char :: h))
    [lit ".jpg"; lit ".jpeg"; lit ".png"] = false.
Proof.
  intros Hh. destruct (digits_last Hh) as (h' & c & -> & Hc).
  destruct (digit_plain c Hc) as (_ & _ & Hg).
  replace (stem ++ "-"%char :: w ++ "x"%char :: h' ++ [c])
    with ((stem ++ "-"%char :: w ++ "x"%char :: h') ++ [c])
    by (rewrite <- !app_assoc; cbn [app]; now rewrite <- app_assoc).
  unfold endswith_any, endswith. rewrite lower_app, rev_app_distr.
  cbn [existsb lower map rev app lit list_ascii_of_string startswith].
  now rewrite Hg.
Qed.

Lemma extension_shape (e : str) :
  In (lower e) (map lower MAIN_EXTENSIONS) ->
  exists ext, e = "."%char :: ext /\ ~ In "."%char ext /\ ~ In "/"%char ext.
Proof.
  intros H.
  assert (Hshape : exists w, lower e = "."%char :: w /\
                             ~ In "."%char w /\ ~ In "/"%char w).
  { simpl in H. destruct H as [H|[H|[H|[H|[H|[H|[H|[H|[]]]]]]]]]; rewrite <- H;
      eexists; (split; [reflexivity|]); split; simpl; intuition discriminate. }
  destruct Hshape as (w & Hw & Hdot & Hslash).
  apply lower_marker_cons in Hw as (c & ext & -> & Hc & Hext).
  apply lower_char_dot in Hc. subst c. exists ext. split; [reflexivity|].
  split; intros Hin; [apply Hdot | apply Hslash]; rewrite <- Hext;
    now apply lower_In.
Qed.

Lemma is_image_extension (x e : str) :
  In (lower e) (map lower MAIN_EXTENSIONS) -> is_image (x ++ e) = true.
Proof.
  intros H. unfold is_image, endswith_any. apply existsb_exists.
  exists (lower e). split; [exact H | now apply endswith_lower_intro].
Qed.

Lemma strip_extensions_original (stem e : str) :
  In (lower e) (map lower MAIN_EXTENSIONS) -> Spec.has_stem stem ->
  endswith_any (lower stem) [lit ".jpg"; lit ".jpeg"; lit ".png"] = false ->
  strip_extensions (stem ++ e) = stem.
Proof.
  intros He Hs Hsec. apply extension_shape in He as (ext & -> & Hdot & Hslash).
  unfold strip_extensions. rewrite splitext_stem by assumption.
  cbn [fst]. now rewrite Hsec.
Qed.

Lemma strip_extensions_derivative (stem w h e : str) :
  In (lower e) (map lower MAIN_EXTENSIONS) -> Spec.digits h ->
  strip_extensions ((stem ++ "-"%char :: w ++ "x"%char :: h) ++ e) =
  stem ++ "-"%char :: w ++ "x"%char :: h.
Proof.
  intros He Hh. apply strip_extensions_original; [exact He | |].
  - now apply pattern_has_stem.
  - now apply pattern_not_secondary.
Qed.

Lemma base_of_name_pattern (stem w h : str) :
  Spec.digits w -> Spec.digits h ->
  base_of_name (stem ++ "-"%char :: w ++ "x"%char :: h) = base_of_name stem.
Proof.
  intros Hw Hh. rewrite !base_of_name_steps. unfold Spec.remove_dims.
  now rewrite drop_dims_app_pattern by (auto; lia).
Qed.

Lemma is_thumbnail_name_pattern (stem w h : str) :
  Spec.digits w -> Spec.digits h ->
  (int_digits w < 1000 \/ int_digits h < 1000)%Z ->
  is_thumbnail_name (stem ++ "-"%char :: w ++ "x"%char :: h) = true.
Proof.
  intros Hw Hh Hsmall.
  destruct (contains (lower (stem ++ "-"%char :: w ++ "x"%char :: h)) (lit "-scaled")
            || contains (lower (stem ++ "-"%char :: w ++ "x"%char :: h)) (lit "-rotated"))
    eqn:Hm.
  - apply is_thumbnail_name_marker. apply has_marker_spec. exact Hm.
  - assert (Hl : Spec.last_dim (stem ++ "-"%char :: w ++ "x"%char :: h ++ []) stem w h []).
    { apply last_dim_intro; auto.
      - intros c p E. discriminate.
      - apply findall_nil_no_dim. reflexivity. }
    rewrite app_nil_r in Hl.
    apply (proj2 (@is_thumbnail_name_last_dim _ _ _ _ _ (@no_marker_computed _ Hm) Hl)).
    exact Hsmall.
Qed.

Lemma derivative_identity_helper (stem w h e : str) :
  Spec.digits w -> Spec.digits h ->
  In (lower e) (map lower MAIN_EXTENSIONS) ->
  Spec.has_stem stem ->
  endswith_any (lower stem) [lit ".jpg"; lit ".jpeg"; lit ".png"] = false ->
  get_base_name ((stem ++ "-"%char :: w ++ "x"%char :: h) ++ e) =
  get_base_name (stem ++ e).
Proof.
  intros Hw Hh He Hs Hsec. unfold get_base_name.
  rewrite strip_extensions_derivative, strip_extensions_original by assumption.
  now apply base_of_name_pattern.
Qed.

End DerivativeOriginal.

(** X18: a file name and the same name with a dimension suffix before the
    extension have the same identity: [get_base_name] of
    [stem-<w>x<h>.ext] is that of [stem.ext], for an extension of
    [MAIN_EXTENSIONS] and a stem that does not itself end in [.jpg],
    [.jpeg] or [.png]. *)
Theorem derivative_shares_identity (stem w h e : str) :
  Spec.digits w -> Spec.digits h ->
  In (lower e) (map lower MAIN_EXTENSIONS) ->
  Spec.has_stem stem ->
  endswith_any (lower stem) [lit ".jpg"; lit ".jpeg"; lit ".png"] = false ->
  get_base_name ((stem ++ "-"%char :: w ++ "x"%char :: h) ++ e) =
  get_base_name (stem ++ e).
Proof.
  intros Hw Hh He Hs Hsec. now apply derivative_identity_helper.
Qed.

Lemma derivative_shares_identity_witness :
  get_base_name ((lit "My_Photo" ++ "-"%char :: lit "150" ++ "x"%char :: lit "100") ++ lit ".JPG") =
  get_base_name (lit "My_Photo" ++ lit ".JPG").
Proof.
  apply derivative_shares_identity.
  - apply digits_computed. reflexivity.
  - apply digits_computed. reflexivity.
  - simpl. tauto.
  - exists (lit "My_Phot"), "o"%char, []. repeat split; try discriminate. constructor.
  - reflexivity.
Defined.

(** X19: when a folder lists an image [stem.ext] that the detector
    classifies as a main file and its derivative [stem-<w>x<h>.ext] with a
    width or a height below 1000, [delete_thumbnails_in_folder] decides to
    delete the derivative, removes it unless it is locked, and leaves the
    main file in the folder. *)
Theorem derivative_of_listed_original_is_deleted (locked : str -> bool)
  (all_files : list str) (stem w h e : str) :
  Spec.digits w -> Spec.digits h ->
  (int_digits w < 1000 \/ int_digits h < 1000)%Z ->
  In (lower e) (map lower MAIN_EXTENSIONS) ->
  Spec.has_stem stem ->
  endswith_any (lower stem) [lit ".jpg"; lit ".jpeg"; lit ".png"] = false ->
  is_thumbnail (stem ++ e) = false ->
  In (stem ++ e) all_files ->
  In ((stem ++ "-"%char :: w ++ "x"%char :: h) ++ e) all_files ->
  In ((stem ++ "-"%char :: w ++ "x"%char :: h) ++ e, Spec.Delete)
     (Spec.decisions (delete_thumbnails_in_folder locked (Some all_files))) /\
  (locked ((stem ++ "-"%char :: w ++ "x"%char :: h) ++ e) = false ->
   ~ In ((stem ++ "-"%char :: w ++ "x"%char :: h) ++ e)
        (disk (delete_thumbnails_in_folder locked (Some all_files)))) /\
  In (stem ++ e) (disk (delete_thumbnails_in_folder locked (Some all_files))).
Proof.
  intros Hw Hh Hsmall He Hs Hsec Hmain Horig Hder.
  set (t := (stem ++ "-"%char :: w ++ "x"%char :: h) ++ e) in *.
  assert (Hthumb : is_thumbnail t = true).
  { unfold is_thumbnail, t. rewrite strip_extensions_derivative by assumption.
    now apply is_thumbnail_name_pattern. }
  assert (Himg : is_image t = true) by (now apply is_image_extension).
  assert (Himg' : is_image (stem ++ e) = true) by (now apply is_image_extension).
  assert (Hmatch : In (stem ++ e)
             (find_matching_main_files (get_base_name t) (filter is_image all_files))).
  { unfold find_matching_main_files. apply find_matching_loop_In.
    split; [apply filter_In; now split|]. split; [exact Hmain|]. left.
    unfold t. now rewrite derivative_identity_helper by assumption. }
  assert (Hhas : has_match (filter is_image all_files) t = true).
  { unfold has_match.
    destruct (find_matching_main_files (get_base_name t) (filter is_image all_files));
      [destruct Hmatch | reflexivity]. }
  split; [|split].
  - rewrite folder_decisions. apply in_map_iff. exists t. split.
    + unfold Spec.decision_of, Spec.decide_for. unfold has_match in Hhas.
      destruct (find_matching_main_files (get_base_name t) (filter is_image all_files));
        [discriminate | reflexivity].
    + unfold Spec.derivatives. apply filter_In. split; [|exact Hthumb].
      apply filter_In. now split.
  - intros Hl Hin. rewrite folder_disk in Hin. apply filter_In in Hin as [_ Hin].
    rewrite Himg, Hthumb, Hhas, Hl in Hin. discriminate.
  - apply folder_keeps_main; [exact Horig | now right].
Qed.

Lemma derivative_of_listed_original_is_deleted_witness :
  In ((lit "My_Photo" ++ "-"%char :: lit "150" ++ "x"%char :: lit "100") ++ lit ".JPG",
      Spec.Delete)
     (Spec.decisions
        (delete_thumbnails_in_folder (fun _ => false)
           (Some [lit "My_Photo" ++ lit ".JPG";
                  (lit "My_Photo" ++ "-"%char :: lit "150" ++ "x"%char :: lit "100")
                    ++ lit ".JPG"]))) /\
  In (lit "My_Photo" ++ lit ".JPG")
     (disk
        (delete_thumbnails_in_folder (fun _ => false)
           (Some [lit "My_Photo" ++ lit ".JPG";
                  (lit "My_Photo" ++ "-"%char :: lit "150" ++ "x"%char :: lit "100")
                    ++ lit ".JPG"]))).
Proof.
  assert (Hw : Spec.digits (lit "150")) by (apply digits_computed; reflexivity).
  assert (Hh : Spec.digits (lit "100")) by (apply digits_computed; reflexivity).
  assert (Hsmall : (int_digits (lit "150") < 1000 \/ int_digits (lit "100") < 1000)%Z)
    by (left; reflexivity).
  assert (He : In (lower (lit ".JPG")) (map lower MAIN_EXTENSIONS)) by (simpl; tauto).
  assert (Hs : Spec.has_stem (lit "My_Photo")).
  { exists (lit "My_Phot"), "o"%char, []. repeat split; try discriminate. constructor. }
  assert (Hsec : endswith_any (lower (lit "My_Photo"))
                   [lit ".jpg"; lit ".jpeg"; lit ".png"] = false) by reflexivity.
  assert (Hmain : is_thumbnail (lit "My_Photo" ++ lit ".JPG") = false)
    by (vm_compute; reflexivity).
  destruct (@derivative_of_listed_original_is_deleted (fun _ => false)
              [lit "My_Photo" ++ lit ".JPG";
               (lit "My_Photo" ++ "-"%char :: lit "150" ++ "x"%char :: lit "100")
                 ++ lit ".JPG"]
              (lit "My_Photo") (lit "150") (lit "100") (lit ".JPG")
              Hw Hh Hsmall He Hs Hsec Hmain
              (or_introl eq_refl) (or_intror (or_introl eq_refl)))
    as (H1 & _ & H3).
  split; [exact H1 | exact H3].
Defined.

Lemma is_thumbnail_any_secondary_extension_witness :
  is_thumbnail (lit "photo-150x150.webp.jpg") = is_thumbnail_name (lit "photo-150x150").
Proof.
  apply (@is_thumbnail_any_secondary_extension
           (lit "photo-150x150.webp.jpg") (lit "photo-150x150") (lit ".webp")).
  - vm_compute. reflexivity.
  - simpl. tauto.
Defined.

(** X21: a derivative that has a matching main file among the images of a
    folder still has one when the folder holds more files: the test of
    [find_matching_main_files] on a candidate does not depend on the other
    candidates. *)
Theorem more_files_keep_the_match (image_files more_files : list str) (t : str) :
  incl image_files more_files ->
  has_match image_files t = true -> has_match more_files t = true.
Proof.
  unfold has_match, find_matching_main_files. intros Hincl H.
  destruct (find_matching_loop (lower (get_base_name t)) image_files) as [|m ms] eqn:E;
    [discriminate|].
  assert (Hm : In m (find_matching_loop (lower (get_base_name t)) image_files))
    by (rewrite E; now left).
  apply find_matching_loop_In in Hm as (Hin & Hmain & Htest).
  assert (Hm' : In m (find_matching_loop (lower (get_base_name t)) more_files)).
  { apply find_matching_loop_In. split; [now apply Hincl | now split]. }
  destruct (find_matching_loop (lower (get_base_name t)) more_files);
    [destruct Hm' | reflexivity].
Qed.

Lemma more_files_keep_the_match_witness :
  has_match [lit "notes.png"; lit "sunset.jpg"] (lit "sunset-300x200.jpg") = true.
Proof.
  apply (@more_files_keep_the_match [lit "sunset.jpg"]
           [lit "notes.png"; lit "sunset.jpg"] (lit "sunset-300x200.jpg")).
  - intros x [<-|[]]. right. now left.
  - vm_compute. reflexivity.
Defined.
